(** * ngx-data-to-csv: a shallow embedding of [NgxDataToCsvService]

    The development embeds the service of
    [projects/ngx-data-to-csv/src/lib/ngx-data-to-csv.service.ts] together
    with the constants of its [model] file.  The service file carries two
    listings of the class:

    - the first listing (lines 1-150) assembles the document with
      [csvData.join(END_OF_LINE)] and logs on bad input;
    - the second listing (lines 151-445) appends the header and every row
      with its own [END_OF_LINE] and throws on bad input.

    Both are embedded, as [V1] and [V2]; what they share (the value
    resolver, the schema discoverer, the model constants) is embedded once.

    [JSON.parse] is a parameter of the two listings.  The fields of the
    class are threaded through every method as a [service]; what a method
    does besides (a line on the console, a download) is kept as a trace of
    events, and a thrown exception ends the method. *)

From Stdlib Require Import List NArith ZArith String Ascii Bool Arith.
From Stdlib Require Import DecimalString.
From Stdlib Require DecimalPos DecimalN.
Import ListNotations.

Set Implicit Arguments.
Set Warnings "-register-all".

(* ================================================================== *)
(** ** JavaScript strings *)

(** A JavaScript string is a sequence of UTF-16 code units. *)
Definition codeunit := N.
Definition str := list codeunit.

(** ASCII literals of the source text. *)
Definition lit (s : string) : str := map N_of_ascii (list_ascii_of_string s).

Fixpoint str_eqb (a b : str) : bool :=
  match a, b with
  | [], [] => true
  | x :: a', y :: b' => N.eqb x y && str_eqb a' b'
  | _, _ => false
  end.

(** [String(n)] for a non-negative integer, as in [`${index}`]. *)
Definition decimal (n : N) : str := lit (NilEmpty.string_of_uint (N.to_uint n)).

(** [String(z)] for an integer-valued number. *)
Definition decimalZ (z : Z) : str :=
  match z with
  | Zneg p => lit "-" ++ decimal (Npos p)
  | _ => decimal (Z.to_N z)
  end.

Definition DQUOTE : codeunit := 34%N.
Definition DOT : codeunit := 46%N.
Definition LBRACKET : codeunit := 91%N.
Definition RBRACKET : codeunit := 93%N.

(** [s.split(sep)] for a one-character separator: always at least one
    segment, [''.split('.')] being [['']]. *)
Fixpoint splitOn (sep : codeunit) (s : str) : list str :=
  match s with
  | [] => [[]]
  | c :: r =>
      if N.eqb c sep then [] :: splitOn sep r
      else match splitOn sep r with
           | seg :: segs => (c :: seg) :: segs
           | [] => [[c]]
           end
  end.

(** [xs.join(sep)] on an array of strings. *)
Fixpoint join (sep : str) (xs : list str) : str :=
  match xs with
  | [] => []
  | x :: r => match r with
              | [] => x
              | _ :: _ => x ++ sep ++ join sep r
              end
  end.

(** [s.replace(/Q/g, QQ)] where [Q] is the double-quote character: every
    double quote is replaced by two. *)
Fixpoint replaceQuotes (s : str) : str :=
  match s with
  | [] => []
  | c :: r => if N.eqb c DQUOTE then DQUOTE :: DQUOTE :: replaceQuotes r
              else c :: replaceQuotes r
  end.

(** [s.includes(Q)] for the double-quote character [Q]. *)
Definition includesQuote (s : str) : bool := existsb (N.eqb DQUOTE) s.

(** [s.replace(/ /g, '_')]. *)
Definition replaceSpaces (s : str) : str :=
  map (fun c => if N.eqb c 32 then 95%N else c) s.

(** The character classes [\d] and [\w] of a regular expression without
    the unicode flag. *)
Definition isDigit (c : codeunit) : bool := (N.leb 48 c && N.leb c 57)%N.
Definition isWord (c : codeunit) : bool :=
  isDigit c || (N.leb 65 c && N.leb c 90)%N || (N.leb 97 c && N.leb c 122)%N
  || N.eqb c 95.

(** The longest prefix of digits, and what follows it. *)
Fixpoint spanDigits (s : str) : str * str :=
  match s with
  | c :: r => if isDigit c then let (ds, rest) := spanDigits r in (c :: ds, rest)
              else ([], s)
  | [] => ([], [])
  end.

(** What follows an opening bracket matches [(\d+)\]]. *)
Definition bracketIndex (rest : str) : option str :=
  match spanDigits rest with
  | (d :: ds, c :: _) => if N.eqb c RBRACKET then Some (d :: ds) else None
  | _ => None
  end.

(** [key.match(/(\w+)\[(\d+)\]/)]: the pattern is not anchored, so the
    leftmost occurrence is found.  [\w+] is followed by a bracket, which is
    no word character, hence a match starts at the beginning of a maximal
    run of word characters; [word] is the run read so far. *)
Fixpoint matchFrom (word : str) (s : str) : option (str * str) :=
  match s with
  | [] => None
  | c :: r =>
      if isWord c then matchFrom (word ++ [c]) r
      else if N.eqb c LBRACKET then
        match word, bracketIndex r with
        | _ :: _, Some ds => Some (word, ds)
        | _, _ => matchFrom [] r
        end
      else matchFrom [] r
  end.

(** The groups [match[1]] and [match[2]], or [None] for [null]. *)
Definition matchIndexed (key : str) : option (str * str) := matchFrom [] key.

(* ================================================================== *)
(** ** JavaScript values *)

(** The values a record is made of: what [JSON.parse] can give, and
    [undefined].  A number is integer-valued.  An object is the list of its
    own enumerable properties in the order [for ... in] visits them; its
    keys are pairwise distinct, so a loop over the list reads with each key
    the value [obj[key]]. *)
Inductive value : Type :=
| VUndefined
| VNull
| VBool (b : bool)
| VNum (z : Z)
| VStr (s : str)
| VArr (items : list value)
| VObj (props : list (str * value)).

(** [typeof v === 'object'] *)
Definition typeofObject (v : value) : bool :=
  match v with
  | VNull | VArr _ | VObj _ => true
  | _ => false
  end.

(** [typeof v === 'object' && v !== null] *)
Definition isObjectNotNull (v : value) : bool :=
  match v with VArr _ | VObj _ => true | _ => false end.

(** [!v] is false: the value is truthy. *)
Definition truthy (v : value) : bool :=
  match v with
  | VUndefined | VNull => false
  | VBool b => b
  | VNum z => negb (Z.eqb z 0)
  | VStr s => match s with [] => false | _ => true end
  | VArr _ | VObj _ => true
  end.

Inductive exn : Type :=
| TypeError
| Error (message : str).

Inductive completion (A : Type) : Type :=
| Normal (a : A)
| Throw (e : exn).
Arguments Normal {A} a.
Arguments Throw {A} e.

Definition andThen {A B} (c : completion A) (k : A -> completion B) : completion B :=
  match c with
  | Normal a => k a
  | Throw e => Throw e
  end.

(** The digits of a property key read as a number. *)
Fixpoint digitsValue (acc : N) (s : str) : option N :=
  match s with
  | [] => Some acc
  | c :: r => if isDigit c then digitsValue (10 * acc + (c - 48))%N r else None
  end.

(** A property key is an array index when it is the canonical decimal
    numeral of a number. *)
Definition arrayIndex (k : str) : option nat :=
  match k with
  | [] => None
  | _ :: _ =>
      match digitsValue 0 k with
      | Some n => if str_eqb (decimal n) k then Some (N.to_nat n) else None
      | None => None
      end
  end.

(** The own property [k] of an object. *)
Fixpoint ownProperty (k : str) (props : list (str * value)) : value :=
  match props with
  | [] => VUndefined
  | (k', v) :: r => if str_eqb k' k then v else ownProperty k r
  end.

(** [v[k]].  Reading a property of [undefined] or [null] throws.  Only own
    properties are modelled: a member that the host finds further up the
    prototype chain ([constructor], [toString], [valueOf], [__proto__], the
    methods of arrays and strings, ...) is a function or a host object, which
    [value] cannot hold, and reads as [undefined] here.  The model is the
    source for every name that is an own property or is on no prototype; a
    statement that depends on a name being absent says so. *)
Definition getProp (v : value) (k : str) : completion value :=
  match v with
  | VUndefined | VNull => Throw TypeError
  | VBool _ | VNum _ => Normal VUndefined
  | VStr s =>
      match arrayIndex k with
      | Some i => Normal (match nth_error s i with
                          | Some c => VStr [c]
                          | None => VUndefined
                          end)
      | None => Normal (if str_eqb k (lit "length")
                        then VNum (Z.of_nat (List.length s)) else VUndefined)
      end
  | VArr items =>
      match arrayIndex k with
      | Some i => Normal (match nth_error items i with
                          | Some x => x
                          | None => VUndefined
                          end)
      | None => Normal (if str_eqb k (lit "length")
                        then VNum (Z.of_nat (List.length items)) else VUndefined)
      end
  | VObj props => Normal (ownProperty k props)
  end.

(* ================================================================== *)
(** ** Host functions: [String], [JSON.stringify] *)

(** [String(v)].  An array renders as its elements joined by commas, with
    [null] and [undefined] elements empty; an object as [[object Object]].
    A number is an integer and is printed with all its digits, which is what
    the host prints below [1e21]; larger numbers, fractions, [NaN] and the
    infinities are outside the model. *)
Fixpoint toString (v : value) : str :=
  match v with
  | VUndefined => lit "undefined"
  | VNull => lit "null"
  | VBool true => lit "true"
  | VBool false => lit "false"
  | VNum z => decimalZ z
  | VStr s => s
  | VArr items =>
      join (lit ",")
        (map (fun x => match x with
                       | VUndefined | VNull => []
                       | _ => toString x
                       end) items)
  | VObj _ => lit "[object Object]"
  end.

Definition hexDigit (n : N) : codeunit :=
  (if n <? 10 then 48 + n else 87 + n)%N.

(** The escape [\uXXXX] of a code unit, in lower-case hexadecimal. *)
Definition unicodeEscape (c : codeunit) : str :=
  [92; 117; hexDigit ((c / 4096) mod 16); hexDigit ((c / 256) mod 16);
   hexDigit ((c / 16) mod 16); hexDigit (c mod 16)]%N.

Definition isHighSurrogate (c : codeunit) : bool := (N.leb 55296 c && N.leb c 56319)%N.
Definition isLowSurrogate (c : codeunit) : bool := (N.leb 56320 c && N.leb c 57343)%N.

(** One code unit inside a JSON string. *)
Definition jsonEscape (c : codeunit) : str :=
  (if c =? 34 then [92; 34]
   else if c =? 92 then [92; 92]
   else if c =? 8 then [92; 98]
   else if c =? 9 then [92; 116]
   else if c =? 10 then [92; 110]
   else if c =? 12 then [92; 102]
   else if c =? 13 then [92; 114]
   else if c <? 32 then unicodeEscape c
   else [c])%N.

(** The body of a JSON string: a surrogate that is not part of a pair is
    written as an escape. *)
Fixpoint jsonStringBody (s : str) : str :=
  match s with
  | [] => []
  | c :: r =>
      if isHighSurrogate c then
        match r with
        | d :: r' => if isLowSurrogate d then c :: d :: jsonStringBody r'
                     else unicodeEscape c ++ jsonStringBody r
        | [] => unicodeEscape c
        end
      else if isLowSurrogate c then unicodeEscape c ++ jsonStringBody r
      else jsonEscape c ++ jsonStringBody r
  end.

Definition jsonString (s : str) : str := DQUOTE :: jsonStringBody s ++ [DQUOTE].

(** [JSON.stringify(v)]: [None] stands for the result [undefined].  A
    property whose value is [undefined] is left out of an object, an
    [undefined] element of an array is written [null]. *)
Fixpoint JSON_stringify (v : value) : option str :=
  match v with
  | VUndefined => None
  | VNull => Some (lit "null")
  | VBool true => Some (lit "true")
  | VBool false => Some (lit "false")
  | VNum z => Some (decimalZ z)
  | VStr s => Some (jsonString s)
  | VArr items =>
      Some (lit "[" ++
            join (lit ",")
              (map (fun x => match JSON_stringify x with
                             | Some t => t
                             | None => lit "null"
                             end) items)
            ++ lit "]")
  | VObj props =>
      Some (lit "{" ++
            join (lit ",")
              (flat_map (fun p => match JSON_stringify (snd p) with
                                  | Some t => [jsonString (fst p) ++ lit ":" ++ t]
                                  | None => []
                                  end) props)
            ++ lit "}")
  end.

(* ================================================================== *)
(** ** The value resolver: [getNestedObjectValue] *)

(** One turn of the loop over the segments of the key. *)
Definition resolveSegment (current : value) (key : str) : completion value :=
  match matchIndexed key with
  | Some (name, index) => andThen (getProp current name) (fun a => getProp a index)
  | None => getProp current key
  end.

Fixpoint resolveSegments (keys : list str) (current : value) : completion value :=
  match keys with
  | [] => Normal current
  | key :: rest => andThen (resolveSegment current key) (resolveSegments rest)
  end.

Definition getNestedObjectValue (obj : value) (key : str) : completion value :=
  resolveSegments (splitOn DOT key) obj.

(* ================================================================== *)
(** ** The schema discoverer: [extractUniqueKeys] *)

(** [keys.add(k)] on a [Set], which keeps insertion order. *)
Definition setAdd (k : str) (keys : list str) : list str :=
  if existsb (str_eqb k) keys then keys else keys ++ [k].

(** The inner function [extract], threading the set [keys] it adds to.
    [for (const key in obj)] visits the properties of an object, the indices
    of an array and the indices of a string, and nothing of any other
    value. *)
Fixpoint extract (obj : value) (currentKeyPrefix : str) (keys : list str)
  {struct obj} : list str :=
  let visit (key : str) (v : value) (keys : list str) : list str :=
    match v with
    | VArr items =>
        (fix forEach (its : list value) (index : nat) (keys : list str)
           {struct its} : list str :=
           match its with
           | [] => keys
           | item :: its' =>
               forEach its' (S index)
                 (extract item
                    (currentKeyPrefix ++ key ++ lit "[" ++
                     decimal (N.of_nat index) ++ lit "].") keys)
           end) items 0 keys
    | VObj _ => extract v (currentKeyPrefix ++ key ++ lit ".") keys
    | _ => setAdd (currentKeyPrefix ++ key) keys
    end in
  match obj with
  | VObj props =>
      (fix forIn (ps : list (str * value)) (keys : list str) {struct ps}
         : list str :=
         match ps with
         | [] => keys
         | (key, v) :: ps' => forIn ps' (visit key v keys)
         end) props keys
  | VArr elems =>
      (fix forIn (es : list value) (index : nat) (keys : list str) {struct es}
         : list str :=
         match es with
         | [] => keys
         | v :: es' => forIn es' (S index) (visit (decimal (N.of_nat index)) v keys)
         end) elems 0 keys
  | VStr s =>
      (fix forIn (cs : str) (index : nat) (keys : list str) {struct cs}
         : list str :=
         match cs with
         | [] => keys
         | _ :: cs' =>
             forIn cs' (S index)
               (setAdd (currentKeyPrefix ++ decimal (N.of_nat index)) keys)
         end) s 0 keys
  | _ => keys
  end.

(** [arr.forEach(item => extract(item, keyPrefix))] and [Array.from(keys)].
    A value that is no array has no [forEach] to call. *)
Definition extractUniqueKeysFrom (arr : value) (keyPrefix : str) : completion (list str) :=
  match arr with
  | VArr items =>
      Normal (fold_left (fun keys item => extract item keyPrefix keys) items [])
  | _ => Throw TypeError
  end.

Definition extractUniqueKeys (arr : value) : completion (list str) :=
  extractUniqueKeysFrom arr [].

(* ================================================================== *)
(** ** The model file: [Config], [CsvConfigConsts], [ConfigDefaults] *)

(** Every field of the interface is optional: [None] is an absent field.
    A field that is present holds a value of its declared type; a field
    that is present with the value [undefined], which the spread would copy
    over the default, is outside the model. *)
Record Config : Type := mkConfig {
  filename : option str;
  fieldSeparator : option str;
  showTitle : option bool;
  title : option str;
  useByteOrderMark : option bool;
  noDownload : option bool
}.

Module CsvConfigConsts.
Definition END_OF_LINE : str := [13; 10]%N.
Definition ByteOrderMark : str := [65279]%N.
Definition DEFAULT_FIELD_SEPARATOR : str := lit ",".
Definition DEFAULT_SHOW_TITLE : bool := false.
Definition DEFAULT_TITLE : str := lit "CSV".
Definition DEFAULT_FILENAME : str := lit "csv.csv".
Definition DEFAULT_USE_BOM : bool := true.
Definition DEFAULT_NO_DOWNLOAD : bool := false.
End CsvConfigConsts.

Definition ConfigDefaults : Config :=
  {| filename := Some CsvConfigConsts.DEFAULT_FILENAME;
     fieldSeparator := Some CsvConfigConsts.DEFAULT_FIELD_SEPARATOR;
     showTitle := Some CsvConfigConsts.DEFAULT_SHOW_TITLE;
     title := Some CsvConfigConsts.DEFAULT_TITLE;
     useByteOrderMark := Some CsvConfigConsts.DEFAULT_USE_BOM;
     noDownload := Some CsvConfigConsts.DEFAULT_NO_DOWNLOAD |}.

Definition orElse {A} (over base : option A) : option A :=
  match over with
  | Some a => Some a
  | None => base
  end.

(** [{ ...base, ...over }] *)
Definition spread (base : Config) (over : option Config) : Config :=
  match over with
  | None => base
  | Some c =>
      {| filename := orElse (filename c) (filename base);
         fieldSeparator := orElse (fieldSeparator c) (fieldSeparator base);
         showTitle := orElse (showTitle c) (showTitle base);
         title := orElse (title c) (title base);
         useByteOrderMark := orElse (useByteOrderMark c) (useByteOrderMark base);
         noDownload := orElse (noDownload c) (noDownload base) |}
  end.

Definition withFilename (c : Config) (name : str) : Config :=
  {| filename := Some name;
     fieldSeparator := fieldSeparator c;
     showTitle := showTitle c;
     title := title c;
     useByteOrderMark := useByteOrderMark c;
     noDownload := noDownload c |}.

(** A flag read in a condition. *)
Definition isSet (b : option bool) : bool :=
  match b with Some true => true | _ => false end.

(** A string field inside a concatenation: an absent one reads
    [undefined]. *)
Definition textOf (s : option str) : str :=
  match s with Some t => t | None => lit "undefined" end.

(** [xs.join(sep)] where [sep] may be [undefined], which joins with a
    comma. *)
Definition joinWith (sep : option str) (xs : list str) : str :=
  join (match sep with Some t => t | None => lit "," end) xs.

(* ================================================================== *)
(** ** The service instance and its effects *)

(** The private fields of [NgxDataToCsvService]. *)
Record service : Type := mkService {
  data : value;
  options : option Config;
  csv : str
}.

(** A freshly injected instance. *)
Definition newService : service :=
  {| data := VUndefined; options := None; csv := [] |}.

(** What a call does to its environment: a line on the console, or the
    click on a link that downloads a blob. *)
Inductive event : Type :=
| ConsoleLog (args : list str)
| Download (download : str) (type : str) (blob : str).

(** A method: it reads and writes the fields, leaves a trace of events and
    completes normally or throws. *)
Definition M (A : Type) : Type := service -> completion A * service * list event.

Definition ret {A} (a : A) : M A := fun this => (Normal a, this, []).

Definition throw {A} (e : exn) : M A := fun this => (Throw e, this, []).

Definition bind {A B} (m : M A) (k : A -> M B) : M B :=
  fun this =>
    match m this with
    | (Normal a, this', t) =>
        match k a this' with
        | (r, this'', t') => (r, this'', t ++ t')
        end
    | (Throw e, this', t) => (Throw e, this', t)
    end.

Notation "x <- m ;; k" := (bind m (fun x => k))
  (at level 61, m at next level, right associativity).
Notation "m ;;; k" := (bind m (fun _ => k))
  (at level 61, right associativity).

Definition lift {A} (c : completion A) : M A := fun this => (c, this, []).

Definition emit (e : event) : M unit := fun this => (Normal tt, this, [e]).

Definition getData : M value := fun this => (Normal (data this), this, []).
Definition getOptions : M (option Config) := fun this => (Normal (options this), this, []).
Definition getCsv : M str := fun this => (Normal (csv this), this, []).

Definition setData (d : value) : M unit :=
  fun this => (Normal tt, {| data := d; options := options this; csv := csv this |}, []).
Definition setOptions (o : Config) : M unit :=
  fun this => (Normal tt, {| data := data this; options := Some o; csv := csv this |}, []).
Definition setCsv (c : str) : M unit :=
  fun this => (Normal tt, {| data := data this; options := options this; csv := c |}, []).

(** [this.csv += text] *)
Definition appendCsv (text : str) : M unit :=
  c <- getCsv ;; setCsv (c ++ text).

(** [this.options.f]: reading a field of [undefined] throws. *)
Definition optionsField {A} (f : Config -> option A) : M (option A) :=
  o <- getOptions ;;
  match o with
  | Some c => ret (f c)
  | None => throw TypeError
  end.

(** [this.options?.f] *)
Definition optionsField' {A} (f : Config -> option A) : M (option A) :=
  o <- getOptions ;;
  match o with
  | Some c => ret (f c)
  | None => ret None
  end.

(** [this.options.filename = name] *)
Definition assignFilename (name : str) : M unit :=
  o <- getOptions ;;
  match o with
  | Some c => setOptions (withFilename c name)
  | None => throw TypeError
  end.

(** [keys.map(f)] for an [f] that may throw. *)
Fixpoint mapM {A B} (f : A -> M B) (xs : list A) : M (list B) :=
  match xs with
  | [] => ret []
  | x :: r => y <- f x ;; ys <- mapM f r ;; ret (y :: ys)
  end.

Fixpoint forEachM {A} (f : A -> M unit) (xs : list A) : M unit :=
  match xs with
  | [] => ret tt
  | x :: r => f x ;;; forEachM f r
  end.

(** [for (const obj of v)]: only an array is iterated here, any other
    object is not iterable. *)
Definition forOf (v : value) (body : value -> M unit) : M unit :=
  match v with
  | VArr items => forEachM body items
  | _ => throw TypeError
  end.

(** What [JSON.parse] answers: a value, or a [SyntaxError] with its
    message. *)
Inductive parsed : Type :=
| Parsed (v : value)
| SyntaxError (message : str).

(** [downloadCsvFile], the same in both listings: the blob holds [this.csv],
    the link's [download] attribute is the file name with spaces replaced
    and [.csv] appended. *)
Definition downloadCsvFile : M unit :=
  c <- getCsv ;;
  name <- optionsField' filename ;;
  emit (Download (match name with
                  | Some n => replaceSpaces n
                  | None => lit "undefined"
                  end ++ lit ".csv")
                 (lit "text/csv;charset=utf8;") c).

(** [xs.map(f)] for a pure [f] that may throw: the first throw ends the
    traversal. *)
Fixpoint mapC {A B} (f : A -> completion B) (xs : list A) : completion (list B) :=
  match xs with
  | [] => Normal []
  | x :: r => andThen (f x) (fun y => andThen (mapC f r) (fun ys => Normal (y :: ys)))
  end.

(** [if (filename) { this.options.filename = filename; }] *)
Definition overrideFilename (filenameArg : str) : M unit :=
  match filenameArg with
  | [] => ret tt
  | _ :: _ => assignFilename filenameArg
  end.

(** The value handed to [String] by [formatCellValue]: an object or array is
    replaced by its JSON text. *)
Definition cellValue (v : value) : value :=
  if isObjectNotNull v then
    match JSON_stringify v with
    | Some t => VStr t
    | None => VUndefined
    end
  else v.

(* ================================================================== *)
(** ** The first listing (lines 1-150) *)

Module V1.
Section Host.

(** [JSON.parse] of the host. *)
Variable JSON_parse : str -> parsed.

(** A parse failure is caught and logged; [null] is returned for it and
    for a parsed value that is no object. *)
Definition parseJson (jsonString : value) : M value :=
  match JSON_parse (toString jsonString) with
  | Parsed parsedData =>
      if isObjectNotNull parsedData then ret parsedData else ret VNull
  | SyntaxError message =>
      emit (ConsoleLog [lit "Invalid JSON:"; message]) ;;; ret VNull
  end.

Definition formatCellValue (obj : value) (key : str) : completion str :=
  andThen (getNestedObjectValue obj key) (fun value =>
    let strValue := replaceQuotes (toString (cellValue value)) in
    Normal (DQUOTE :: strValue ++ [DQUOTE])).

(** The loop that pushes one joined row per record onto [csvData]. *)
Definition pushRows (records : value) (keys : list str) : M (list str) :=
  match records with
  | VArr items =>
      mapM (fun obj =>
              row <- lift (mapC (formatCellValue obj) keys) ;;
              sep <- optionsField fieldSeparator ;;
              ret (joinWith sep row)) items
  | _ => throw TypeError
  end.

Definition toCsv (dataToTransform : value) (filenameArg : str)
  (config : option Config) : M (option str) :=
  setCsv [] ;;;
  d <- (if typeofObject dataToTransform then ret dataToTransform
        else parseJson dataToTransform) ;;
  setData d ;;;
  if negb (truthy d) then ret None else
  setOptions (spread ConfigDefaults config) ;;;
  overrideFilename filenameArg ;;;
  bom <- optionsField' useByteOrderMark ;;
  (if isSet bom then appendCsv CsvConfigConsts.ByteOrderMark else ret tt) ;;;
  shown <- optionsField' showTitle ;;
  (if isSet shown
   then t <- optionsField' title ;; appendCsv (textOf t ++ [13; 10; 10]%N)
   else ret tt) ;;;
  d <- getData ;;
  keys <- lift (extractUniqueKeys d) ;;
  sep <- optionsField fieldSeparator ;;
  rows <- pushRows d keys ;;
  appendCsv (join CsvConfigConsts.END_OF_LINE (joinWith sep keys :: rows)) ;;;
  c <- getCsv ;;
  match c with
  | [] => emit (ConsoleLog [lit "Invalid data"]) ;;; ret None
  | _ :: _ =>
      nd <- optionsField' noDownload ;;
      if isSet nd then ret (Some c)
      else downloadCsvFile ;;; ret None
  end.

End Host.
End V1.

(* ================================================================== *)
(** ** The second listing (lines 151-445) *)

Module V2.
Section Host.

Variable JSON_parse : str -> parsed.

(** The error thrown inside the [try] block is caught by its own [catch]
    and thrown again with the prefix. *)
Definition parseJson (jsonString : value) : M value :=
  match JSON_parse (toString jsonString) with
  | Parsed parsedData =>
      if isObjectNotNull parsedData then ret parsedData
      else throw (Error (lit "Invalid JSON: " ++
                         lit "Parsed data is not an object or is null"))
  | SyntaxError message => throw (Error (lit "Invalid JSON: " ++ message))
  end.

Definition formatCellValue (obj : value) (key : str) : completion str :=
  andThen (getNestedObjectValue obj key) (fun value =>
    let strValue := toString (cellValue value) in
    let finalValue :=
      if includesQuote strValue then replaceQuotes strValue else strValue in
    Normal (DQUOTE :: finalValue ++ [DQUOTE])).

Definition addByteOrderMarkAndTitle : M unit :=
  bom <- optionsField' useByteOrderMark ;;
  (if isSet bom then appendCsv CsvConfigConsts.ByteOrderMark else ret tt) ;;;
  shown <- optionsField' showTitle ;;
  if isSet shown
  then t <- optionsField' title ;; appendCsv (textOf t ++ [13; 10; 10]%N)
  else ret tt.

Definition generateCsvHeader (keys : list str) : M unit :=
  sep <- optionsField fieldSeparator ;;
  appendCsv (joinWith sep keys ++ CsvConfigConsts.END_OF_LINE).

Definition generateCsvRow (obj : value) (keys : list str) : M unit :=
  row <- lift (mapC (formatCellValue obj) keys) ;;
  sep <- optionsField fieldSeparator ;;
  appendCsv (joinWith sep row ++ CsvConfigConsts.END_OF_LINE).

Definition toCsv (dataToTransform : value) (filenameArg : str)
  (config : option Config) : M (option str) :=
  setCsv [] ;;;
  d <- (if typeofObject dataToTransform then ret dataToTransform
        else parseJson dataToTransform) ;;
  setData d ;;;
  if negb (truthy d) then ret None else
  setOptions (spread ConfigDefaults config) ;;;
  overrideFilename filenameArg ;;;
  addByteOrderMarkAndTitle ;;;
  d <- getData ;;
  keys <- lift (extractUniqueKeys d) ;;
  generateCsvHeader keys ;;;
  forOf d (fun obj => generateCsvRow obj keys) ;;;
  c <- getCsv ;;
  match c with
  | [] => throw (Error (lit "Invalid data"))
  | _ :: _ =>
      nd <- optionsField' noDownload ;;
      if isSet nd then ret (Some c)
      else downloadCsvFile ;;; ret None
  end.

End Host.
End V2.

(* ================================================================== *)
(** ** Reading a call *)

(** The three parts of what a method call leaves behind. *)
Definition outcome {A} (r : completion A * service * list event) : completion A :=
  fst (fst r).
Definition after {A} (r : completion A * service * list event) : service :=
  snd (fst r).
Definition trace {A} (r : completion A * service * list event) : list event :=
  snd r.

(** A text between two double quotes. *)
Definition quoted (s : str) : str := DQUOTE :: s ++ [DQUOTE].

(** The options a call works with once the defaults, the configuration and
    the file name argument are merged. *)
Definition mergedOptions (filenameArg : str) (config : option Config) : Config :=
  match filenameArg with
  | [] => spread ConfigDefaults config
  | _ :: _ => withFilename (spread ConfigDefaults config) filenameArg
  end.

(** What precedes the header: the byte-order mark and the title block. *)
Definition prefixText (o : Config) : str :=
  (if isSet (useByteOrderMark o) then CsvConfigConsts.ByteOrderMark else []) ++
  (if isSet (showTitle o) then textOf (title o) ++ [13; 10; 10]%N else []).

(* ------------------------------------------------------------------ *)
(** *** The local functions of [extract], named *)

(** The callback of [forEach] over the elements of an array field. *)
Fixpoint forEachItem (currentKeyPrefix key : str) (its : list value) (index : nat)
  (keys : list str) : list str :=
  match its with
  | [] => keys
  | item :: its' =>
      forEachItem currentKeyPrefix key its' (S index)
        (extract item
           (currentKeyPrefix ++ key ++ lit "[" ++ decimal (N.of_nat index) ++ lit "].")
           keys)
  end.

(** The body of the [for ... in] loop for one property. *)
Definition visitProperty (currentKeyPrefix key : str) (v : value) (keys : list str)
  : list str :=
  match v with
  | VArr items => forEachItem currentKeyPrefix key items 0 keys
  | VObj _ => extract v (currentKeyPrefix ++ key ++ lit ".") keys
  | _ => setAdd (currentKeyPrefix ++ key) keys
  end.

Fixpoint forInProps (currentKeyPrefix : str) (ps : list (str * value))
  (keys : list str) : list str :=
  match ps with
  | [] => keys
  | (key, v) :: ps' =>
      forInProps currentKeyPrefix ps' (visitProperty currentKeyPrefix key v keys)
  end.

Fixpoint forInElems (currentKeyPrefix : str) (es : list value) (index : nat)
  (keys : list str) : list str :=
  match es with
  | [] => keys
  | v :: es' =>
      forInElems currentKeyPrefix es' (S index)
        (visitProperty currentKeyPrefix (decimal (N.of_nat index)) v keys)
  end.

Fixpoint forInChars (currentKeyPrefix : str) (cs : str) (index : nat)
  (keys : list str) : list str :=
  match cs with
  | [] => keys
  | _ :: cs' =>
      forInChars currentKeyPrefix cs' (S index)
        (setAdd (currentKeyPrefix ++ decimal (N.of_nat index)) keys)
  end.

(* ------------------------------------------------------------------ *)
(** *** Discovery order *)

(** The arguments of the successive calls [keys.add(...)] that
    [extract(obj, prefix)] makes, in the order of the calls. *)
Fixpoint discovered (obj : value) (currentKeyPrefix : str) {struct obj} : list str :=
  let visit (key : str) (v : value) : list str :=
    match v with
    | VArr items =>
        (fix forEach (its : list value) (index : nat) {struct its} : list str :=
           match its with
           | [] => []
           | item :: its' =>
               discovered item
                 (currentKeyPrefix ++ key ++ lit "[" ++
                  decimal (N.of_nat index) ++ lit "].")
               ++ forEach its' (S index)
           end) items 0
    | VObj _ => discovered v (currentKeyPrefix ++ key ++ lit ".")
    | _ => [currentKeyPrefix ++ key]
    end in
  match obj with
  | VObj props =>
      (fix forIn (ps : list (str * value)) {struct ps} : list str :=
         match ps with
         | [] => []
         | (key, v) :: ps' => visit key v ++ forIn ps'
         end) props
  | VArr elems =>
      (fix forIn (es : list value) (index : nat) {struct es} : list str :=
         match es with
         | [] => []
         | v :: es' => visit (decimal (N.of_nat index)) v ++ forIn es' (S index)
         end) elems 0
  | VStr s =>
      (fix forIn (cs : str) (index : nat) {struct cs} : list str :=
         match cs with
         | [] => []
         | _ :: cs' =>
             (currentKeyPrefix ++ decimal (N.of_nat index)) :: forIn cs' (S index)
         end) s 0
  | _ => []
  end.

Fixpoint discoveredItems (currentKeyPrefix key : str) (its : list value) (index : nat)
  : list str :=
  match its with
  | [] => []
  | item :: its' =>
      discovered item
        (currentKeyPrefix ++ key ++ lit "[" ++ decimal (N.of_nat index) ++ lit "].")
      ++ discoveredItems currentKeyPrefix key its' (S index)
  end.

Definition discoveredProperty (currentKeyPrefix key : str) (v : value) : list str :=
  match v with
  | VArr items => discoveredItems currentKeyPrefix key items 0
  | VObj _ => discovered v (currentKeyPrefix ++ key ++ lit ".")
  | _ => [currentKeyPrefix ++ key]
  end.

Fixpoint discoveredProps (currentKeyPrefix : str) (ps : list (str * value)) : list str :=
  match ps with
  | [] => []
  | (key, v) :: ps' =>
      discoveredProperty currentKeyPrefix key v ++ discoveredProps currentKeyPrefix ps'
  end.

Fixpoint discoveredElems (currentKeyPrefix : str) (es : list value) (index : nat)
  : list str :=
  match es with
  | [] => []
  | v :: es' =>
      discoveredProperty currentKeyPrefix (decimal (N.of_nat index)) v
      ++ discoveredElems currentKeyPrefix es' (S index)
  end.

Fixpoint discoveredChars (currentKeyPrefix : str) (cs : str) (index : nat) : list str :=
  match cs with
  | [] => []
  | _ :: cs' =>
      (currentKeyPrefix ++ decimal (N.of_nat index))
      :: discoveredChars currentKeyPrefix cs' (S index)
  end.

(** Adding a sequence of keys to a [Set], one after the other. *)
Definition addAll (ks : list str) (keys : list str) : list str :=
  fold_left (fun acc k => setAdd k acc) ks keys.

(** A sequence with its duplicates removed, each element staying where it
    was first seen; [seen] holds what came before. *)
Fixpoint firstSeen (seen : list str) (ks : list str) : list str :=
  match ks with
  | [] => []
  | k :: r => if existsb (str_eqb k) seen then firstSeen seen r
              else k :: firstSeen (k :: seen) r
  end.

(** The whole scan of a collection: record 0, then record 1, ... *)
Definition scan (records : list value) : list str :=
  flat_map (fun item => discovered item []) records.

(* ------------------------------------------------------------------ *)
(** *** Leaf field paths of a record *)

(** A leaf: a primitive or [null], with no further structure. *)
Definition isLeaf (v : value) : bool := negb (isObjectNotNull v).

(** The flattened leaf field paths of a record, as the key path grammar
    describes them: [field] for a leaf, [field.path] through a nested
    record, [field[index].path] through the element [index] of an array. *)
Inductive leafPath : value -> str -> Prop :=
| leaf_field : forall props key v,
    In (key, v) props -> isLeaf v = true ->
    leafPath (VObj props) key
| leaf_nested : forall props key sub p,
    In (key, VObj sub) props -> leafPath (VObj sub) p ->
    leafPath (VObj props) (key ++ lit "." ++ p)
| leaf_indexed : forall props key items index item p,
    In (key, VArr items) props -> nth_error items index = Some item ->
    leafPath item p ->
    leafPath (VObj props) (key ++ lit "[" ++ decimal (N.of_nat index) ++ lit "]." ++ p).

(** A number, a boolean, [null] or [undefined]. *)
Definition isScalar (v : value) : bool :=
  match v with
  | VUndefined | VNull | VBool _ | VNum _ => true
  | _ => false
  end.

(* ------------------------------------------------------------------ *)
(** *** Reading a cell back *)

(** The text of a quoted CSV cell, read after its opening quote: two
    double quotes stand for one, a single one ends the cell and must be its
    last character. *)
Fixpoint readQuoted (s : str) : option str :=
  match s with
  | [] => None
  | c :: r =>
      if N.eqb c DQUOTE then
        match r with
        | [] => Some []
        | d :: r' => if N.eqb d DQUOTE
                     then option_map (cons DQUOTE) (readQuoted r')
                     else None
        end
      else option_map (cons c) (readQuoted r)
  end.

Definition readCell (cell : str) : option str :=
  match cell with
  | c :: r => if N.eqb c DQUOTE then readQuoted r else None
  | [] => None
  end.

(** The text [formatCellValue] puts between the quotes, before escaping. *)
Definition cellText (v : value) : str := toString (cellValue v).

(* ------------------------------------------------------------------ *)
(** *** A host and sample data for the examples *)

(** [JSON.parse] restricted to the atoms [null], [true], [false], the
    empty array, the empty object and unsigned integers; any other text is
    answered with a syntax error. *)
Definition parseAtoms (text : str) : parsed :=
  if str_eqb text (lit "null") then Parsed VNull
  else if str_eqb text (lit "true") then Parsed (VBool true)
  else if str_eqb text (lit "false") then Parsed (VBool false)
  else if str_eqb text (lit "[]") then Parsed (VArr [])
  else if str_eqb text (lit "{}") then Parsed (VObj [])
  else match arrayIndex text with
       | Some n => Parsed (VNum (Z.of_nat n))
       | None => SyntaxError (lit "Unexpected token")
       end.

(** [{ noDownload: true }] *)
Definition noDownloadOnly : Config :=
  {| filename := None; fieldSeparator := None; showTitle := None;
     title := None; useByteOrderMark := None; noDownload := Some true |}.

(** [[{a:1,b:'x'}, {a:2,b:'y'}]] *)
Definition flatRecords : value :=
  VArr [VObj [(lit "a", VNum 1); (lit "b", VStr (lit "x"))];
        VObj [(lit "a", VNum 2); (lit "b", VStr (lit "y"))]].

(** [[{a:1}, {b:2}]] *)
Definition mixedRecords : value :=
  VArr [VObj [(lit "a", VNum 1)]; VObj [(lit "b", VNum 2)]].

(** [[{a:{b:1}}, {c:2}]] *)
Definition mixedNested : value :=
  VArr [VObj [(lit "a", VObj [(lit "b", VNum 1)])]; VObj [(lit "c", VNum 2)]].



(* ------------------------------------------------------------------ *)
(** *** Rows as text *)

(** The joined cells of one record, for a cell formatter [format]. *)
Definition rowLine (format : value -> str -> completion str) (sep : option str)
  (keys : list str) (obj : value) : completion str :=
  andThen (mapC (format obj) keys) (fun row => Normal (joinWith sep row)).

(** The joined rows of all records, in input order. *)
Definition rowLines (format : value -> str -> completion str) (sep : option str)
  (keys : list str) (records : list value) : completion (list str) :=
  mapC (rowLine format sep keys) records.

(** Every line followed by the end-of-line mark. *)
Definition terminated (lines : list str) : str :=
  flat_map (fun line => line ++ CsvConfigConsts.END_OF_LINE) lines.

(** The name given to the downloaded file. *)
Definition downloadName (o : Config) : str :=
  match filename o with
  | Some n => replaceSpaces n
  | None => lit "undefined"
  end ++ lit ".csv".

Definition mimeType : str := lit "text/csv;charset=utf8;".

(* ------------------------------------------------------------------ *)
(** *** The document a call delivers *)

(** The blob of the download a trace records, if any. *)
Fixpoint downloaded (t : list event) : option str :=
  match t with
  | [] => None
  | Download _ _ blob :: _ => Some blob
  | ConsoleLog _ :: r => downloaded r
  end.

(** The document a call hands over: the text it returns, or else the blob
    it downloads; none when it throws or returns nothing without a
    download. *)
Definition delivered (r : completion (option str) * service * list event) : option str :=
  match outcome r with
  | Normal (Some doc) => Some doc
  | Normal None => downloaded (trace r)
  | Throw _ => None
  end.

(** The document of the flat-records scenario with every header cell
    quoted. *)
Definition quotedHeaderDocument : str :=
  CsvConfigConsts.ByteOrderMark
  ++ quoted (lit "a") ++ lit "," ++ quoted (lit "b") ++ CsvConfigConsts.END_OF_LINE
  ++ quoted (lit "1") ++ lit "," ++ quoted (lit "x") ++ CsvConfigConsts.END_OF_LINE
  ++ quoted (lit "2") ++ lit "," ++ quoted (lit "y") ++ CsvConfigConsts.END_OF_LINE.

(** The same document with the header cells as they are. *)
Definition rawHeaderDocument : str :=
  CsvConfigConsts.ByteOrderMark
  ++ lit "a,b" ++ CsvConfigConsts.END_OF_LINE
  ++ quoted (lit "1") ++ lit "," ++ quoted (lit "x") ++ CsvConfigConsts.END_OF_LINE
  ++ quoted (lit "2") ++ lit "," ++ quoted (lit "y") ++ CsvConfigConsts.END_OF_LINE.

(** ... and without the end-of-line mark after the last row. *)
Definition rawHeaderDocumentOpenEnded : str :=
  CsvConfigConsts.ByteOrderMark
  ++ lit "a,b" ++ CsvConfigConsts.END_OF_LINE
  ++ quoted (lit "1") ++ lit "," ++ quoted (lit "x") ++ CsvConfigConsts.END_OF_LINE
  ++ quoted (lit "2") ++ lit "," ++ quoted (lit "y").

(** [{ q: Qhi Q }] where [Q] is the double-quote character: a text that
    already looks quoted. *)
Definition quotedLooking : value := VObj [(lit "q", VStr (quoted (lit "hi")))].

(** [{name:'jo', addr:{city:'LA'}}] *)
Definition nestedRecord : value :=
  VObj [(lit "name", VStr (lit "jo")); (lit "addr", VObj [(lit "city", VStr (lit "LA"))])].

(** [{user:{todos:[{id:1},{id:2}]}}] *)
Definition todoRecord : value :=
  VObj [(lit "user",
         VObj [(lit "todos",
                VArr [VObj [(lit "id", VNum 1)]; VObj [(lit "id", VNum 2)]])])].


(** The document of [mixedRecords] in the second listing. *)
Definition mixedDocument : str :=
  CsvConfigConsts.ByteOrderMark
  ++ lit "a,b" ++ CsvConfigConsts.END_OF_LINE
  ++ quoted (lit "1") ++ lit "," ++ quoted (lit "undefined") ++ CsvConfigConsts.END_OF_LINE
  ++ quoted (lit "undefined") ++ lit "," ++ quoted (lit "2") ++ CsvConfigConsts.END_OF_LINE.



(** [{ filename: 'report' }] *)
Definition namedConfig : Config :=
  {| filename := Some (lit "report"); fieldSeparator := None; showTitle := None;
     title := None; useByteOrderMark := None; noDownload := None |}.

(* ------------------------------------------------------------------ *)
(** *** Induction on values

    The induction principle that reaches the elements of arrays and the
    values of properties. *)

Section ValueInduction.
Variable P : value -> Prop.
Hypothesis Hundefined : P VUndefined.
Hypothesis Hnull : P VNull.
Hypothesis Hbool : forall b, P (VBool b).
Hypothesis Hnum : forall z, P (VNum z).
Hypothesis Hstr : forall s, P (VStr s).
Hypothesis Harr : forall items, Forall P items -> P (VArr items).
Hypothesis Hobj : forall props, Forall (fun p => P (snd p)) props -> P (VObj props).

Fixpoint value_nested_ind (v : value) : P v :=
  match v with
  | VUndefined => Hundefined
  | VNull => Hnull
  | VBool b => Hbool b
  | VNum z => Hnum z
  | VStr s => Hstr s
  | VArr items =>
      Harr ((fix all (l : list value) : Forall P l :=
               match l with
               | [] => Forall_nil P
               | x :: r => Forall_cons x (value_nested_ind x) (all r)
               end) items)
  | VObj props =>
      Hobj ((fix all (l : list (str * value)) : Forall (fun p => P (snd p)) l :=
               match l with
               | [] => Forall_nil _
               | x :: r => Forall_cons x (value_nested_ind (snd x)) (all r)
               end) props)
  end.
End ValueInduction.

(* ------------------------------------------------------------------ *)
(** *** The data a call works on *)

(** The first statement of [toCsv] after the reset: an object, an array or
    [null] is taken as it is, anything else is parsed as JSON text and must
    give an object or an array.  [None] when that fails. *)
Definition normalize (JSON_parse : str -> parsed) (dataToTransform : value)
  : option value :=
  if typeofObject dataToTransform then Some dataToTransform
  else match JSON_parse (toString dataToTransform) with
       | Parsed v => if isObjectNotNull v then Some v else None
       | SyntaxError _ => None
       end.

(* ------------------------------------------------------------------ *)
(** *** Reading a line of the document *)

(** Where the reader of a line stands: at the start of a cell, inside a
    cell that did not open with a double quote, or inside a quoted cell. *)
Inductive cellMode : Type := AtCellStart | InRawCell | InQuotedCell.

(** Carriage return or line feed. *)
Definition isLineBreak (c : codeunit) : bool := N.eqb c 13 || N.eqb c 10.

(** The cells of one line, for a separator of one character.  A cell that
    opens with a double quote runs to its closing quote, two double quotes
    inside it standing for one, and the closing quote is followed by the
    separator or by the end of the line.  Any other cell runs to the next
    separator or to the end of the line, and holds no double quote and no
    line break.  [cell] is the text of the open cell so far. *)
Fixpoint scanLine (sep : codeunit) (m : cellMode) (cell : str) (s : str)
  : option (list str) :=
  match s with
  | [] =>
      match m with
      | AtCellStart => Some [[]]
      | InRawCell => Some [cell]
      | InQuotedCell => None
      end
  | c :: r =>
      match m with
      | AtCellStart =>
          if N.eqb c DQUOTE then scanLine sep InQuotedCell [] r
          else if N.eqb c sep
               then option_map (cons []) (scanLine sep AtCellStart [] r)
               else if isLineBreak c then None
                    else scanLine sep InRawCell [c] r
      | InRawCell =>
          if N.eqb c sep then option_map (cons cell) (scanLine sep AtCellStart [] r)
          else if N.eqb c DQUOTE || isLineBreak c then None
               else scanLine sep InRawCell (cell ++ [c]) r
      | InQuotedCell =>
          if N.eqb c DQUOTE then
            match r with
            | [] => Some [cell]
            | d :: r' =>
                if N.eqb d DQUOTE then scanLine sep InQuotedCell (cell ++ [DQUOTE]) r'
                else if N.eqb d sep
                     then option_map (cons cell) (scanLine sep AtCellStart [] r')
                     else None
            end
          else scanLine sep InQuotedCell (cell ++ [c]) r
      end
  end.

(** An empty line has no cell. *)
Definition readLine (sep : codeunit) (line : str) : option (list str) :=
  match line with
  | [] => Some []
  | _ :: _ => scanLine sep AtCellStart [] line
  end.

(** A text that reads back as itself when it is written as a cell without
    quotes: it is not empty and holds no separator, no double quote and no
    line break. *)
Definition isRawCell (sep : codeunit) (t : str) : bool :=
  match t with
  | [] => false
  | _ :: _ =>
      forallb (fun c => negb (N.eqb c sep || N.eqb c DQUOTE || isLineBreak c)) t
  end.

(** [[{ 'Last, First': 'Doe, Jane', age: 25 }]] *)
Definition commaNameRecords : value :=
  VArr [VObj [(lit "Last, First", VStr (lit "Doe, Jane")); (lit "age", VNum 25)]].

(* ------------------------------------------------------------------ *)
(** *** The key paths of a value *)

(** The elements of an array under their indices, counted from [start]. *)
Fixpoint indexedFrom (start : nat) (elems : list value) : list (str * value) :=
  match elems with
  | [] => []
  | x :: r => (decimal (N.of_nat start), x) :: indexedFrom (S start) r
  end.

(** What [for (const key in obj)] visits, with [obj[key]]: the fields of a
    record, the elements of an array under their indices, the characters of
    a string under their positions; nothing for any other value. *)
Definition fieldsOf (v : value) : list (str * value) :=
  match v with
  | VObj props => props
  | VArr elems => indexedFrom 0 elems
  | VStr s => indexedFrom 0 (map (fun c => VStr [c]) s)
  | _ => []
  end.

(** The paths that lead to a leaf through what the loop visits: [field] for
    a leaf, [field.path] through a nested record, [field[index].path]
    through the element [index] of an array, where that element is itself
    scanned as a record, an array or a string.  A number, a boolean or
    [null] that is an element of an array has no such path. *)
Inductive keyPath : value -> str -> Prop :=
| keyPath_field : forall r key v,
    In (key, v) (fieldsOf r) -> isLeaf v = true ->
    keyPath r key
| keyPath_nested : forall r key sub p,
    In (key, VObj sub) (fieldsOf r) -> keyPath (VObj sub) p ->
    keyPath r (key ++ lit "." ++ p)
| keyPath_indexed : forall r key items index item p,
    In (key, VArr items) (fieldsOf r) -> nth_error items index = Some item ->
    keyPath item p ->
    keyPath r (key ++ lit "[" ++ decimal (N.of_nat index) ++ lit "]." ++ p).

(** The flattened leaf field paths of a record as section 4.1 of the
    specification words them: those of [leafPath], and for an array of
    primitives one path [field[index]] per element. *)
Inductive specLeafPath : value -> str -> Prop :=
| spec_field : forall props key v,
    In (key, v) props -> isLeaf v = true ->
    specLeafPath (VObj props) key
| spec_nested : forall props key sub p,
    In (key, VObj sub) props -> specLeafPath (VObj sub) p ->
    specLeafPath (VObj props) (key ++ lit "." ++ p)
| spec_indexed : forall props key items index item p,
    In (key, VArr items) props -> nth_error items index = Some item ->
    specLeafPath item p ->
    specLeafPath (VObj props)
      (key ++ lit "[" ++ decimal (N.of_nat index) ++ lit "]." ++ p)
| spec_element : forall props key items index v,
    In (key, VArr items) props -> nth_error items index = Some v ->
    isLeaf v = true ->
    specLeafPath (VObj props)
      (key ++ lit "[" ++ decimal (N.of_nat index) ++ lit "]").

(** [{ id: 1, tags: [1, 2] }] *)
Definition idTagsRecord : value :=
  VObj [(lit "id", VNum 1); (lit "tags", VArr [VNum 1; VNum 2])].

(* ================================================================== *)
(** ** More of the service *)

(** [getNestedValues] of the first listing (lines 77-79): the value of one
    key path in every record, by [data.map]; a value that is no array has no
    [map] to call. *)
Definition getNestedValues (data : value) (key : str) : completion (list value) :=
  match data with
  | VArr items => mapC (fun obj => getNestedObjectValue obj key) items
  | _ => Throw TypeError
  end.

(* ------------------------------------------------------------------ *)
(** *** Segments of a key path *)

(** No dot in the text. *)
Definition noDot (s : str) : bool := forallb (fun c => negb (N.eqb c DOT)) s.

(** A field name that the resolver reads back as one plain segment: it
    holds no dot and the bracket pattern finds nothing in it. *)
Definition isPlain (key : str) : bool :=
  noDot key && match matchIndexed key with None => true | Some _ => false end.

(** A field name made of word characters only. *)
Definition isWordName (key : str) : bool := forallb isWord key.

(** The names of the members that every object inherits from
    [Object.prototype]. *)
Definition objectPrototypeNames : list str :=
  [lit "constructor"; lit "hasOwnProperty"; lit "isPrototypeOf";
   lit "propertyIsEnumerable"; lit "toLocaleString"; lit "toString";
   lit "valueOf"; lit "__proto__"; lit "__defineGetter__";
   lit "__defineSetter__"; lit "__lookupGetter__"; lit "__lookupSetter__"].

(** [key] names a member that a record has without holding it as a field
    of its own. *)
Definition isInherited (key : str) : bool :=
  existsb (str_eqb key) objectPrototypeNames.

(** [undefined] or [null]: a value no property can be read of. *)
Definition isNullish (v : value) : bool :=
  match v with VUndefined | VNull => true | _ => false end.

(** The object holds [v] under [key]: the loop over its properties visits
    the pair, and [obj[key]] reads [v]. *)
Definition holds (props : list (str * value)) (key : str) (v : value) : Prop :=
  In (key, v) props /\ ownProperty key props = v.


(** A record all of whose fields are leaves under plain names. *)
Definition isFlatRecord (r : value) : bool :=
  match r with
  | VObj props => forallb (fun p => isPlain (fst p) && isLeaf (snd p)) props
  | _ => false
  end.

(* ------------------------------------------------------------------ *)
(** *** Reading a row back *)

(** The texts of the cells of one row, for a separator of one character:
    every cell is quoted, two double quotes inside a cell stand for one, and
    a closing quote is followed by the separator or by the end of the row.
    [inside] tells whether a cell is open, [cell] is its text so far. *)
Fixpoint scanRow (sep : codeunit) (inside : bool) (cell : str) (s : str)
  : option (list str) :=
  match s with
  | [] => None
  | c :: r =>
      if inside then
        if N.eqb c DQUOTE then
          match r with
          | [] => Some [cell]
          | d :: r' =>
              if N.eqb d DQUOTE then scanRow sep true (cell ++ [DQUOTE]) r'
              else if N.eqb d sep then option_map (cons cell) (scanRow sep false [] r')
              else None
          end
        else scanRow sep true (cell ++ [c]) r
      else
        if N.eqb c DQUOTE then scanRow sep true [] r else None
  end.

(** An empty row has no cell. *)
Definition readRow (sep : codeunit) (line : str) : option (list str) :=
  match line with
  | [] => Some []
  | _ :: _ => scanRow sep false [] line
  end.

(* ------------------------------------------------------------------ *)
(** *** More sample data *)

(** [{ useByteOrderMark: false }] *)
Definition noMarkConfig : Config :=
  {| filename := None; fieldSeparator := None; showTitle := None;
     title := None; useByteOrderMark := Some false; noDownload := None |}.

(** [{ note: 'a;b', said: Qhi Q }] with [Q] the double-quote character *)
Definition trickyRecord : value :=
  VObj [(lit "note", VStr (lit "a;b")); (lit "said", VStr (quoted (lit "hi")))].

(** [{ tags: ['ab'] }] *)
Definition stringTags : value := VObj [(lit "tags", VArr [VStr (lit "ab")])].

(** [{ showTitle: true, title: 'Report', noDownload: true }] *)
Definition titledConfig : Config :=
  {| filename := None; fieldSeparator := None; showTitle := Some true;
     title := Some (lit "Report"); useByteOrderMark := None; noDownload := Some true |}.

(* ------------------------------------------------------------------ *)
(** *** A configuration without mark and title *)

(** [{ ...c, useByteOrderMark: false, showTitle: false }] *)
Definition untitled (c : Config) : Config :=
  {| filename := filename c;
     fieldSeparator := fieldSeparator c;
     showTitle := Some false;
     title := title c;
     useByteOrderMark := Some false;
     noDownload := noDownload c |}.

(* ================================================================== *)
(** * Properties *)

(** ** Strings and sets of keys *)

Lemma str_eqb_eq (a b : str) : str_eqb a b = true <-> a = b.
Proof.
  revert b; induction a as [|x a IH]; intros [|y b]; simpl; split;
    try congruence; try reflexivity.
  - intros H. apply andb_true_iff in H as [Hx Hr].
    apply N.eqb_eq in Hx. apply IH in Hr. congruence.
  - intros H. injection H as -> ->. rewrite N.eqb_refl. simpl. now apply IH.
Qed.

Lemma str_eqb_refl (a : str) : str_eqb a a = true.
Proof. now apply str_eqb_eq. Qed.

Lemma mem_In (k : str) (keys : list str) :
  existsb (str_eqb k) keys = true <-> In k keys.
Proof.
  rewrite existsb_exists. split.
  - intros [x [Hin Heq]]. apply str_eqb_eq in Heq. now subst.
  - intros Hin. exists k. split; [assumption | apply str_eqb_refl].
Qed.

Lemma mem_false (k : str) (keys : list str) :
  existsb (str_eqb k) keys = false <-> ~ In k keys.
Proof.
  rewrite <- mem_In. destruct (existsb (str_eqb k) keys); split; congruence.
Qed.

Lemma setAdd_In (k x : str) (keys : list str) :
  In x (setAdd k keys) <-> x = k \/ In x keys.
Proof.
  unfold setAdd. destruct (existsb (str_eqb k) keys) eqn:E.
  - apply mem_In in E. split; [now right | intros [-> | H]; assumption].
  - rewrite in_app_iff. simpl. intuition congruence.
Qed.

Lemma setAdd_NoDup (k : str) (keys : list str) :
  NoDup keys -> NoDup (setAdd k keys).
Proof.
  intros H. unfold setAdd. destruct (existsb (str_eqb k) keys) eqn:E; [assumption|].
  apply mem_false in E. apply NoDup_app; [assumption | repeat constructor; simpl; tauto |].
  intros a Ha [<- | []]. contradiction.
Qed.

Lemma addAll_app (a b keys : list str) :
  addAll (a ++ b) keys = addAll b (addAll a keys).
Proof. unfold addAll. apply fold_left_app. Qed.

Lemma firstSeen_ext (s1 s2 ks : list str) :
  (forall x, In x s1 <-> In x s2) -> firstSeen s1 ks = firstSeen s2 ks.
Proof.
  revert s1 s2. induction ks as [|k r IH]; intros s1 s2 H; simpl; [reflexivity|].
  destruct (existsb (str_eqb k) s1) eqn:E1, (existsb (str_eqb k) s2) eqn:E2.
  - now apply IH.
  - apply mem_In in E1. apply mem_false in E2. apply H in E1. contradiction.
  - apply mem_In in E2. apply mem_false in E1. apply H in E2. contradiction.
  - f_equal. apply IH. intros x. simpl. rewrite H. reflexivity.
Qed.

(** Adding keys one by one appends, in order, those not seen before. *)
Lemma addAll_firstSeen (ks keys : list str) :
  addAll ks keys = keys ++ firstSeen keys ks.
Proof.
  revert keys. induction ks as [|k r IH]; intros keys; simpl.
  - now rewrite app_nil_r.
  - change (addAll (k :: r) keys) with (addAll r (setAdd k keys)).
    rewrite IH. unfold setAdd. destruct (existsb (str_eqb k) keys) eqn:E.
    + reflexivity.
    + rewrite <- app_assoc. simpl. do 2 f_equal.
      apply firstSeen_ext. intros x. rewrite in_app_iff. simpl. tauto.
Qed.

Lemma firstSeen_In (seen ks : list str) (k : str) :
  In k (firstSeen seen ks) <-> In k ks /\ ~ In k seen.
Proof.
  revert seen. induction ks as [|x r IH]; intros seen; simpl; [tauto|].
  destruct (existsb (str_eqb x) seen) eqn:E.
  - apply mem_In in E. rewrite IH. split.
    + intros [H1 H2]. tauto.
    + intros [[-> | H1] H2]; [contradiction | tauto].
  - apply mem_false in E. simpl. rewrite IH. simpl. split.
    + intros [-> | [H1 H2]]; [tauto|]. split; [tauto|]. intros H. apply H2. now right.
    + intros [[-> | H1] H2]; [now left|].
      destruct (list_eq_dec N.eq_dec x k) as [-> | Hne]; [now left|].
      right. split; [assumption|]. intros [H | H]; [congruence | contradiction].
Qed.

Lemma firstSeen_NoDup (seen ks : list str) : NoDup (firstSeen seen ks).
Proof.
  revert seen. induction ks as [|x r IH]; intros seen; simpl; [constructor|].
  destruct (existsb (str_eqb x) seen); [apply IH|].
  constructor; [|apply IH]. rewrite firstSeen_In. simpl. tauto.
Qed.



(** ** The schema discoverer *)


(** ** The schema discoverer *)

(** Loops that count from 0 are reasoned about from any start index. *)
Ltac from_any_index :=
  match goal with
  | |- ?f ?l 0 ?k = ?g ?l 0 ?k =>
      let H := fresh in
      cut (forall n ks, f l n ks = g l n ks); [intros H; apply H | clear k]
  | |- ?f ?l 0 = ?g ?l 0 =>
      let H := fresh in
      cut (forall n, f l n = g l n); [intros H; apply H | ]
  end.

(** The local loops of [extract] are the named ones. *)
Lemma extract_forEach pfx key items keys :
  visitProperty pfx key (VArr items) keys
  = extract (VObj [(key, VArr items)]) pfx keys.
Proof.
  simpl. from_any_index.
  induction items as [|it its IH]; intros n ks; [reflexivity|].
  simpl. now rewrite IH.
Qed.

Lemma extract_obj_cons key v ps pfx keys :
  extract (VObj ((key, v) :: ps)) pfx keys
  = extract (VObj ps) pfx (visitProperty pfx key v keys).
Proof.
  destruct v as [| | ? | ? | ? | items | ?]; try reflexivity.
  rewrite extract_forEach. reflexivity.
Qed.

Lemma extract_obj (props : list (str * value)) (pfx : str) (keys : list str) :
  extract (VObj props) pfx keys = forInProps pfx props keys.
Proof.
  revert keys. induction props as [|[key v] ps IH]; intros keys; [reflexivity|].
  rewrite extract_obj_cons. apply IH.
Qed.

Lemma extract_arr (elems : list value) (pfx : str) (keys : list str) :
  extract (VArr elems) pfx keys = forInElems pfx elems 0 keys.
Proof.
  simpl. from_any_index.
  induction elems as [|v es IH]; intros n ks; [reflexivity|].
  simpl forInElems. rewrite <- IH. f_equal.
  destruct v as [| | ? | ? | ? | items | ?]; try reflexivity.
  rewrite extract_forEach. reflexivity.
Qed.

Lemma extract_str (s : str) (pfx : str) (keys : list str) :
  extract (VStr s) pfx keys = forInChars pfx s 0 keys.
Proof.
  simpl. from_any_index.
  induction s as [|c cs IH]; intros n ks; [reflexivity|].
  simpl forInChars. now rewrite <- IH.
Qed.

Lemma discovered_obj_cons key v ps pfx :
  discovered (VObj ((key, v) :: ps)) pfx
  = discoveredProperty pfx key v ++ discovered (VObj ps) pfx.
Proof.
  destruct v as [| | ? | ? | ? | items | ?]; try reflexivity.
  simpl. f_equal. from_any_index.
  induction items as [|it its IH]; intros n; [reflexivity|].
  simpl. now rewrite IH.
Qed.

Lemma discovered_obj (props : list (str * value)) (pfx : str) :
  discovered (VObj props) pfx = discoveredProps pfx props.
Proof.
  induction props as [|[key v] ps IH]; [reflexivity|].
  rewrite discovered_obj_cons, IH. reflexivity.
Qed.

Lemma discovered_arr (elems : list value) (pfx : str) :
  discovered (VArr elems) pfx = discoveredElems pfx elems 0.
Proof.
  simpl. from_any_index.
  induction elems as [|v es IH]; intros n; [reflexivity|].
  simpl discoveredElems. rewrite <- IH. f_equal.
  destruct v as [| | ? | ? | ? | items | ?]; try reflexivity.
  simpl. from_any_index.
  induction items as [|it its IHi]; intros m; [reflexivity|].
  simpl. now rewrite IHi.
Qed.

Lemma discovered_str (s : str) (pfx : str) :
  discovered (VStr s) pfx = discoveredChars pfx s 0.
Proof.
  simpl. from_any_index.
  induction s as [|c cs IH]; intros n; [reflexivity|].
  simpl discoveredChars. now rewrite <- IH.
Qed.

(** [extract] adds to the set exactly the keys of the discovery sequence,
    in that order. *)
Lemma extract_discovered (obj : value) :
  forall pfx keys, extract obj pfx keys = addAll (discovered obj pfx) keys.
Proof.
  enough (H : (forall pfx keys, extract obj pfx keys = addAll (discovered obj pfx) keys)
              /\ match obj with
                 | VArr items =>
                     Forall (fun x => forall pfx keys,
                               extract x pfx keys = addAll (discovered x pfx) keys) items
                 | _ => True
                 end) by apply H.
  assert (Hitems : forall pfx key items,
             Forall (fun x => forall pfx keys,
                       extract x pfx keys = addAll (discovered x pfx) keys) items ->
             forall n keys, forEachItem pfx key items n keys
                            = addAll (discoveredItems pfx key items n) keys).
  { intros pfx key items Hall. induction Hall as [|it its Hit _ IHits];
      intros n keys; [reflexivity|].
    simpl. rewrite addAll_app, Hit. apply IHits. }
  induction obj as [| | b | z | s | items IH | props IH] using value_nested_ind;
    try (split; [reflexivity | exact I]).
  - split; [|exact I]. intros pfx keys. rewrite extract_str, discovered_str.
    generalize 0. revert keys. induction s as [|c cs IHs]; intros keys n; [reflexivity|].
    simpl. rewrite IHs. reflexivity.
  - assert (Hshallow : Forall (fun x => forall pfx keys,
                         extract x pfx keys = addAll (discovered x pfx) keys) items).
    { eapply Forall_impl; [|exact IH]. intros a Ha. apply Ha. }
    split; [|exact Hshallow].
    intros pfx keys. rewrite extract_arr, discovered_arr.
    generalize 0. revert keys. clear Hshallow.
    induction IH as [|v es [Hv Hdeep] _ IHes]; intros keys n; [reflexivity|].
    simpl. rewrite addAll_app, IHes. f_equal.
    destruct v as [| | ? | ? | ? | its | ?]; try reflexivity.
    + apply Hitems, Hdeep.
    + apply Hv.
  - split; [|exact I].
    intros pfx keys. rewrite extract_obj, discovered_obj. revert keys.
    induction IH as [|[key v] ps [Hv Hdeep] _ IHps]; intros keys; [reflexivity|].
    simpl. rewrite addAll_app, IHps. f_equal.
    simpl in Hv, Hdeep. destruct v as [| | ? | ? | ? | its | ?]; try reflexivity.
    + apply Hitems, Hdeep.
    + apply Hv.
Qed.

(** The key path set of a collection is its scan with duplicates removed,
    in first-seen order. *)
Lemma extractUniqueKeys_scan (records : list value) :
  extractUniqueKeys (VArr records) = Normal (firstSeen [] (scan records)).
Proof.
  unfold extractUniqueKeys, extractUniqueKeysFrom. f_equal.
  change (firstSeen [] (scan records)) with ([] ++ firstSeen [] (scan records)).
  rewrite <- addAll_firstSeen. generalize (@nil str).
  induction records as [|r rs IH]; intros keys; [reflexivity|].
  simpl. rewrite IH. unfold scan. simpl. rewrite addAll_app.
  now rewrite extract_discovered.
Qed.

(** ** Running the methods *)

Lemma bind_silent {A B} (m : M A) (k : A -> M B) this a this' :
  m this = (Normal a, this', []) -> bind m k this = k a this'.
Proof.
  intros H. unfold bind. rewrite H. destruct (k a this') as [[r s] t]. reflexivity.
Qed.

Lemma bind_throw {A B} (m : M A) (k : A -> M B) this e this' t :
  m this = (Throw e, this', t) -> bind m k this = (Throw e, this', t).
Proof. intros H. unfold bind. now rewrite H. Qed.

Lemma appendCsv_run d o c text :
  appendCsv text {| data := d; options := o; csv := c |}
  = (Normal tt, {| data := d; options := o; csv := c ++ text |}, []).
Proof. reflexivity. Qed.

Lemma optionsField_run {A} (f : Config -> option A) d o c :
  optionsField f {| data := d; options := Some o; csv := c |}
  = (Normal (f o), {| data := d; options := Some o; csv := c |}, []).
Proof. reflexivity. Qed.

Lemma optionsField'_run {A} (f : Config -> option A) d o c :
  optionsField' f {| data := d; options := Some o; csv := c |}
  = (Normal (f o), {| data := d; options := Some o; csv := c |}, []).
Proof. reflexivity. Qed.

Lemma overrideFilename_run d cfg c fn :
  overrideFilename fn {| data := d; options := Some (spread ConfigDefaults cfg); csv := c |}
  = (Normal tt, {| data := d; options := Some (mergedOptions fn cfg); csv := c |}, []).
Proof. destruct fn; reflexivity. Qed.

Lemma downloadCsvFile_run d o c :
  downloadCsvFile {| data := d; options := Some o; csv := c |}
  = (Normal tt, {| data := d; options := Some o; csv := c |},
     [Download (downloadName o) mimeType c]).
Proof. reflexivity. Qed.

Lemma addByteOrderMarkAndTitle_run d o c :
  V2.addByteOrderMarkAndTitle {| data := d; options := Some o; csv := c |}
  = (Normal tt, {| data := d; options := Some o; csv := c ++ prefixText o |}, []).
Proof.
  unfold V2.addByteOrderMarkAndTitle, prefixText.
  destruct (isSet (useByteOrderMark o)) eqn:Eb, (isSet (showTitle o)) eqn:Et;
    cbn; rewrite ?Eb, ?Et; cbn; rewrite ?Et; cbn;
    rewrite ?app_nil_r, <- ?app_assoc; reflexivity.
Qed.

Lemma generateCsvHeader_run d o c keys :
  V2.generateCsvHeader keys {| data := d; options := Some o; csv := c |}
  = (Normal tt,
     {| data := d; options := Some o;
        csv := c ++ joinWith (fieldSeparator o) keys ++ CsvConfigConsts.END_OF_LINE |}, []).
Proof. reflexivity. Qed.

Lemma generateCsvRow_run d o c keys obj :
  V2.generateCsvRow obj keys {| data := d; options := Some o; csv := c |}
  = match rowLine V2.formatCellValue (fieldSeparator o) keys obj with
    | Normal line =>
        (Normal tt,
         {| data := d; options := Some o;
            csv := c ++ line ++ CsvConfigConsts.END_OF_LINE |}, [])
    | Throw e => (Throw e, {| data := d; options := Some o; csv := c |}, [])
    end.
Proof.
  unfold V2.generateCsvRow, rowLine.
  destruct (mapC (V2.formatCellValue obj) keys) as [row|e]; reflexivity.
Qed.

(** The loop over the records appends the finished rows; a row that throws
    ends the loop. *)
Lemma rows_run d o keys records : forall c,
  match rowLines V2.formatCellValue (fieldSeparator o) keys records with
  | Normal lines =>
      forEachM (fun obj => V2.generateCsvRow obj keys) records
        {| data := d; options := Some o; csv := c |}
      = (Normal tt, {| data := d; options := Some o; csv := c ++ terminated lines |}, [])
  | Throw e =>
      exists c',
      forEachM (fun obj => V2.generateCsvRow obj keys) records
        {| data := d; options := Some o; csv := c |}
      = (Throw e, {| data := d; options := Some o; csv := c' |}, [])
  end.
Proof.
  unfold rowLines.
  induction records as [|obj rs IH]; intros c.
  - simpl. now rewrite app_nil_r.
  - cbn [mapC forEachM].
    pose proof (generateCsvRow_run d o c keys obj) as Hrow.
    destruct (rowLine V2.formatCellValue (fieldSeparator o) keys obj) as [line|e];
      cbn [andThen].
    + specialize (IH (c ++ line ++ CsvConfigConsts.END_OF_LINE)).
      rewrite (bind_silent _ _ _ Hrow).
      destruct (mapC (rowLine V2.formatCellValue (fieldSeparator o) keys) rs)
        as [lines|e]; cbn [andThen].
      * rewrite IH. unfold terminated. simpl. now rewrite <- !app_assoc.
      * exact IH.
    + exists c. now apply bind_throw.
Qed.

(** A call of the second listing on an array of records, in full. *)
Lemma V2_toCsv_records P this records fn cfg :
  let o := mergedOptions fn cfg in
  let keys := firstSeen [] (scan records) in
  let st c := {| data := VArr records; options := Some o; csv := c |} in
  match rowLines V2.formatCellValue (fieldSeparator o) keys records with
  | Normal lines =>
      let doc := prefixText o ++ joinWith (fieldSeparator o) keys ++ CsvConfigConsts.END_OF_LINE
                 ++ terminated lines in
      V2.toCsv P (VArr records) fn cfg this =
        if isSet (noDownload o) then (Normal (Some doc), st doc, [])
        else (Normal None, st doc, [Download (downloadName o) mimeType doc])
  | Throw e => exists c', V2.toCsv P (VArr records) fn cfg this = (Throw e, st c', [])
  end.
Proof.
  intros o keys st.
  pose proof (rows_run (VArr records) o keys records
                (prefixText o ++ joinWith (fieldSeparator o) keys ++ CsvConfigConsts.END_OF_LINE)) as Hrows.
  unfold V2.toCsv.
  rewrite (bind_silent _ _ _ eq_refl).
  cbn [typeofObject].
  rewrite (bind_silent _ _ _ eq_refl).
  rewrite (bind_silent _ _ _ eq_refl).
  cbn [truthy negb].
  rewrite (bind_silent _ _ _ eq_refl).
  cbn [data options csv].
  rewrite (bind_silent _ _ _ (overrideFilename_run _ _ _ _)).
  rewrite (bind_silent _ _ _ (addByteOrderMarkAndTitle_run _ _ _)).
  rewrite (bind_silent _ _ _ eq_refl).
  cbn [data options csv app].
  unfold lift. rewrite extractUniqueKeys_scan.
  rewrite (bind_silent _ _ _ eq_refl).
  rewrite (bind_silent _ _ _ (generateCsvHeader_run _ _ _ _)).
  fold o keys. cbn [forOf].
  destruct (rowLines V2.formatCellValue (fieldSeparator o) keys records) as [lines|e].
  - rewrite (bind_silent _ _ _ Hrows).
    rewrite (bind_silent _ _ _ eq_refl). cbn [csv].
    rewrite <- !app_assoc.
    set (doc := prefixText o ++ joinWith (fieldSeparator o) keys ++ CsvConfigConsts.END_OF_LINE ++ terminated lines).
    assert (Hdoc : doc <> []).
    { unfold doc. intros H. apply app_eq_nil in H as [_ H].
      apply app_eq_nil in H as [_ H]. discriminate H. }
    destruct doc as [|c0 doc']; [congruence|]. cbv beta iota.
    rewrite (bind_silent _ _ _ (optionsField'_run _ _ _ _)).
    destruct (isSet (noDownload o)); [reflexivity|].
    unfold bind. rewrite downloadCsvFile_run. reflexivity.
  - destruct Hrows as [c' Hrows]. exists c'. now apply bind_throw.
Qed.

Lemma pushRows_run d o c keys records :
  V1.pushRows (VArr records) keys {| data := d; options := Some o; csv := c |}
  = (rowLines V1.formatCellValue (fieldSeparator o) keys records,
     {| data := d; options := Some o; csv := c |}, []).
Proof.
  unfold V1.pushRows, rowLines.
  induction records as [|obj rs IH]; [reflexivity|].
  cbn [mapM mapC]. unfold bind at 1. unfold rowLine at 1.
  unfold bind at 1. unfold lift at 1.
  destruct (mapC (V1.formatCellValue obj) keys) as [row|e]; [|reflexivity].
  cbn. unfold bind at 1. rewrite IH.
  destruct (mapC (rowLine V1.formatCellValue (fieldSeparator o) keys) rs); reflexivity.
Qed.


Lemma V1_prefix_run {B} (k : M B) d o :
  ((if isSet (useByteOrderMark o) then appendCsv CsvConfigConsts.ByteOrderMark else ret tt) ;;;
   shown <- optionsField' showTitle ;;
   (if isSet shown
    then t <- optionsField' title ;; appendCsv (textOf t ++ [13; 10; 10]%N)
    else ret tt) ;;;
   k) {| data := d; options := Some o; csv := [] |}
  = k {| data := d; options := Some o; csv := prefixText o |}.
Proof.
  unfold prefixText, CsvConfigConsts.ByteOrderMark.
  destruct (isSet (useByteOrderMark o)) eqn:Eb, (isSet (showTitle o)) eqn:Et;
    cbn; rewrite ?Et; cbn; rewrite ?app_nil_r;
    match goal with
    | |- ?L = k ?s2 =>
        match L with context [k ?s1] => change (L = k s1); generalize (k s1) end
    end;
    intros [[r s'] t]; reflexivity.
Qed.

(** A call of the first listing on an array of records, in full. *)
Lemma V1_toCsv_records P this records fn cfg :
  let o := mergedOptions fn cfg in
  let keys := firstSeen [] (scan records) in
  let st c := {| data := VArr records; options := Some o; csv := c |} in
  V1.toCsv P (VArr records) fn cfg this =
  match rowLines V1.formatCellValue (fieldSeparator o) keys records with
  | Normal lines =>
      let doc := prefixText o ++
                 join CsvConfigConsts.END_OF_LINE (joinWith (fieldSeparator o) keys :: lines) in
      match doc with
      | [] => (Normal None, st [], [ConsoleLog [lit "Invalid data"]])
      | _ :: _ =>
          if isSet (noDownload o) then (Normal (Some doc), st doc, [])
          else (Normal None, st doc, [Download (downloadName o) mimeType doc])
      end
  | Throw e => (Throw e, st (prefixText o), [])
  end.
Proof.
  intros o keys st.
  unfold V1.toCsv.
  rewrite (bind_silent _ _ _ eq_refl).
  cbn [typeofObject].
  rewrite (bind_silent _ _ _ eq_refl).
  rewrite (bind_silent _ _ _ eq_refl).
  cbn [truthy negb].
  rewrite (bind_silent _ _ _ eq_refl).
  cbn [data options csv].
  rewrite (bind_silent _ _ _ (overrideFilename_run _ _ _ _)).
  rewrite (bind_silent _ _ _ (optionsField'_run _ _ _ _)).
  fold o.
  rewrite V1_prefix_run.
  rewrite (bind_silent _ _ _ eq_refl).
  cbn [data]. unfold lift. rewrite extractUniqueKeys_scan.
  rewrite (bind_silent _ _ _ eq_refl).
  rewrite (bind_silent _ _ _ (optionsField_run _ _ _ _)).
  fold o keys.
  unfold bind at 1. rewrite pushRows_run.
  destruct (rowLines V1.formatCellValue (fieldSeparator o) keys records) as [lines|e];
    [|reflexivity].
  rewrite (bind_silent _ _ _ (appendCsv_run _ _ _ _)).
  rewrite (bind_silent _ _ _ eq_refl). cbn [csv].
  destruct (prefixText o ++
            join CsvConfigConsts.END_OF_LINE (joinWith (fieldSeparator o) keys :: lines))
    as [|c0 doc'].
  - reflexivity.
  - rewrite (bind_silent _ _ _ (optionsField'_run _ _ _ _)).
    destruct (isSet (noDownload o)); [reflexivity|].
    unfold bind. rewrite downloadCsvFile_run. reflexivity.
Qed.

(** What the listings deliver for an array of records. *)
Lemma V2_delivered P this records fn cfg :
  let o := mergedOptions fn cfg in
  let keys := firstSeen [] (scan records) in
  delivered (V2.toCsv P (VArr records) fn cfg this)
  = match rowLines V2.formatCellValue (fieldSeparator o) keys records with
    | Normal lines =>
        Some (prefixText o ++ joinWith (fieldSeparator o) keys
              ++ CsvConfigConsts.END_OF_LINE ++ terminated lines)
    | Throw _ => None
    end.
Proof.
  intros o keys. pose proof (V2_toCsv_records P this records fn cfg) as H.
  cbv zeta in H. fold o keys in H.
  destruct (rowLines V2.formatCellValue (fieldSeparator o) keys records) as [lines|e].
  - rewrite H. destruct (isSet (noDownload o)); reflexivity.
  - destruct H as [c' H]. rewrite H. reflexivity.
Qed.

Lemma V1_delivered P this records fn cfg :
  let o := mergedOptions fn cfg in
  let keys := firstSeen [] (scan records) in
  delivered (V1.toCsv P (VArr records) fn cfg this)
  = match rowLines V1.formatCellValue (fieldSeparator o) keys records with
    | Normal lines =>
        match prefixText o ++
              join CsvConfigConsts.END_OF_LINE (joinWith (fieldSeparator o) keys :: lines)
        with
        | [] => None
        | c :: doc => Some (c :: doc)
        end
    | Throw _ => None
    end.
Proof.
  intros o keys. rewrite V1_toCsv_records. fold o keys.
  destruct (rowLines V1.formatCellValue (fieldSeparator o) keys records) as [lines|e];
    [|reflexivity].
  destruct (prefixText o ++ _) as [|c doc]; [reflexivity|].
  destruct (isSet (noDownload o)); reflexivity.
Qed.

(** A traversal whose every step completes normally does so itself. *)
Lemma mapC_Normal {A B} (f : A -> completion B) (xs : list A) :
  (forall x, In x xs -> exists y, f x = Normal y) ->
  exists ys, mapC f xs = Normal ys /\ Forall2 (fun x y => f x = Normal y) xs ys.
Proof.
  induction xs as [|x r IH]; intros H.
  - exists []. split; [reflexivity | constructor].
  - destruct (H x (or_introl eq_refl)) as [y Hy].
    destruct IH as [ys [Hys Hall]]; [intros z Hz; apply H; now right|].
    exists (y :: ys). simpl. rewrite Hy, Hys. split; [reflexivity|].
    now constructor.
Qed.

(** A traversal that completes normally did so at every step. *)
Lemma mapC_Forall2 {A B} (f : A -> completion B) (xs : list A) (ys : list B) :
  mapC f xs = Normal ys -> Forall2 (fun x y => f x = Normal y) xs ys.
Proof.
  revert ys. induction xs as [|x r IH]; intros ys H; simpl in H.
  - injection H as <-. constructor.
  - destruct (f x) as [y|e] eqn:Hy; [|discriminate]. simpl in H.
    destruct (mapC f r) as [ys'|e]; [|discriminate]. simpl in H.
    injection H as <-. constructor; [assumption | now apply IH].
Qed.

Lemma formatCellValue_Normal (obj : value) (key : str) (v : value) :
  getNestedObjectValue obj key = Normal v ->
  V1.formatCellValue obj key = Normal (quoted (replaceQuotes (cellText v))).
Proof. intros H. unfold V1.formatCellValue. now rewrite H. Qed.

(** ** Cells *)

Lemma replaceQuotes_clean (s : str) :
  includesQuote s = false -> replaceQuotes s = s.
Proof.
  unfold includesQuote. induction s as [|c r IH]; cbn [existsb replaceQuotes];
    [reflexivity|].
  intros H. apply orb_false_iff in H as [Hc Hr].
  rewrite N.eqb_sym, Hc. now rewrite IH.
Qed.

(** The two listings format a cell alike: the test before the replacement
    in the second one changes nothing. *)
Lemma formatCellValue_listings (obj : value) (key : str) :
  V2.formatCellValue obj key = V1.formatCellValue obj key.
Proof.
  unfold V2.formatCellValue, V1.formatCellValue.
  destruct (getNestedObjectValue obj key) as [v|e]; [|reflexivity]. simpl.
  destruct (includesQuote (toString (cellValue v))) eqn:E; [reflexivity|].
  now rewrite replaceQuotes_clean.
Qed.

Lemma replaceQuotes_flat_map (s : str) :
  replaceQuotes s
  = flat_map (fun c => if N.eqb c DQUOTE then [DQUOTE; DQUOTE] else [c]) s.
Proof.
  induction s as [|c r IH]; cbn [replaceQuotes flat_map]; [reflexivity|].
  rewrite IH. now destruct (N.eqb c DQUOTE).
Qed.

Lemma readQuoted_replaceQuotes (s : str) :
  readQuoted (replaceQuotes s ++ [DQUOTE]) = Some s.
Proof.
  induction s as [|c r IH]; [reflexivity|].
  cbn [replaceQuotes]. destruct (N.eqb c DQUOTE) eqn:E.
  - apply N.eqb_eq in E. subst c. cbn [app readQuoted].
    rewrite N.eqb_refl, IH. reflexivity.
  - cbn [app readQuoted]. rewrite E, IH. reflexivity.
Qed.

Lemma readCell_quoted (s : str) :
  readCell (quoted (replaceQuotes s)) = Some s.
Proof.
  unfold readCell, quoted. rewrite N.eqb_refl. apply readQuoted_replaceQuotes.
Qed.

Lemma cellText_object (v : value) :
  isObjectNotNull v = true -> JSON_stringify v = Some (cellText v).
Proof.
  unfold cellText, cellValue. intros H. rewrite H.
  destruct v; try discriminate; reflexivity.
Qed.

Lemma cellText_leaf (v : value) :
  isObjectNotNull v = false -> cellText v = toString v.
Proof. unfold cellText, cellValue. now intros ->. Qed.


Lemma mapC_listings (obj : value) (keys : list str) :
  mapC (V2.formatCellValue obj) keys = mapC (V1.formatCellValue obj) keys.
Proof.
  induction keys as [|k ks IH]; [reflexivity|].
  simpl. now rewrite IH, formatCellValue_listings.
Qed.

Lemma rowLines_listings (sep : option str) (keys : list str) (records : list value) :
  rowLines V2.formatCellValue sep keys records
  = rowLines V1.formatCellValue sep keys records.
Proof.
  unfold rowLines, rowLine.
  induction records as [|obj rs IH]; [reflexivity|].
  simpl. now rewrite IH, mapC_listings.
Qed.

(** The rows behind the lines: one list of cells per record, one cell per
    key. *)
Lemma rowLines_rows (format : value -> str -> completion str) (sep : option str)
  (keys : list str) (records : list value) (lines : list str) :
  rowLines format sep keys records = Normal lines ->
  exists rows,
    Forall2 (fun obj row =>
               Forall2 (fun key cell => format obj key = Normal cell) keys row)
            records rows
    /\ lines = map (joinWith sep) rows.
Proof.
  unfold rowLines. intros H. apply mapC_Forall2 in H.
  induction H as [|obj line rs ls Hline _ [rows [Hrows ->]]].
  - exists []. split; [constructor | reflexivity].
  - unfold rowLine in Hline.
    destruct (mapC (format obj) keys) as [row|e] eqn:Hrow; [|discriminate].
    simpl in Hline. injection Hline as <-.
    exists (row :: rows). split; [|reflexivity].
    constructor; [now apply mapC_Forall2 | assumption].
Qed.

(** ** Reading lines *)

Lemma scanLine_open (sep : codeunit) (s : str) :
  scanLine sep AtCellStart [] (DQUOTE :: s) = scanLine sep InQuotedCell [] s.
Proof. reflexivity. Qed.

Lemma scanLine_char (sep : codeunit) (cell : str) (c : codeunit) (r : str) :
  N.eqb c DQUOTE = false ->
  scanLine sep InQuotedCell cell (c :: r) = scanLine sep InQuotedCell (cell ++ [c]) r.
Proof. intros H. cbn [scanLine]. now rewrite H. Qed.

Lemma scanLine_escaped (sep : codeunit) (cell : str) (r : str) :
  scanLine sep InQuotedCell cell (DQUOTE :: DQUOTE :: r)
  = scanLine sep InQuotedCell (cell ++ [DQUOTE]) r.
Proof. reflexivity. Qed.

Lemma scanLine_close_sep (sep : codeunit) (cell : str) (more : str) :
  sep <> DQUOTE ->
  scanLine sep InQuotedCell cell (DQUOTE :: sep :: more)
  = option_map (cons cell) (scanLine sep AtCellStart [] more).
Proof.
  intros H. apply N.eqb_neq in H.
  change (scanLine sep InQuotedCell cell (DQUOTE :: sep :: more))
    with (if N.eqb sep DQUOTE then scanLine sep InQuotedCell (cell ++ [DQUOTE]) more
          else if N.eqb sep sep
               then option_map (cons cell) (scanLine sep AtCellStart [] more)
               else None).
  now rewrite H, N.eqb_refl.
Qed.

Lemma scanLine_quoted_last (sep : codeunit) (text : str) (cell : str) :
  scanLine sep InQuotedCell cell (replaceQuotes text ++ [DQUOTE]) = Some [cell ++ text].
Proof.
  revert cell. induction text as [|c r IH]; intros cell.
  - cbn [replaceQuotes app]. now rewrite app_nil_r.
  - cbn [replaceQuotes]. destruct (N.eqb c DQUOTE) eqn:Ec.
    + apply N.eqb_eq in Ec. subst c.
      change ((DQUOTE :: DQUOTE :: replaceQuotes r) ++ [DQUOTE])
        with (DQUOTE :: DQUOTE :: (replaceQuotes r ++ [DQUOTE])).
      rewrite scanLine_escaped, IH. now rewrite <- app_assoc.
    + change ((c :: replaceQuotes r) ++ [DQUOTE])
        with (c :: (replaceQuotes r ++ [DQUOTE])).
      rewrite scanLine_char by assumption. rewrite IH. now rewrite <- app_assoc.
Qed.

Lemma scanLine_quoted_next (sep : codeunit) (text : str) (cell : str) (more : str) :
  sep <> DQUOTE ->
  scanLine sep InQuotedCell cell (replaceQuotes text ++ DQUOTE :: sep :: more)
  = option_map (cons (cell ++ text)) (scanLine sep AtCellStart [] more).
Proof.
  intros Hs. revert cell. induction text as [|c r IH]; intros cell.
  - cbn [replaceQuotes app]. rewrite app_nil_r. now apply scanLine_close_sep.
  - cbn [replaceQuotes]. destruct (N.eqb c DQUOTE) eqn:Ec.
    + apply N.eqb_eq in Ec. subst c.
      change ((DQUOTE :: DQUOTE :: replaceQuotes r) ++ DQUOTE :: sep :: more)
        with (DQUOTE :: DQUOTE :: (replaceQuotes r ++ DQUOTE :: sep :: more)).
      rewrite scanLine_escaped, IH. now rewrite <- app_assoc.
    + change ((c :: replaceQuotes r) ++ DQUOTE :: sep :: more)
        with (c :: (replaceQuotes r ++ DQUOTE :: sep :: more)).
      rewrite scanLine_char by assumption. rewrite IH. now rewrite <- app_assoc.
Qed.

(** Quoted, escaped cells joined by the separator read back as the texts
    they were made from. *)
Lemma readLine_quoted (sep : codeunit) (texts : list str) :
  sep <> DQUOTE ->
  readLine sep (join [sep] (map (fun t => quoted (replaceQuotes t)) texts))
  = Some texts.
Proof.
  intros Hs. destruct texts as [|t ts]; [reflexivity|].
  assert (H : scanLine sep AtCellStart []
                (join [sep] (map (fun t => quoted (replaceQuotes t)) (t :: ts)))
              = Some (t :: ts)).
  { revert t. induction ts as [|t' ts IH]; intros t.
    - cbn [map join]. unfold quoted. rewrite scanLine_open. apply scanLine_quoted_last.
    - change (join [sep] (map (fun t => quoted (replaceQuotes t)) (t :: t' :: ts)))
        with (quoted (replaceQuotes t) ++ [sep]
              ++ join [sep] (map (fun t => quoted (replaceQuotes t)) (t' :: ts))).
      unfold quoted at 1.
      change ((DQUOTE :: replaceQuotes t ++ [DQUOTE]) ++ [sep]
              ++ join [sep] (map (fun t => quoted (replaceQuotes t)) (t' :: ts)))
        with (DQUOTE :: ((replaceQuotes t ++ [DQUOTE]) ++ sep
              :: join [sep] (map (fun t => quoted (replaceQuotes t)) (t' :: ts)))).
      rewrite <- app_assoc. cbn [app].
      rewrite scanLine_open. rewrite scanLine_quoted_next by assumption.
      rewrite IH. reflexivity. }
  unfold readLine.
  destruct (join [sep] (map (fun t => quoted (replaceQuotes t)) (t :: ts))) eqn:E.
  - destruct ts; discriminate E.
  - exact H.
Qed.

Lemma scanLine_raw_step (sep : codeunit) (cell : str) (c : codeunit) (r : str) :
  negb (N.eqb c sep || N.eqb c DQUOTE || isLineBreak c) = true ->
  scanLine sep InRawCell cell (c :: r) = scanLine sep InRawCell (cell ++ [c]) r.
Proof.
  intros H. apply negb_true_iff in H. apply orb_false_iff in H. destruct H as [H Hb].
  apply orb_false_iff in H. destruct H as [Hs Hq].
  cbn [scanLine]. now rewrite Hs, Hq, Hb.
Qed.

Lemma scanLine_raw (sep : codeunit) (t : str) : forall cell rest,
  forallb (fun c => negb (N.eqb c sep || N.eqb c DQUOTE || isLineBreak c)) t = true ->
  scanLine sep InRawCell cell (t ++ rest) = scanLine sep InRawCell (cell ++ t) rest.
Proof.
  induction t as [|c r IH]; intros cell rest H.
  - cbn [app]. now rewrite app_nil_r.
  - cbn [forallb] in H. apply andb_true_iff in H. destruct H as [Hc Hr].
    cbn [app]. rewrite scanLine_raw_step by assumption.
    rewrite IH by assumption. now rewrite <- app_assoc.
Qed.

Lemma scanLine_start_raw (sep : codeunit) (c : codeunit) (r : str) :
  negb (N.eqb c sep || N.eqb c DQUOTE || isLineBreak c) = true ->
  scanLine sep AtCellStart [] (c :: r) = scanLine sep InRawCell [c] r.
Proof.
  intros H. apply negb_true_iff in H. apply orb_false_iff in H. destruct H as [H Hb].
  apply orb_false_iff in H. destruct H as [Hs Hq].
  cbn [scanLine]. now rewrite Hs, Hq, Hb.
Qed.

Lemma scanLine_raw_sep (sep : codeunit) (cell : str) (more : str) :
  scanLine sep InRawCell cell (sep :: more)
  = option_map (cons cell) (scanLine sep AtCellStart [] more).
Proof. cbn [scanLine]. now rewrite N.eqb_refl. Qed.

(** Cells written without quotes and joined by the separator read back as
    they are, when each of them can be written so. *)
Lemma readLine_raw (sep : codeunit) (keys : list str) :
  Forall (fun key => isRawCell sep key = true) keys ->
  readLine sep (join [sep] keys) = Some keys.
Proof.
  intros H. destruct keys as [|k ks]; [reflexivity|].
  assert (E : scanLine sep AtCellStart [] (join [sep] (k :: ks)) = Some (k :: ks)).
  { revert k H. induction ks as [|k' ks IH]; intros k H.
    - apply Forall_inv in H. destruct k as [|c r]; [discriminate H|].
      cbn [join]. cbn [isRawCell forallb] in H.
      apply andb_true_iff in H. destruct H as [Hc Hr].
      rewrite scanLine_start_raw by assumption.
      rewrite <- (app_nil_r r) at 1. rewrite scanLine_raw by exact Hr.
      reflexivity.
    - pose proof (Forall_inv H) as Hk. apply Forall_inv_tail in H.
      destruct k as [|c r]; [discriminate Hk|].
      cbn [isRawCell forallb] in Hk.
      apply andb_true_iff in Hk. destruct Hk as [Hc Hr].
      change (join [sep] ((c :: r) :: k' :: ks))
        with (c :: (r ++ sep :: join [sep] (k' :: ks))).
      rewrite scanLine_start_raw by assumption.
      rewrite scanLine_raw by exact Hr.
      rewrite scanLine_raw_sep. rewrite (IH k' H). reflexivity. }
  unfold readLine. destruct (join [sep] (k :: ks)) eqn:Ej; [|exact E].
  apply Forall_inv in H. destruct k; [discriminate H|]. destruct ks; discriminate Ej.
Qed.

(** The cells of a row are the quoted, escaped texts of the values the key
    paths resolve to. *)
Lemma row_cells (obj : value) (keys : list str) (row : list str) :
  Forall2 (fun key cell => V2.formatCellValue obj key = Normal cell) keys row ->
  exists values,
    Forall2 (fun key v => getNestedObjectValue obj key = Normal v) keys values
    /\ row = map (fun t => quoted (replaceQuotes t)) (map cellText values).
Proof.
  induction 1 as [|key cell ks cs Hc _ [values [Hv ->]]].
  - exists []. split; [constructor | reflexivity].
  - rewrite formatCellValue_listings in Hc. unfold V1.formatCellValue in Hc.
    destruct (getNestedObjectValue obj key) as [v|e] eqn:Ev; [|discriminate Hc].
    cbn [andThen] in Hc. injection Hc as <-.
    exists (v :: values). split; [now constructor | reflexivity].
Qed.

(** ** Leaf field paths *)

Lemma discoveredProps_incl pfx key v props :
  In (key, v) props ->
  incl (discoveredProperty pfx key v) (discoveredProps pfx props).
Proof.
  induction props as [|[k x] ps IH]; intros Hin; [contradiction|].
  simpl. destruct Hin as [Heq | Hin].
  - injection Heq as -> ->. apply incl_appl, incl_refl.
  - apply incl_appr, IH, Hin.
Qed.

Lemma discoveredItems_incl pfx key items : forall start index item,
  nth_error items index = Some item ->
  incl (discovered item
          (pfx ++ key ++ lit "[" ++ decimal (N.of_nat (start + index)) ++ lit "]."))
       (discoveredItems pfx key items start).
Proof.
  induction items as [|it its IH]; intros start [|index] item H; try discriminate.
  - injection H as ->. rewrite Nat.add_0_r. simpl. apply incl_appl, incl_refl.
  - simpl. apply incl_appr. rewrite <- Nat.add_succ_comm. apply IH. exact H.
Qed.

(** Every leaf field path of a record is met by the scan of that record. *)
Lemma leafPath_discovered (r : value) (p : str) :
  leafPath r p -> forall pfx, In (pfx ++ p) (discovered r pfx).
Proof.
  induction 1 as [props key v Hin Hleaf
                 | props key sub p Hin _ IH
                 | props key items index item p Hin Hnth _ IH];
    intros pfx; rewrite discovered_obj.
  - apply (discoveredProps_incl pfx _ _ _ Hin).
    destruct v; try discriminate; now left.
  - apply (discoveredProps_incl pfx _ _ _ Hin). simpl.
    specialize (IH (pfx ++ key ++ lit ".")).
    now rewrite <- !app_assoc in IH.
  - apply (discoveredProps_incl pfx _ _ _ Hin). simpl.
    apply (discoveredItems_incl pfx key items 0 index Hnth).
    specialize (IH (pfx ++ key ++ lit "[" ++ decimal (N.of_nat index) ++ lit "].")).
    now rewrite <- !app_assoc in IH.
Qed.

(** ... and so belongs to the key path set of any collection holding the
    record. *)
Lemma leafPath_in_keys (records : list value) (r : value) (p : str) :
  In r records -> leafPath r p -> In p (firstSeen [] (scan records)).
Proof.
  intros Hr Hp. apply firstSeen_In. split; [|intros []].
  unfold scan. apply in_flat_map. exists r. split; [assumption|].
  apply (leafPath_discovered Hp []).
Qed.


(** ** Key paths *)

Lemma discoveredProps_In pfx props p :
  In p (discoveredProps pfx props)
  <-> exists key v, In (key, v) props /\ In p (discoveredProperty pfx key v).
Proof.
  induction props as [|[k x] ps IH]; cbn [discoveredProps].
  - split; [intros [] | intros [key [v [[] _]]]].
  - rewrite in_app_iff, IH. split.
    + intros [H | [key [v [Hin H]]]].
      * exists k, x. split; [now left | exact H].
      * exists key, v. split; [now right | exact H].
    + intros [key [v [[Heq | Hin] H]]].
      * injection Heq as -> ->. now left.
      * right. now exists key, v.
Qed.

Lemma discoveredItems_In pfx key items p : forall start,
  In p (discoveredItems pfx key items start)
  <-> exists index item,
        nth_error items index = Some item
        /\ In p (discovered item
                   (pfx ++ key ++ lit "[" ++ decimal (N.of_nat (start + index))
                    ++ lit "].")).
Proof.
  induction items as [|it its IH]; intros start; cbn [discoveredItems].
  - split; [intros [] | intros [[|index] [item [H _]]]; discriminate H].
  - rewrite in_app_iff, IH. split.
    + intros [H | [index [item [Hn H]]]].
      * exists 0, it. rewrite Nat.add_0_r. now split.
      * exists (S index), item. rewrite <- Nat.add_succ_comm. now split.
    + intros [[|index] [item [Hn H]]].
      * injection Hn as ->. rewrite Nat.add_0_r in H. now left.
      * right. exists index, item. rewrite Nat.add_succ_comm. now split.
Qed.

Lemma discoveredElems_fields pfx elems : forall start,
  discoveredElems pfx elems start = discoveredProps pfx (indexedFrom start elems).
Proof.
  induction elems as [|x r IH]; intros start; [reflexivity|].
  cbn [discoveredElems indexedFrom discoveredProps]. now rewrite IH.
Qed.

Lemma discoveredChars_fields pfx s : forall start,
  discoveredChars pfx s start
  = discoveredProps pfx (indexedFrom start (map (fun c => VStr [c]) s)).
Proof.
  induction s as [|c r IH]; intros start; [reflexivity|].
  cbn [discoveredChars map indexedFrom discoveredProps discoveredProperty app].
  now rewrite IH.
Qed.

(** The scan of a value visits its fields one after the other. *)
Lemma discovered_fields (v : value) (pfx : str) :
  discovered v pfx = discoveredProps pfx (fieldsOf v).
Proof.
  destruct v as [| | b | z | s | elems | props]; try reflexivity.
  - rewrite discovered_str. apply discoveredChars_fields.
  - rewrite discovered_arr. apply discoveredElems_fields.
  - apply discovered_obj.
Qed.

Lemma indexedFrom_values start elems key v :
  In (key, v) (indexedFrom start elems) -> In v elems.
Proof.
  revert start. induction elems as [|x r IH]; intros start; [intros []|].
  cbn [indexedFrom]. intros [Heq | Hin].
  - injection Heq as _ ->. now left.
  - right. exact (IH _ Hin).
Qed.

(** Every key path is met by the scan. *)
Lemma keyPath_discovered (r : value) (p : str) :
  keyPath r p -> forall pfx, In (pfx ++ p) (discovered r pfx).
Proof.
  induction 1 as [r key v Hin Hleaf
                 | r key sub p Hin _ IH
                 | r key items index item p Hin Hnth _ IH];
    intros pfx; rewrite discovered_fields; apply discoveredProps_In.
  - exists key, v. split; [exact Hin|].
    destruct v; try discriminate; now left.
  - exists key, (VObj sub). split; [exact Hin|]. cbn [discoveredProperty].
    specialize (IH (pfx ++ key ++ lit ".")).
    now rewrite <- !app_assoc in IH.
  - exists key, (VArr items). split; [exact Hin|]. cbn [discoveredProperty].
    apply discoveredItems_In. exists index, item. split; [exact Hnth|].
    specialize (IH (pfx ++ key ++ lit "[" ++ decimal (N.of_nat index) ++ lit "].")).
    now rewrite <- !app_assoc in IH.
Qed.

(** Whatever the scan meets is a key path. *)
Lemma discovered_keyPath (v : value) :
  forall pfx p, In p (discovered v pfx) -> exists q, p = pfx ++ q /\ keyPath v q.
Proof.
  cut ((forall pfx p, In p (discovered v pfx) -> exists q, p = pfx ++ q /\ keyPath v q)
       /\ match v with
          | VArr items =>
              Forall (fun x => forall pfx p, In p (discovered x pfx) ->
                                 exists q, p = pfx ++ q /\ keyPath x q) items
          | _ => True
          end); [now intros [H _]|].
  induction v as [| | b | z | s | items IH | props IH] using value_nested_ind.
  - split; [intros pfx p []| exact I].
  - split; [intros pfx p []| exact I].
  - split; [intros pfx p []| exact I].
  - split; [intros pfx p []| exact I].
  - split; [|exact I]. intros pfx p H.
    rewrite discovered_fields in H. apply discoveredProps_In in H.
    destruct H as [key [x [Hin H]]].
    assert (Hx : exists c, x = VStr [c]).
    { apply indexedFrom_values in Hin. apply in_map_iff in Hin.
      destruct Hin as [c [<- _]]. now exists c. }
    destruct Hx as [c ->]. cbn [discoveredProperty] in H.
    destruct H as [<- | []]. exists key. split; [reflexivity|].
    now apply keyPath_field with (v := VStr [c]).
  - assert (Hitems : Forall (fun x => forall pfx p, In p (discovered x pfx) ->
                                exists q, p = pfx ++ q /\ keyPath x q) items).
    { eapply Forall_impl; [|exact IH]. now intros x [Hx _]. }
    split; [|exact Hitems]. intros pfx p H.
    rewrite discovered_fields in H. apply discoveredProps_In in H.
    destruct H as [key [x [Hin H]]].
    pose proof (indexedFrom_values _ _ _ _ Hin) as Hx.
    rewrite Forall_forall in IH. destruct (IH x Hx) as [Px Parr].
    destruct x as [| | b | z | s | sub | sub]; cbn [discoveredProperty] in H.
    + destruct H as [<- | []]. exists key. split; [reflexivity|].
      now apply keyPath_field with (v := VUndefined).
    + destruct H as [<- | []]. exists key. split; [reflexivity|].
      now apply keyPath_field with (v := VNull).
    + destruct H as [<- | []]. exists key. split; [reflexivity|].
      now apply keyPath_field with (v := VBool b).
    + destruct H as [<- | []]. exists key. split; [reflexivity|].
      now apply keyPath_field with (v := VNum z).
    + destruct H as [<- | []]. exists key. split; [reflexivity|].
      now apply keyPath_field with (v := VStr s).
    + apply discoveredItems_In in H. destruct H as [index [item [Hn H]]].
      rewrite Forall_forall in Parr.
      destruct (Parr item (nth_error_In _ _ Hn) _ _ H) as [q [-> Hq]].
      exists (key ++ lit "[" ++ decimal (N.of_nat index) ++ lit "]." ++ q).
      split; [now rewrite <- !app_assoc|].
      now apply keyPath_indexed with (items := sub) (item := item).
    + destruct (Px _ _ H) as [q [-> Hq]].
      exists (key ++ lit "." ++ q). split; [now rewrite <- !app_assoc|].
      now apply keyPath_nested with (sub := sub).
  - split; [|exact I]. intros pfx p H.
    rewrite discovered_fields in H. apply discoveredProps_In in H.
    destruct H as [key [x [Hin H]]]. cbn [fieldsOf] in Hin.
    rewrite Forall_forall in IH. destruct (IH _ Hin) as [Px Parr]. cbn [snd] in Px, Parr.
    destruct x as [| | b | z | s | sub | sub]; cbn [discoveredProperty] in H.
    + destruct H as [<- | []]. exists key. split; [reflexivity|].
      now apply keyPath_field with (v := VUndefined).
    + destruct H as [<- | []]. exists key. split; [reflexivity|].
      now apply keyPath_field with (v := VNull).
    + destruct H as [<- | []]. exists key. split; [reflexivity|].
      now apply keyPath_field with (v := VBool b).
    + destruct H as [<- | []]. exists key. split; [reflexivity|].
      now apply keyPath_field with (v := VNum z).
    + destruct H as [<- | []]. exists key. split; [reflexivity|].
      now apply keyPath_field with (v := VStr s).
    + apply discoveredItems_In in H. destruct H as [index [item [Hn H]]].
      rewrite Forall_forall in Parr.
      destruct (Parr item (nth_error_In _ _ Hn) _ _ H) as [q [-> Hq]].
      exists (key ++ lit "[" ++ decimal (N.of_nat index) ++ lit "]." ++ q).
      split; [now rewrite <- !app_assoc|].
      now apply keyPath_indexed with (items := sub) (item := item).
    + destruct (Px _ _ H) as [q [-> Hq]].
      exists (key ++ lit "." ++ q). split; [now rewrite <- !app_assoc|].
      now apply keyPath_nested with (sub := sub).
Qed.

(** The leaf field paths of a record are key paths of it. *)
Lemma leafPath_keyPath (r : value) (p : str) : leafPath r p -> keyPath r p.
Proof.
  induction 1 as [props key v Hin Hleaf
                 | props key sub p Hin _ IH
                 | props key items index item p Hin Hnth _ IH].
  - now apply keyPath_field with (v := v).
  - now apply keyPath_nested with (sub := sub).
  - now apply keyPath_indexed with (items := items) (item := item).
Qed.

(** The key path set of a collection holds exactly the key paths of its
    records. *)
Lemma keyPath_in_keys (records : list value) (p : str) :
  In p (firstSeen [] (scan records)) <-> exists r, In r records /\ keyPath r p.
Proof.
  rewrite firstSeen_In. unfold scan. rewrite in_flat_map. split.
  - intros [[r [Hr H]] _]. exists r. split; [exact Hr|].
    destruct (discovered_keyPath r [] _ H) as [q [-> Hq]]. exact Hq.
  - intros [r [Hr H]]. split; [|intros []]. exists r. split; [exact Hr|].
    exact (keyPath_discovered H []).
Qed.

(** ** What a call reads of the service *)

(** The outcome, the trace and the [csv] field of a call do not depend on
    the fields the call finds. *)
Lemma V2_toCsv_state_free (P : str -> parsed) (d : value) (fn : str) (cfg : option Config)
  (this this' : service) :
  outcome (V2.toCsv P d fn cfg this) = outcome (V2.toCsv P d fn cfg this')
  /\ trace (V2.toCsv P d fn cfg this) = trace (V2.toCsv P d fn cfg this')
  /\ csv (after (V2.toCsv P d fn cfg this)) = csv (after (V2.toCsv P d fn cfg this')).
Proof.
  unfold V2.toCsv.
  set (REST := bind (overrideFilename fn) _). clearbody REST.
  unfold V2.parseJson, outcome, trace, after, bind, setCsv, setData, setOptions, ret, throw.
  cbn.
  destruct (typeofObject d) eqn:Ed.
  - destruct (truthy d); cbn; [|repeat split].
    match goal with |- context [REST ?s] => destruct (REST s) as [[r s'] t] end.
    repeat split.
  - destruct (P (toString d)) as [v|m]; [destruct (isObjectNotNull v) eqn:Ev|]; cbn.
    + destruct v; try discriminate; cbn;
      match goal with |- context [REST ?s] => destruct (REST s) as [[r s'] t] end;
      repeat split.
    + repeat split.
    + repeat split.
Qed.

Lemma V1_toCsv_state_free (P : str -> parsed) (d : value) (fn : str) (cfg : option Config)
  (this this' : service) :
  outcome (V1.toCsv P d fn cfg this) = outcome (V1.toCsv P d fn cfg this')
  /\ trace (V1.toCsv P d fn cfg this) = trace (V1.toCsv P d fn cfg this')
  /\ csv (after (V1.toCsv P d fn cfg this)) = csv (after (V1.toCsv P d fn cfg this')).
Proof.
  unfold V1.toCsv.
  set (REST := bind (overrideFilename fn) _). clearbody REST.
  unfold V1.parseJson, outcome, trace, after, bind, setCsv, setData, setOptions, ret, throw, emit.
  cbn.
  destruct (typeofObject d) eqn:Ed.
  - destruct (truthy d); cbn; [|repeat split].
    match goal with |- context [REST ?s] => destruct (REST s) as [[r s'] t] end.
    repeat split.
  - destruct (P (toString d)) as [v|m]; [destruct (isObjectNotNull v) eqn:Ev|]; cbn.
    + destruct v; try discriminate; cbn;
      match goal with |- context [REST ?s] => destruct (REST s) as [[r s'] t] end;
      repeat split.
    + repeat split.
    + repeat split.
Qed.

(** An object that is no array has no [forEach]: the call throws once the
    prefix is written. *)
Lemma V2_toCsv_object P this props fn cfg :
  V2.toCsv P (VObj props) fn cfg this
  = (Throw TypeError,
     {| data := VObj props; options := Some (mergedOptions fn cfg);
        csv := prefixText (mergedOptions fn cfg) |}, []).
Proof.
  unfold V2.toCsv.
  rewrite (bind_silent _ _ _ eq_refl).
  cbn [typeofObject].
  rewrite (bind_silent _ _ _ eq_refl).
  rewrite (bind_silent _ _ _ eq_refl).
  cbn [truthy negb].
  rewrite (bind_silent _ _ _ eq_refl).
  cbn [data options csv].
  rewrite (bind_silent _ _ _ (overrideFilename_run _ _ _ _)).
  rewrite (bind_silent _ _ _ (addByteOrderMarkAndTitle_run _ _ _)).
  rewrite (bind_silent _ _ _ eq_refl).
  cbn [data options csv app].
  now apply bind_throw.
Qed.

Lemma V1_toCsv_object P this props fn cfg :
  V1.toCsv P (VObj props) fn cfg this
  = (Throw TypeError,
     {| data := VObj props; options := Some (mergedOptions fn cfg);
        csv := prefixText (mergedOptions fn cfg) |}, []).
Proof.
  unfold V1.toCsv.
  rewrite (bind_silent _ _ _ eq_refl).
  cbn [typeofObject].
  rewrite (bind_silent _ _ _ eq_refl).
  rewrite (bind_silent _ _ _ eq_refl).
  cbn [truthy negb].
  rewrite (bind_silent _ _ _ eq_refl).
  cbn [data options csv].
  rewrite (bind_silent _ _ _ (overrideFilename_run _ _ _ _)).
  rewrite (bind_silent _ _ _ (optionsField'_run _ _ _ _)).
  rewrite V1_prefix_run.
  rewrite (bind_silent _ _ _ eq_refl).
  now apply bind_throw.
Qed.

(** ** Text input *)

Lemma normalize_typeofObject P d v :
  normalize P d = Some v -> typeofObject v = true.
Proof.
  unfold normalize. destruct (typeofObject d) eqn:Ed; [now intros [= <-]|].
  destruct (P (toString d)) as [w|m]; [|discriminate].
  destruct (isObjectNotNull w) eqn:Ew; [|discriminate].
  intros [= <-]. destruct w; try discriminate; reflexivity.
Qed.

(** A call on JSON text that parses to an object or array is the call on
    that object or array. *)
Lemma V2_toCsv_normalize P d v fn cfg this :
  normalize P d = Some v ->
  V2.toCsv P d fn cfg this = V2.toCsv P v fn cfg this.
Proof.
  intros En. pose proof (normalize_typeofObject _ _ En) as Ev. revert En.
  unfold normalize. destruct (typeofObject d) eqn:Ed; [now intros [= ->]|].
  destruct (P (toString d)) as [w|m] eqn:Ep; [|discriminate].
  destruct (isObjectNotNull w) eqn:Ew; [|discriminate]. intros [= ->].
  unfold V2.toCsv. rewrite !(bind_silent _ _ _ eq_refl). rewrite Ed, Ev.
  assert (Hp : forall s, V2.parseJson P d s = (Normal v, s, [])).
  { intros s. unfold V2.parseJson. now rewrite Ep, Ew. }
  rewrite (bind_silent _ _ _ (Hp _)).
  rewrite (bind_silent (ret v) _ _ eq_refl). reflexivity.
Qed.

Lemma V1_toCsv_normalize P d v fn cfg this :
  normalize P d = Some v ->
  V1.toCsv P d fn cfg this = V1.toCsv P v fn cfg this.
Proof.
  intros En. pose proof (normalize_typeofObject _ _ En) as Ev. revert En.
  unfold normalize. destruct (typeofObject d) eqn:Ed; [now intros [= ->]|].
  destruct (P (toString d)) as [w|m] eqn:Ep; [|discriminate].
  destruct (isObjectNotNull w) eqn:Ew; [|discriminate]. intros [= ->].
  unfold V1.toCsv. rewrite !(bind_silent _ _ _ eq_refl). rewrite Ed, Ev.
  assert (Hp : forall s, V1.parseJson P d s = (Normal v, s, [])).
  { intros s. unfold V1.parseJson. now rewrite Ep, Ew. }
  rewrite (bind_silent _ _ _ (Hp _)).
  rewrite (bind_silent (ret v) _ _ eq_refl). reflexivity.
Qed.

(** A call on anything else stops before it writes: the second listing
    throws, the first returns nothing. *)
Lemma V2_toCsv_invalid P d fn cfg this :
  normalize P d = None ->
  exists message,
    V2.toCsv P d fn cfg this
    = (Throw (Error (lit "Invalid JSON: " ++ message)),
       {| data := data this; options := options this; csv := [] |}, []).
Proof.
  unfold normalize. destruct (typeofObject d) eqn:Ed; [discriminate|]. intros En.
  assert (H : exists message, forall s,
             V2.parseJson P d s = (Throw (Error (lit "Invalid JSON: " ++ message)), s, [])).
  { unfold V2.parseJson. destruct (P (toString d)) as [w|m].
    - destruct (isObjectNotNull w); [discriminate|]. eexists. reflexivity.
    - eexists. reflexivity. }
  destruct H as [message H]. exists message.
  unfold V2.toCsv. rewrite (bind_silent _ _ _ eq_refl). rewrite Ed.
  apply bind_throw, H.
Qed.

Lemma V1_toCsv_invalid P d fn cfg this :
  normalize P d = None ->
  exists t,
    V1.toCsv P d fn cfg this
    = (Normal None, {| data := VNull; options := options this; csv := [] |}, t)
    /\ downloaded t = None.
Proof.
  unfold normalize. destruct (typeofObject d) eqn:Ed; [discriminate|]. intros En.
  assert (H : exists t, downloaded t = None /\ forall s,
             V1.parseJson P d s = (Normal VNull, s, t)).
  { unfold V1.parseJson. destruct (P (toString d)) as [w|m].
    - destruct (isObjectNotNull w); [discriminate|]. exists []. split; reflexivity.
    - eexists. split; [|reflexivity]. reflexivity. }
  destruct H as [t [Ht H]]. exists t. split; [|exact Ht].
  unfold V1.toCsv. rewrite (bind_silent _ _ _ eq_refl). rewrite Ed.
  unfold bind at 1. rewrite H.
  rewrite (bind_silent _ _ _ eq_refl). cbn [truthy negb].
  unfold ret. now rewrite app_nil_r.
Qed.

(** A call that delivers a document worked on an array. *)
Lemma V2_delivered_array P d fn cfg this doc :
  delivered (V2.toCsv P d fn cfg this) = Some doc ->
  exists records,
    normalize P d = Some (VArr records)
    /\ delivered (V2.toCsv P (VArr records) fn cfg this) = Some doc.
Proof.
  destruct (normalize P d) as [v|] eqn:En.
  - rewrite (@V2_toCsv_normalize _ _ _ fn cfg this En).
    pose proof (normalize_typeofObject _ _ En) as Hv.
    destruct v as [| | | | | records | props]; try discriminate.
    + intros H. now exists records.
    + rewrite V2_toCsv_object. discriminate.
  - destruct (@V2_toCsv_invalid _ _ fn cfg this En) as [message H].
    rewrite H. discriminate.
Qed.

Lemma V1_delivered_array P d fn cfg this doc :
  delivered (V1.toCsv P d fn cfg this) = Some doc ->
  exists records,
    normalize P d = Some (VArr records)
    /\ delivered (V1.toCsv P (VArr records) fn cfg this) = Some doc.
Proof.
  destruct (normalize P d) as [v|] eqn:En.
  - rewrite (@V1_toCsv_normalize _ _ _ fn cfg this En).
    pose proof (normalize_typeofObject _ _ En) as Hv.
    destruct v as [| | | | | records | props]; try discriminate.
    + intros H. now exists records.
    + rewrite V1_toCsv_object. discriminate.
  - destruct (@V1_toCsv_invalid _ _ fn cfg this En) as [t [H Ht]].
    rewrite H. unfold delivered, outcome, trace. cbn [fst snd]. rewrite Ht. discriminate.
Qed.

(* ================================================================== *)
(** * The claims *)

(** ** C1: the flat-records scenario *)

(** C1, as stated, fails: for the collection [[{a:1,b:'x'}, {a:2,b:'y'}]]
    with [noDownload: true] and no file name, neither listing returns the
    document whose header cells are quoted; the second listing returns the
    one with the raw header, the first the same without the final
    end-of-line mark. *)
Lemma flat_records_header_is_not_quoted :
  outcome (V2.toCsv parseAtoms flatRecords [] (Some noDownloadOnly) newService)
    = Normal (Some rawHeaderDocument)
  /\ outcome (V1.toCsv parseAtoms flatRecords [] (Some noDownloadOnly) newService)
    = Normal (Some rawHeaderDocumentOpenEnded)
  /\ rawHeaderDocument <> quotedHeaderDocument
  /\ rawHeaderDocumentOpenEnded <> quotedHeaderDocument.
Proof.
  repeat apply conj; try (vm_compute; reflexivity); vm_compute; discriminate.
Qed.

(** C1, amended: for that collection the second listing returns the
    byte-order mark followed by the raw header [a,b], and the two rows of
    quoted cells, every line ended by the end-of-line mark; the first
    listing returns the same document without the mark after the last row.
    This holds for every host parser and every state of the service the
    call finds. *)
Theorem flat_records_document (JSON_parse : str -> parsed) (this : service) :
  outcome (V2.toCsv JSON_parse flatRecords [] (Some noDownloadOnly) this)
    = Normal (Some rawHeaderDocument)
  /\ trace (V2.toCsv JSON_parse flatRecords [] (Some noDownloadOnly) this) = []
  /\ outcome (V1.toCsv JSON_parse flatRecords [] (Some noDownloadOnly) this)
    = Normal (Some rawHeaderDocumentOpenEnded)
  /\ trace (V1.toCsv JSON_parse flatRecords [] (Some noDownloadOnly) this) = [].
Proof.
  repeat apply conj; vm_compute; reflexivity.
Qed.

(** The theorem at the fresh service and the sample host. *)
Lemma flat_records_document_witness :
  outcome (V2.toCsv parseAtoms flatRecords [] (Some noDownloadOnly) newService)
    = Normal (Some rawHeaderDocument).
Proof. exact (proj1 (flat_records_document parseAtoms newService)). Defined.

(** ** C2: key paths that do not resolve *)

(** C2, as stated, fails.  In [[{a:1}, {b:2}]] each record lacks the other's
    field: the cells of the absent fields hold the text [undefined] between
    their quotes, they are not empty quoted cells.  In [[{a:{b:1}}, {c:2}]]
    the path [a.b] reads through the absent [a] of the second record, and
    the call throws. *)
Lemma absent_field_is_not_an_empty_cell :
  V2.formatCellValue (VObj [(lit "b", VNum 2)]) (lit "a") = Normal (quoted (lit "undefined"))
  /\ V1.formatCellValue (VObj [(lit "b", VNum 2)]) (lit "a") = Normal (quoted (lit "undefined"))
  /\ quoted (lit "undefined") <> quoted []
  /\ outcome (V2.toCsv parseAtoms mixedRecords [] (Some noDownloadOnly) newService)
     = Normal (Some mixedDocument)
  /\ getNestedObjectValue (VObj [(lit "c", VNum 2)]) (lit "a.b") = Throw TypeError
  /\ outcome (V2.toCsv parseAtoms mixedNested [] (Some noDownloadOnly) newService)
     = Throw TypeError
  /\ outcome (V1.toCsv parseAtoms mixedNested [] (Some noDownloadOnly) newService)
     = Throw TypeError.
Proof.
  repeat apply conj; try (vm_compute; reflexivity). vm_compute. discriminate.
Qed.

Lemma rowLines_Normal (keys : list str) (records : list value) (sep : option str) :
  (forall obj key, In obj records -> In key keys ->
                   exists v, getNestedObjectValue obj key = Normal v) ->
  exists lines, rowLines V1.formatCellValue sep keys records = Normal lines.
Proof.
  intros H. unfold rowLines.
  destruct (mapC_Normal (rowLine V1.formatCellValue sep keys) records) as [lines [Hl _]].
  - intros obj Hobj. unfold rowLine.
    destruct (mapC_Normal (V1.formatCellValue obj) keys) as [row [Hrow _]].
    + intros key Hkey. destruct (H obj key Hobj Hkey) as [v Hv].
      eexists. apply (formatCellValue_Normal _ _ Hv).
    + rewrite Hrow. simpl. eauto.
  - eauto.
Qed.

(** C2, amended: when the data argument is, or parses to, an array of
    records and every key path of the key path set resolves against every
    record to some value, neither listing throws; and a cell whose
    key path resolves to [undefined] for its record, as it does when the
    record lacks the field, holds the text [undefined] between its
    quotes. *)
Theorem unresolved_cell_reads_undefined (JSON_parse : str -> parsed) (this : service)
  (d : value) (records : list value) (filenameArg : str) (config : option Config)
  (keys : list str) :
  normalize JSON_parse d = Some (VArr records) ->
  extractUniqueKeys (VArr records) = Normal keys ->
  (forall obj key, In obj records -> In key keys ->
                   exists v, getNestedObjectValue obj key = Normal v) ->
  (exists doc, delivered (V2.toCsv JSON_parse d filenameArg config this) = Some doc)
  /\ (exists r, outcome (V1.toCsv JSON_parse d filenameArg config this) = Normal r)
  /\ (forall obj key,
        getNestedObjectValue obj key = Normal VUndefined ->
        V1.formatCellValue obj key = Normal (quoted (lit "undefined"))
        /\ V2.formatCellValue obj key = Normal (quoted (lit "undefined"))).
Proof.
  intros En Hkeys Hres.
  rewrite (@V2_toCsv_normalize _ _ _ filenameArg config this En).
  rewrite (@V1_toCsv_normalize _ _ _ filenameArg config this En).
  rewrite extractUniqueKeys_scan in Hkeys. injection Hkeys as <-.
  set (o := mergedOptions filenameArg config).
  destruct (@rowLines_Normal _ records (fieldSeparator o) Hres) as [lines Hlines].
  repeat apply conj.
  - rewrite V2_delivered. fold o. rewrite rowLines_listings, Hlines.
    eexists; reflexivity.
  - rewrite V1_toCsv_records. fold o. rewrite Hlines. cbv zeta.
    destruct (prefixText o ++ _); [eexists; reflexivity|].
    destruct (isSet (noDownload o)); eexists; reflexivity.
  - intros obj key H. rewrite formatCellValue_listings.
    unfold V1.formatCellValue. rewrite H. split; reflexivity.
Qed.

(** The theorem on [[{a:1}, {b:2}]]. *)
Lemma unresolved_cell_reads_undefined_witness :
  (exists doc, delivered (V2.toCsv parseAtoms mixedRecords [] (Some noDownloadOnly) newService)
               = Some doc)
  /\ (exists r, outcome (V1.toCsv parseAtoms mixedRecords [] (Some noDownloadOnly) newService)
                = Normal r)
  /\ (forall obj key,
        getNestedObjectValue obj key = Normal VUndefined ->
        V1.formatCellValue obj key = Normal (quoted (lit "undefined"))
        /\ V2.formatCellValue obj key = Normal (quoted (lit "undefined"))).
Proof.
  apply (@unresolved_cell_reads_undefined parseAtoms newService mixedRecords
           [VObj [(lit "a", VNum 1)]; VObj [(lit "b", VNum 2)]] [] (Some noDownloadOnly)
           [lit "a"; lit "b"] eq_refl eq_refl).
  intros obj key [<- | [<- | []]] [<- | [<- | []]]; eexists; reflexivity.
Defined.

(** ** C3: arrays of primitives *)






(** ** C4: text that is no JSON, or no JSON object *)

(** C4: when the data argument is a text that the host does not parse, or
    that parses to something other than an object or array ([null]
    included), no document is delivered and the [csv] field stays empty.
    The second listing throws an error whose message starts with
    [Invalid JSON: ]; the first listing returns nothing, having at most
    written to the console. *)
Theorem invalid_input_delivers_nothing (JSON_parse : str -> parsed) (this : service)
  (text : str) (filenameArg : str) (config : option Config) :
  (exists message, JSON_parse text = SyntaxError message)
  \/ (exists v, JSON_parse text = Parsed v /\ isObjectNotNull v = false) ->
  (exists message,
     outcome (V2.toCsv JSON_parse (VStr text) filenameArg config this)
     = Throw (Error (lit "Invalid JSON: " ++ message)))
  /\ trace (V2.toCsv JSON_parse (VStr text) filenameArg config this) = []
  /\ csv (after (V2.toCsv JSON_parse (VStr text) filenameArg config this)) = []
  /\ delivered (V2.toCsv JSON_parse (VStr text) filenameArg config this) = None
  /\ outcome (V1.toCsv JSON_parse (VStr text) filenameArg config this) = Normal None
  /\ downloaded (trace (V1.toCsv JSON_parse (VStr text) filenameArg config this)) = None
  /\ csv (after (V1.toCsv JSON_parse (VStr text) filenameArg config this)) = []
  /\ delivered (V1.toCsv JSON_parse (VStr text) filenameArg config this) = None.
Proof.
  intros H.
  assert (En : normalize JSON_parse (VStr text) = None).
  { unfold normalize. cbn [typeofObject toString].
    destruct H as [[message ->] | [v [-> Hv]]]; [|rewrite Hv]; reflexivity. }
  destruct (@V2_toCsv_invalid JSON_parse (VStr text) filenameArg config this En)
    as [message H2].
  destruct (@V1_toCsv_invalid JSON_parse (VStr text) filenameArg config this En)
    as [t [H1 Ht]].
  rewrite H2, H1.
  unfold delivered, outcome, after, trace. cbn [fst snd csv].
  repeat apply conj; try reflexivity; try assumption.
  exists message. reflexivity.
Qed.

(** The theorem at the sample host: [not json] is no JSON text, and the
    call on it writes one line to the console in the first listing. *)
Lemma invalid_input_delivers_nothing_witness :
  trace (V1.toCsv parseAtoms (VStr (lit "not json")) (lit "out") None newService)
  = [ConsoleLog [lit "Invalid JSON:"; lit "Unexpected token"]]
  /\ delivered (V2.toCsv parseAtoms (VStr (lit "not json")) (lit "out") None newService)
     = None.
Proof.
  split; [reflexivity|].
  apply (invalid_input_delivers_nothing parseAtoms newService (lit "not json")
           (lit "out") None).
  left. eexists. reflexivity.
Defined.

(** ** C5: the cell formatter *)

(** C5: whatever value [v] the key resolves to, both listings format the
    cell as one double quote, the text of [v] with every double quote
    written twice, and one double quote.  The text of [v] is its JSON text
    when [v] is an object or an array, [null] for [null], [undefined] for
    [undefined], and [String(v)] for any other primitive; reading the cell
    back as a quoted CSV cell gives that text again, so there is exactly one
    outer pair of quotes whatever the text looks like. *)
Theorem cell_is_quoted_and_escaped (obj : value) (key : str) (v : value) :
  getNestedObjectValue obj key = Normal v ->
  V1.formatCellValue obj key = Normal (quoted (replaceQuotes (cellText v)))
  /\ V2.formatCellValue obj key = Normal (quoted (replaceQuotes (cellText v)))
  /\ replaceQuotes (cellText v)
     = flat_map (fun c => if N.eqb c DQUOTE then [DQUOTE; DQUOTE] else [c]) (cellText v)
  /\ readCell (quoted (replaceQuotes (cellText v))) = Some (cellText v)
  /\ (isObjectNotNull v = true -> JSON_stringify v = Some (cellText v))
  /\ (isObjectNotNull v = false -> cellText v = toString v)
  /\ cellText VNull = lit "null"
  /\ cellText VUndefined = lit "undefined".
Proof.
  intros H.
  assert (H1 : V1.formatCellValue obj key
               = Normal (quoted (replaceQuotes (cellText v)))).
  { unfold V1.formatCellValue. rewrite H. reflexivity. }
  repeat apply conj.
  - exact H1.
  - now rewrite formatCellValue_listings.
  - apply replaceQuotes_flat_map.
  - apply readCell_quoted.
  - apply cellText_object.
  - apply cellText_leaf.
  - reflexivity.
  - reflexivity.
Qed.

(** The theorem on a text that already looks quoted: the cell has three
    double quotes on either side of [hi]. *)
Lemma cell_is_quoted_and_escaped_witness :
  V2.formatCellValue quotedLooking (lit "q")
  = Normal (quoted (DQUOTE :: DQUOTE :: lit "hi" ++ [DQUOTE; DQUOTE])).
Proof.
  exact (proj1 (proj2 (cell_is_quoted_and_escaped quotedLooking (lit "q")
                         (v := VStr (quoted (lit "hi"))) eq_refl))).
Defined.

(** ** C6: rows and header share the key path set *)

(** C6, as stated, fails for the delivered text: the header cells are not
    quoted, so a field name that holds the separator splits.  For
    [[{ 'Last, First': 'Doe, Jane', age: 25 }]] the key path set has two key
    paths and the data row reads as two cells, but the header line reads as
    three. *)
Lemma comma_in_a_field_name_splits_the_header :
  extractUniqueKeys commaNameRecords = Normal [lit "Last, First"; lit "age"]
  /\ outcome (V2.toCsv parseAtoms commaNameRecords [] (Some noDownloadOnly) newService)
     = Normal (Some (CsvConfigConsts.ByteOrderMark
                     ++ lit "Last, First,age" ++ CsvConfigConsts.END_OF_LINE
                     ++ quoted (lit "Doe, Jane") ++ lit "," ++ quoted (lit "25")
                     ++ CsvConfigConsts.END_OF_LINE))
  /\ readLine 44%N (lit "Last, First,age") = Some [lit "Last"; lit " First"; lit "age"]
  /\ readLine 44%N (quoted (lit "Doe, Jane") ++ lit "," ++ quoted (lit "25"))
     = Some [lit "Doe, Jane"; lit "25"].
Proof. repeat apply conj; vm_compute; reflexivity. Qed.

(** C6, amended: whenever a call delivers a document, its data argument is
    an array of records, or JSON text that parses to one, and there is one
    key path set, the one [extractUniqueKeys] computes, and one row of cells
    per record, such that each row has exactly one cell per key path, the
    cell of column [j] being the formatted value of key path [j] for that
    record; the document is the prefix, the key paths joined by the
    separator, then every row joined by the same separator.  The second
    listing ends every line with the end-of-line mark, the first joins the
    lines with it.

    Read as text, with a separator of one character other than the double
    quote, every data row has one cell per key path, the cell of column [j]
    holding the text of the value of key path [j].  The header line has the
    key paths as its cells when every key path can be written as a cell
    without quotes: it is not empty and holds no separator, no double quote
    and no line break. *)
Theorem rows_align_with_header (JSON_parse : str -> parsed) (this : service)
  (d : value) (filenameArg : str) (config : option Config) (doc : str) :
  delivered (V2.toCsv JSON_parse d filenameArg config this) = Some doc
  \/ delivered (V1.toCsv JSON_parse d filenameArg config this) = Some doc ->
  exists records keys rows,
    normalize JSON_parse d = Some (VArr records)
    /\ extractUniqueKeys (VArr records) = Normal keys
    /\ Forall2 (fun obj row =>
                  Forall2 (fun key cell => V2.formatCellValue obj key = Normal cell)
                          keys row)
               records rows
    /\ Forall (fun row => List.length row = List.length keys) rows
    /\ List.length rows = List.length records
    /\ (delivered (V2.toCsv JSON_parse d filenameArg config this) = Some doc ->
        doc = prefixText (mergedOptions filenameArg config)
              ++ terminated
                   (joinWith (fieldSeparator (mergedOptions filenameArg config)) keys
                    :: map (joinWith (fieldSeparator (mergedOptions filenameArg config)))
                         rows))
    /\ (delivered (V1.toCsv JSON_parse d filenameArg config this) = Some doc ->
        doc = prefixText (mergedOptions filenameArg config)
              ++ join CsvConfigConsts.END_OF_LINE
                   (joinWith (fieldSeparator (mergedOptions filenameArg config)) keys
                    :: map (joinWith (fieldSeparator (mergedOptions filenameArg config)))
                         rows))
    /\ (forall sep,
          fieldSeparator (mergedOptions filenameArg config) = Some [sep] ->
          sep <> DQUOTE ->
          Forall2 (fun obj row =>
                     exists values,
                       Forall2 (fun key v => getNestedObjectValue obj key = Normal v)
                               keys values
                       /\ readLine sep
                            (joinWith (fieldSeparator (mergedOptions filenameArg config))
                               row)
                          = Some (map cellText values)
                       /\ List.length (map cellText values) = List.length keys)
                  records rows
          /\ (Forall (fun key => isRawCell sep key = true) keys ->
              readLine sep
                (joinWith (fieldSeparator (mergedOptions filenameArg config)) keys)
              = Some keys)).
Proof.
  intros H.
  assert (En : exists records, normalize JSON_parse d = Some (VArr records)).
  { destruct H as [H | H];
      [apply V2_delivered_array in H | apply V1_delivered_array in H];
      destruct H as [records [En _]]; now exists records. }
  destruct En as [records En].
  rewrite (@V2_toCsv_normalize _ _ _ filenameArg config this En) in *.
  rewrite (@V1_toCsv_normalize _ _ _ filenameArg config this En) in *.
  rewrite V2_delivered, V1_delivered in *. rewrite rowLines_listings in *.
  set (o := mergedOptions filenameArg config) in *.
  set (keys := firstSeen [] (scan records)) in *.
  destruct (rowLines V1.formatCellValue (fieldSeparator o) keys records) as [lines|e] eqn:Hl;
    [|destruct H; discriminate].
  rewrite <- rowLines_listings in Hl.
  destruct (rowLines_rows _ _ _ _ Hl) as [rows [Hrows ->]].
  exists records, keys, rows. repeat apply conj.
  - exact En.
  - apply extractUniqueKeys_scan.
  - exact Hrows.
  - clearbody keys. clear -Hrows.
    induction Hrows as [|obj row rs rws Hrow _ IH]; constructor.
    + symmetry. apply (Forall2_length Hrow).
    + exact IH.
  - symmetry. apply (Forall2_length Hrows).
  - intros Hd. injection Hd as <-. unfold terminated. simpl.
    now rewrite <- !app_assoc.
  - intros Hd. clear H.
    destruct (prefixText o ++ _); [discriminate Hd|]. now injection Hd as <-.
  - intros sep Hsep Hq. rewrite Hsep. unfold joinWith. split.
    + clearbody keys. clear -Hrows Hq.
      induction Hrows as [|obj row rs rws Hrow _ IH]; constructor; [|exact IH].
      destruct (@row_cells _ _ _ Hrow) as [values [Hv ->]].
      exists values. repeat apply conj.
      * exact Hv.
      * now apply readLine_quoted.
      * rewrite length_map. symmetry. apply (Forall2_length Hv).
    + intros Hraw. now apply readLine_raw.
Qed.

(** The theorem on the flat-records scenario: two rows of two cells under a
    header of two key paths, and the header line reads as the two key
    paths. *)
Lemma rows_align_with_header_witness :
  exists keys rows,
    extractUniqueKeys flatRecords = Normal keys
    /\ Forall (fun row => List.length row = List.length keys) rows
    /\ List.length rows = 2
    /\ rawHeaderDocument
       = prefixText (mergedOptions [] (Some noDownloadOnly))
         ++ terminated
              (joinWith (fieldSeparator (mergedOptions [] (Some noDownloadOnly))) keys
               :: map (joinWith (fieldSeparator (mergedOptions [] (Some noDownloadOnly))))
                    rows)
    /\ readLine 44%N
         (joinWith (fieldSeparator (mergedOptions [] (Some noDownloadOnly))) keys)
       = Some keys.
Proof.
  destruct (@rows_align_with_header parseAtoms newService flatRecords
              [] (Some noDownloadOnly) rawHeaderDocument (or_introl eq_refl))
    as [records [keys [rows [En [Hk [_ [Hlen [Hn [H2 [_ Htext]]]]]]]]]].
  injection En as <-.
  exists keys, rows. repeat apply conj; try assumption.
  - apply H2. reflexivity.
  - apply (Htext 44%N eq_refl); [discriminate|].
    vm_compute in Hk. injection Hk as <-. repeat constructor.
Defined.

(** ** C7: the key path set covers every record *)

(** C7, as stated, fails: section 4.1 of the specification counts
    [tags[0]] among the flattened leaf field paths of
    [{ id: 1, tags: [1, 2] }], and the key path set of the collection that
    holds this record is [[id]]. *)
Lemma array_element_leaf_is_not_in_the_key_path_set :
  specLeafPath idTagsRecord (lit "tags[0]")
  /\ extractUniqueKeys (VArr [idTagsRecord]) = Normal [lit "id"]
  /\ ~ In (lit "tags[0]") [lit "id"].
Proof.
  repeat apply conj.
  - exact (@spec_element [(lit "id", VNum 1); (lit "tags", VArr [VNum 1; VNum 2])]
             (lit "tags") [VNum 1; VNum 2] 0 (VNum 1)
             (or_intror (or_introl eq_refl)) eq_refl eq_refl).
  - reflexivity.
  - intros [H | []]. discriminate H.
Qed.

Lemma indexedFrom_In (elems : list value) (key : str) (v : value) : forall start,
  In (key, v) (indexedFrom start elems)
  <-> exists i, nth_error elems i = Some v /\ key = decimal (N.of_nat (start + i)).
Proof.
  induction elems as [|x r IH]; intros start; cbn [indexedFrom].
  - split; [intros [] | intros [[|i] [H _]]; discriminate H].
  - cbn [In]. rewrite IH. split.
    + intros [Heq | [i [Hn ->]]].
      * injection Heq as <- <-. exists 0. rewrite Nat.add_0_r. now split.
      * exists (S i). rewrite <- Nat.add_succ_comm. now split.
    + intros [[|i] [Hn ->]].
      * injection Hn as ->. rewrite Nat.add_0_r. now left.
      * right. exists i. rewrite Nat.add_succ_comm. now split.
Qed.

(** C7, amended: the key path set of a collection has no duplicates, lists
    its paths in the order in which the scan of the collection first meets
    them, and contains every leaf field path of every record that leads
    through fields of records and through array elements that are records.
    It holds exactly the key paths of its records, where an element of an
    array is scanned like a record: a number, a boolean or [null] that is an
    element of an array has no key path, and a string that is one has one
    key path per character, its position. *)
Theorem key_path_set_is_complete (records : list value) :
  exists keys,
    extractUniqueKeys (VArr records) = Normal keys
    /\ NoDup keys
    /\ keys = firstSeen [] (scan records)
    /\ (forall r p, In r records -> leafPath r p -> In p keys)
    /\ (forall p, In p keys <-> exists r, In r records /\ keyPath r p)
    /\ (forall v p, isScalar v = true -> ~ keyPath v p)
    /\ (forall s p,
          keyPath (VStr s) p
          <-> exists j, j < List.length s /\ p = decimal (N.of_nat j)).
Proof.
  exists (firstSeen [] (scan records)).
  repeat apply conj.
  - apply extractUniqueKeys_scan.
  - apply firstSeen_NoDup.
  - reflexivity.
  - intros r p Hr Hp. now apply leafPath_in_keys with (r := r).
  - intros p. apply keyPath_in_keys.
  - intros v p Hv Hp.
    destruct Hp as [r key x Hin _ | r key sub q Hin _ | r key items index item q Hin _ _];
      destruct r; try discriminate Hv; exact Hin.
  - intros s p. split.
    + intros Hp. inversion Hp as [r key x Hin _ Hr Hk
                                 | r key sub q Hin _ Hr Hk
                                 | r key items index item q Hin _ _ Hr Hk];
        subst; cbn [fieldsOf] in Hin; apply indexedFrom_In in Hin;
        destruct Hin as [j [Hn Hk]].
      * exists j. split; [|exact Hk].
        apply nth_error_Some. rewrite nth_error_map in Hn.
        destruct (nth_error s j); [discriminate | discriminate Hn].
      * rewrite nth_error_map in Hn. destruct (nth_error s j); discriminate Hn.
      * rewrite nth_error_map in Hn. destruct (nth_error s j); discriminate Hn.
    + intros [j [Hj ->]].
      destruct (nth_error s j) as [c|] eqn:Hc;
        [|apply nth_error_None in Hc; exfalso; apply (Nat.lt_irrefl j);
          now apply Nat.lt_le_trans with (m := List.length s)].
      apply keyPath_field with (v := VStr [c]); [|reflexivity].
      cbn [fieldsOf]. apply indexedFrom_In. exists j. split; [|reflexivity].
      rewrite nth_error_map, Hc. reflexivity.
Qed.

(** The nested-object scenario: the key path set of
    [[{name:'jo', addr:{city:'LA'}}]] is [name, addr.city]. *)
Example nested_record_keys :
  extractUniqueKeys (VArr [nestedRecord]) = Normal [lit "name"; lit "addr.city"].
Proof. reflexivity. Qed.

(** The theorem on the array-of-objects scenario: [user.todos[1].id] is a
    key path of [[{user:{todos:[{id:1},{id:2}]}}]]. *)
Lemma key_path_set_is_complete_witness :
  exists keys,
    extractUniqueKeys (VArr [todoRecord]) = Normal keys
    /\ In (lit "user" ++ lit "." ++ lit "todos" ++ lit "[" ++ decimal 1 ++ lit "]." ++ lit "id")
          keys
    /\ NoDup keys
    /\ keys = firstSeen [] (scan [todoRecord]).
Proof.
  destruct (key_path_set_is_complete [todoRecord])
    as [keys [Hk [Hnd [Hs [Hleaf _]]]]].
  exists keys. repeat apply conj; try assumption.
  apply (Hleaf todoRecord); [now left|].
  unfold todoRecord.
  eapply leaf_nested; [now left|].
  eapply leaf_indexed with (index := 1); [now left | reflexivity |].
  eapply leaf_field; [now left | reflexivity].
Defined.

(** ** C8: the same input gives the same result *)

(** C8: for a fixed data argument, file name and configuration, the
    outcome of a call, its trace and the document it delivers are the same
    whatever the fields of the service hold when the call starts; run a
    second time right after itself, on the fields the first run left, the
    call gives the same outcome, trace and document.  The key path set is
    computed from the data alone. *)
Theorem conversion_is_repeatable (JSON_parse : str -> parsed) (d : value)
  (filenameArg : str) (config : option Config) (this this' : service) :
  (outcome (V2.toCsv JSON_parse d filenameArg config this)
   = outcome (V2.toCsv JSON_parse d filenameArg config this')
   /\ trace (V2.toCsv JSON_parse d filenameArg config this)
      = trace (V2.toCsv JSON_parse d filenameArg config this')
   /\ delivered (V2.toCsv JSON_parse d filenameArg config this)
      = delivered (V2.toCsv JSON_parse d filenameArg config this'))
  /\ (outcome (V2.toCsv JSON_parse d filenameArg config
                 (after (V2.toCsv JSON_parse d filenameArg config this)))
      = outcome (V2.toCsv JSON_parse d filenameArg config this)
      /\ trace (V2.toCsv JSON_parse d filenameArg config
                  (after (V2.toCsv JSON_parse d filenameArg config this)))
         = trace (V2.toCsv JSON_parse d filenameArg config this)
      /\ csv (after (V2.toCsv JSON_parse d filenameArg config
                       (after (V2.toCsv JSON_parse d filenameArg config this))))
         = csv (after (V2.toCsv JSON_parse d filenameArg config this)))
  /\ (outcome (V1.toCsv JSON_parse d filenameArg config this)
      = outcome (V1.toCsv JSON_parse d filenameArg config this')
      /\ trace (V1.toCsv JSON_parse d filenameArg config this)
         = trace (V1.toCsv JSON_parse d filenameArg config this')
      /\ delivered (V1.toCsv JSON_parse d filenameArg config this)
         = delivered (V1.toCsv JSON_parse d filenameArg config this'))
  /\ (outcome (V1.toCsv JSON_parse d filenameArg config
                 (after (V1.toCsv JSON_parse d filenameArg config this)))
      = outcome (V1.toCsv JSON_parse d filenameArg config this)
      /\ trace (V1.toCsv JSON_parse d filenameArg config
                  (after (V1.toCsv JSON_parse d filenameArg config this)))
         = trace (V1.toCsv JSON_parse d filenameArg config this)
      /\ csv (after (V1.toCsv JSON_parse d filenameArg config
                       (after (V1.toCsv JSON_parse d filenameArg config this))))
         = csv (after (V1.toCsv JSON_parse d filenameArg config this)))
  /\ (forall records,
        extractUniqueKeys (VArr records) = Normal (firstSeen [] (scan records))).
Proof.
  pose proof (V2_toCsv_state_free JSON_parse d filenameArg config this this')
    as [Ho2 [Ht2 _]].
  pose proof (V2_toCsv_state_free JSON_parse d filenameArg config
                (after (V2.toCsv JSON_parse d filenameArg config this)) this)
    as [Ho2' [Ht2' Hc2']].
  pose proof (V1_toCsv_state_free JSON_parse d filenameArg config this this')
    as [Ho1 [Ht1 _]].
  pose proof (V1_toCsv_state_free JSON_parse d filenameArg config
                (after (V1.toCsv JSON_parse d filenameArg config this)) this)
    as [Ho1' [Ht1' Hc1']].
  assert (Hd2 : delivered (V2.toCsv JSON_parse d filenameArg config this)
                = delivered (V2.toCsv JSON_parse d filenameArg config this')).
  { unfold delivered. now rewrite Ho2, Ht2. }
  assert (Hd1 : delivered (V1.toCsv JSON_parse d filenameArg config this)
                = delivered (V1.toCsv JSON_parse d filenameArg config this')).
  { unfold delivered. now rewrite Ho1, Ht1. }
  repeat apply conj; try assumption.
  apply extractUniqueKeys_scan.
Qed.

(** The theorem on the flat-records scenario, started once on a fresh
    service and once on the fields an earlier call on other data left. *)
Lemma conversion_is_repeatable_witness :
  outcome (V2.toCsv parseAtoms flatRecords [] (Some noDownloadOnly) newService)
  = outcome (V2.toCsv parseAtoms flatRecords [] (Some noDownloadOnly)
               (after (V2.toCsv parseAtoms mixedRecords (lit "other") None newService))).
Proof.
  exact (proj1 (proj1 (conversion_is_repeatable parseAtoms flatRecords []
                         (Some noDownloadOnly) newService
                         (after (V2.toCsv parseAtoms mixedRecords (lit "other") None
                                   newService))))).
Defined.

(** ** C9: the file name argument *)

Lemma mergedOptions_filename (filenameArg : str) (config : option Config) :
  filename (mergedOptions filenameArg config)
  = match filenameArg with
    | [] => match config with
            | Some c => match filename c with
                        | Some name => Some name
                        | None => Some CsvConfigConsts.DEFAULT_FILENAME
                        end
            | None => Some CsvConfigConsts.DEFAULT_FILENAME
            end
    | _ :: _ => Some filenameArg
    end.
Proof.
  destruct filenameArg; [|reflexivity].
  destruct config as [c|]; [|reflexivity].
  simpl. destruct (filename c); reflexivity.
Qed.

(** C9: on an object or array, given as such or as JSON text, both
    listings leave in [options] the merged
    configuration, whose file name is the file name argument when that is
    not empty, and otherwise the configuration's file name, or [csv.csv]
    when the configuration has none; a download, when there is one, is
    named after it. *)
Theorem filename_argument_overrides_when_not_empty (JSON_parse : str -> parsed)
  (this : service) (d v : value) (filenameArg : str) (config : option Config) :
  normalize JSON_parse d = Some v -> isObjectNotNull v = true ->
  exists o,
    options (after (V2.toCsv JSON_parse d filenameArg config this)) = Some o
    /\ options (after (V1.toCsv JSON_parse d filenameArg config this)) = Some o
    /\ filename o
       = match filenameArg with
         | [] => match config with
                 | Some c => match filename c with
                             | Some name => Some name
                             | None => Some CsvConfigConsts.DEFAULT_FILENAME
                             end
                 | None => Some CsvConfigConsts.DEFAULT_FILENAME
                 end
         | _ :: _ => Some filenameArg
         end
    /\ (forall name type blob,
          In (Download name type blob)
             (trace (V2.toCsv JSON_parse d filenameArg config this)
              ++ trace (V1.toCsv JSON_parse d filenameArg config this)) ->
          name = downloadName o).
Proof.
  intros En Hd.
  rewrite (@V2_toCsv_normalize _ _ _ filenameArg config this En).
  rewrite (@V1_toCsv_normalize _ _ _ filenameArg config this En).
  clear En d. exists (mergedOptions filenameArg config).
  destruct v as [| | | | | records | props]; try discriminate.
  - pose proof (V2_toCsv_records JSON_parse this records filenameArg config) as H2.
    cbv zeta in H2. rewrite V1_toCsv_records.
    set (o := mergedOptions filenameArg config) in *.
    set (keys := firstSeen [] (scan records)) in *.
    assert (E2 : options (after (V2.toCsv JSON_parse (VArr records) filenameArg config this))
                 = Some o
                 /\ forall name type blob,
                      In (Download name type blob)
                         (trace (V2.toCsv JSON_parse (VArr records) filenameArg config this)) ->
                      name = downloadName o).
    { destruct (rowLines V2.formatCellValue (fieldSeparator o) keys records) as [lines|e].
      - rewrite H2. destruct (isSet (noDownload o)); split; try reflexivity.
        + intros name type blob [].
        + intros name type blob [H | []]. now injection H as <- _ _.
      - destruct H2 as [c' H2]. rewrite H2. split; [reflexivity|].
        intros name type blob []. }
    destruct E2 as [Eo2 Et2].
    repeat apply conj.
    + exact Eo2.
    + destruct (rowLines V1.formatCellValue (fieldSeparator o) keys records) as [lines|e];
        [|reflexivity].
      cbv zeta. destruct (prefixText o ++ _); [reflexivity|].
      destruct (isSet (noDownload o)); reflexivity.
    + apply mergedOptions_filename.
    + intros name type blob Hin. apply in_app_or in Hin as [Hin | Hin];
        [now apply (Et2 name type blob)|].
      destruct (rowLines V1.formatCellValue (fieldSeparator o) keys records) as [lines|e];
        [|destruct Hin].
      cbv zeta in Hin. destruct (prefixText o ++ _).
      * destruct Hin as [Hin | []]. discriminate Hin.
      * destruct (isSet (noDownload o)); [destruct Hin|].
        destruct Hin as [Hin | []]. now injection Hin as <- _ _.
  - rewrite V2_toCsv_object, V1_toCsv_object.
    repeat apply conj; try reflexivity.
    + apply mergedOptions_filename.
    + intros name type blob [].
Qed.

(** The theorem on a call with an empty file name argument and the
    configuration [{ filename: 'report' }]: the download is named
    [report.csv]. *)
Lemma filename_argument_overrides_when_not_empty_witness :
  trace (V2.toCsv parseAtoms flatRecords [] (Some namedConfig) newService)
  = [Download (lit "report.csv") mimeType rawHeaderDocument]
  /\ exists o,
       options (after (V2.toCsv parseAtoms flatRecords [] (Some namedConfig) newService))
       = Some o
       /\ filename o = Some (lit "report").
Proof.
  split; [reflexivity|].
  destruct (@filename_argument_overrides_when_not_empty parseAtoms newService flatRecords
              flatRecords [] (Some namedConfig) eq_refl eq_refl) as [o [H2 [_ [Hf _]]]].
  exists o. split; [exact H2 | exact Hf].
Defined.

(** ** C10: the header is not quoted *)



(* ================================================================== *)
(** * Further properties of the code *)

(** ** Decimal numerals *)

Lemma lit_String (c : ascii) (s : string) : lit (String c s) = N_of_ascii c :: lit s.
Proof. reflexivity. Qed.

Lemma numeral_digits (d : Decimal.uint) :
  forallb isDigit (lit (NilEmpty.string_of_uint d)) = true.
Proof. induction d; simpl; try reflexivity; exact IHd. Qed.

Lemma numeral_value (d : Decimal.uint) : forall acc,
  digitsValue acc (lit (NilEmpty.string_of_uint d))
  = Some (DecimalPos.Unsigned.of_lu (Decimal.rev d)
          + acc * 10 ^ DecimalPos.Unsigned.usize d)%N.
Proof.
  induction d as [|d IH|d IH|d IH|d IH|d IH|d IH|d IH|d IH|d IH|d IH]; intros acc.
  1: { simpl. f_equal. now rewrite N.mul_1_r. }
  all: unfold Decimal.rev; simpl Decimal.revapp;
       rewrite DecimalPos.Unsigned.of_lu_revapp;
       simpl NilEmpty.string_of_uint; rewrite lit_String;
       cbn [digitsValue];
       match goal with |- context [isDigit ?c] => change (isDigit c) with true end;
       cbv iota;
       match goal with
       | |- context [(N_of_ascii ?c - 48)%N] =>
           let k := eval vm_compute in (N_of_ascii c - 48)%N in
           change (N_of_ascii c - 48)%N with k
       end;
       rewrite IH; f_equal; simpl DecimalPos.Unsigned.usize;
       rewrite N.pow_succ_r'; simpl DecimalPos.Unsigned.of_lu; unfold Decimal.rev;
       ring.
Qed.

Lemma decimal_digits (n : N) : forallb isDigit (decimal n) = true.
Proof. apply numeral_digits. Qed.

Lemma decimal_not_empty (n : N) : decimal n <> [].
Proof.
  unfold decimal. destruct n as [|p]; [discriminate|].
  simpl N.to_uint. pose proof (DecimalPos.Unsigned.to_uint_nonnil p) as H.
  destruct (Pos.to_uint p); try discriminate. now elim H.
Qed.

Lemma decimal_value (n : N) : digitsValue 0 (decimal n) = Some n.
Proof.
  unfold decimal. rewrite numeral_value. f_equal.
  rewrite N.mul_0_l, N.add_0_r, <- DecimalPos.Unsigned.of_uint_alt.
  apply DecimalN.Unsigned.of_to.
Qed.

Lemma arrayIndex_decimal (n : N) : arrayIndex (decimal n) = Some (N.to_nat n).
Proof.
  unfold arrayIndex. pose proof (decimal_not_empty n) as H.
  destruct (decimal n) as [|c r] eqn:E; [now elim H|].
  rewrite <- E, decimal_value, str_eqb_refl. reflexivity.
Qed.

(** ** Segments *)

Lemma splitOn_not_nil (sep : codeunit) (s : str) : splitOn sep s <> [].
Proof.
  induction s as [|c r IH]; simpl; [discriminate|].
  destruct (N.eqb c sep); [discriminate|].
  destruct (splitOn sep r); [now elim IH | discriminate].
Qed.

Lemma splitOn_segment (seg rest : str) :
  noDot seg = true ->
  splitOn DOT (seg ++ DOT :: rest) = seg :: splitOn DOT rest.
Proof.
  induction seg as [|c r IH]; intros H.
  - cbn [app splitOn]. now rewrite N.eqb_refl.
  - cbn [noDot forallb] in H. apply andb_true_iff in H as [Hc Hr].
    cbn [app splitOn]. apply negb_true_iff in Hc. rewrite Hc.
    now rewrite (IH Hr).
Qed.

Lemma splitOn_last (seg : str) : noDot seg = true -> splitOn DOT seg = [seg].
Proof.
  induction seg as [|c r IH]; intros H; [reflexivity|].
  cbn [noDot forallb] in H. apply andb_true_iff in H as [Hc Hr].
  cbn [splitOn]. apply negb_true_iff in Hc. rewrite Hc.
  now rewrite (IH Hr).
Qed.

Lemma andThen_Normal {A} (c : completion A) : andThen c Normal = c.
Proof. now destruct c. Qed.

(** Resolving a path is resolving its first segment, then the rest. *)
Lemma resolve_segment_then (obj : value) (seg rest : str) :
  noDot seg = true ->
  getNestedObjectValue obj (seg ++ DOT :: rest)
  = andThen (resolveSegment obj seg) (fun c => getNestedObjectValue c rest).
Proof.
  intros H. unfold getNestedObjectValue. now rewrite splitOn_segment by assumption.
Qed.

Lemma resolve_last_segment (obj : value) (seg : str) :
  noDot seg = true ->
  getNestedObjectValue obj seg = resolveSegment obj seg.
Proof.
  intros H. unfold getNestedObjectValue. rewrite splitOn_last by assumption.
  cbn [resolveSegments]. apply andThen_Normal.
Qed.

Lemma isWord_not_dot (c : codeunit) : isWord c = true -> N.eqb c DOT = false.
Proof.
  intros H. destruct (N.eqb c DOT) eqn:E; [|reflexivity].
  apply N.eqb_eq in E. subst c. discriminate H.
Qed.

Lemma isDigit_isWord (c : codeunit) : isDigit c = true -> isWord c = true.
Proof. intros H. unfold isWord. now rewrite H. Qed.

Lemma wordName_noDot (key : str) : isWordName key = true -> noDot key = true.
Proof.
  unfold isWordName, noDot. induction key as [|c r IH]; [reflexivity|].
  cbn [forallb]. intros H. apply andb_true_iff in H as [Hc Hr].
  rewrite isWord_not_dot by assumption. now rewrite (IH Hr).
Qed.

Lemma matchFrom_word (name : str) : forall word rest,
  isWordName name = true ->
  matchFrom word (name ++ rest) = matchFrom (word ++ name) rest.
Proof.
  unfold isWordName. induction name as [|c r IH]; intros word rest H.
  - now rewrite app_nil_r.
  - cbn [forallb] in H. apply andb_true_iff in H as [Hc Hr].
    cbn [app matchFrom]. rewrite Hc, IH by assumption. now rewrite <- app_assoc.
Qed.

Lemma matchFrom_end (word : str) : matchFrom word [] = None.
Proof. reflexivity. Qed.

(** A name of word characters alone holds no bracket pattern. *)
Lemma wordName_plain (key : str) : isWordName key = true -> isPlain key = true.
Proof.
  intros H. unfold isPlain. rewrite wordName_noDot by assumption.
  unfold matchIndexed. rewrite <- (app_nil_r key), matchFrom_word by assumption.
  reflexivity.
Qed.

Lemma spanDigits_numeral (ds : str) (c : codeunit) (rest : str) :
  forallb isDigit ds = true -> isDigit c = false ->
  spanDigits (ds ++ c :: rest) = (ds, c :: rest).
Proof.
  induction ds as [|d r IH]; intros H Hc.
  - cbn [app spanDigits]. now rewrite Hc.
  - cbn [forallb] in H. apply andb_true_iff in H as [Hd Hr].
    cbn [app spanDigits]. now rewrite Hd, (IH Hr Hc).
Qed.

(** The bracket pattern on [name[index]]: the groups are the name and the
    index. *)
Lemma matchIndexed_indexed (key : str) (n : N) :
  isWordName key = true -> key <> [] ->
  matchIndexed (key ++ LBRACKET :: decimal n ++ [RBRACKET]) = Some (key, decimal n).
Proof.
  intros Hw Hne. unfold matchIndexed. rewrite matchFrom_word by assumption.
  cbn [app matchFrom]. change (isWord LBRACKET) with false.
  rewrite N.eqb_refl. cbv iota.
  destruct key as [|c r]; [now elim Hne|].
  unfold bracketIndex.
  rewrite spanDigits_numeral by (apply decimal_digits || reflexivity).
  pose proof (decimal_not_empty n) as Hd.
  destruct (decimal n) as [|d ds]; [now elim Hd|].
  now rewrite N.eqb_refl.
Qed.

Lemma indexed_noDot (key : str) (n : N) :
  isWordName key = true ->
  noDot (key ++ LBRACKET :: decimal n ++ [RBRACKET]) = true.
Proof.
  intros H. unfold noDot. rewrite forallb_app. fold (noDot key).
  rewrite wordName_noDot by assumption. cbn [forallb andb]. change (negb (N.eqb LBRACKET DOT)) with true.
  cbn [andb]. rewrite forallb_app. cbn [forallb].
  change (negb (N.eqb RBRACKET DOT)) with true. rewrite andb_true_r.
  pose proof (decimal_digits n) as Hd. revert Hd. generalize (decimal n).
  intros ds. induction ds as [|c r IH]; [reflexivity|]. cbn [forallb].
  intros Hd. apply andb_true_iff in Hd as [Hc Hr].
  rewrite isWord_not_dot by (now apply isDigit_isWord). now rewrite (IH Hr).
Qed.

Lemma getProp_index (items : list value) (index : nat) :
  getProp (VArr items) (decimal (N.of_nat index))
  = Normal (match nth_error items index with Some x => x | None => VUndefined end).
Proof.
  unfold getProp. now rewrite arrayIndex_decimal, Nat2N.id.
Qed.

(** Resolving the segment [name[index]] reads the element of the array held
    under the name. *)
Lemma resolveSegment_indexed (props : list (str * value)) (key : str)
  (items : list value) (index : nat) :
  isWordName key = true -> key <> [] -> ownProperty key props = VArr items ->
  resolveSegment (VObj props) (key ++ LBRACKET :: decimal (N.of_nat index) ++ [RBRACKET])
  = Normal (match nth_error items index with Some x => x | None => VUndefined end).
Proof.
  intros Hw Hne Hp. unfold resolveSegment.
  rewrite matchIndexed_indexed by assumption. cbn [getProp andThen].
  rewrite Hp. apply getProp_index.
Qed.

Lemma resolveSegment_plain (props : list (str * value)) (key : str) :
  isPlain key = true ->
  resolveSegment (VObj props) key = Normal (ownProperty key props).
Proof.
  unfold isPlain, resolveSegment. intros H. apply andb_true_iff in H as [_ H].
  destruct (matchIndexed key); [discriminate|reflexivity].
Qed.

(** ** X1: discovered key paths resolve *)

Lemma indexed_path_shape (key : str) (n : N) (p : str) :
  key ++ lit "[" ++ decimal n ++ lit "]." ++ p
  = (key ++ LBRACKET :: decimal n ++ [RBRACKET]) ++ DOT :: p.
Proof.
  change (lit "[" ++ decimal n ++ lit "]." ++ p)
    with (LBRACKET :: decimal n ++ RBRACKET :: DOT :: p).
  rewrite <- app_assoc. cbn [app]. now rewrite <- app_assoc.
Qed.






(** ** X2, X3, X4: paths that throw *)

Lemma getProp_nullish (v : value) (k : str) :
  isNullish v = true -> getProp v k = Throw TypeError.
Proof. destruct v; try discriminate; reflexivity. Qed.

Lemma resolveSegment_nullish (v : value) (seg : str) :
  isNullish v = true -> resolveSegment v seg = Throw TypeError.
Proof.
  intros H. unfold resolveSegment.
  destruct (matchIndexed seg) as [[name index]|];
    rewrite getProp_nullish by assumption; reflexivity.
Qed.

(** Whatever the path, nothing resolves from [undefined] or [null]. *)
Lemma resolve_nullish (v : value) (path : str) :
  isNullish v = true -> getNestedObjectValue v path = Throw TypeError.
Proof.
  intros H. unfold getNestedObjectValue.
  pose proof (splitOn_not_nil DOT path) as Hne.
  destruct (splitOn DOT path) as [|seg segs]; [now elim Hne|].
  cbn [resolveSegments]. now rewrite resolveSegment_nullish.
Qed.

Lemma getProp_throws (v : value) (k : str) (e : exn) :
  getProp v k = Throw e -> e = TypeError.
Proof.
  destruct v; cbn [getProp]; try discriminate; try congruence;
    destruct (arrayIndex k); discriminate.
Qed.

Lemma resolveSegment_throws (v : value) (seg : str) (e : exn) :
  resolveSegment v seg = Throw e -> e = TypeError.
Proof.
  unfold resolveSegment. destruct (matchIndexed seg) as [[name index]|].
  - destruct (getProp v name) as [a|e'] eqn:E; cbn [andThen].
    + apply getProp_throws.
    + intros [= <-]. now apply getProp_throws in E.
  - apply getProp_throws.
Qed.

(** The only exception the resolver raises is a [TypeError]. *)
Lemma resolve_throws (obj : value) (key : str) (e : exn) :
  getNestedObjectValue obj key = Throw e -> e = TypeError.
Proof.
  unfold getNestedObjectValue. generalize (splitOn DOT key). intros segs.
  revert obj. induction segs as [|seg segs IH]; intros obj; cbn [resolveSegments].
  - discriminate.
  - destruct (resolveSegment obj seg) as [c|e'] eqn:E; cbn [andThen].
    + apply IH.
    + intros [= <-]. now apply resolveSegment_throws in E.
Qed.

Lemma formatCellValue_throws (obj : value) (key : str) (e : exn) :
  getNestedObjectValue obj key = Throw e ->
  V1.formatCellValue obj key = Throw TypeError.
Proof.
  intros H. unfold V1.formatCellValue. rewrite H. cbn [andThen].
  now rewrite (resolve_throws _ _ H).
Qed.

Lemma formatCellValue_only_TypeError (obj : value) (key : str) (e : exn) :
  V1.formatCellValue obj key = Throw e -> e = TypeError.
Proof.
  unfold V1.formatCellValue.
  destruct (getNestedObjectValue obj key) as [v|e'] eqn:E; cbn [andThen];
    [discriminate|].
  intros [= <-]. now apply resolve_throws in E.
Qed.

(** A traversal with a step that throws, throws. *)
Lemma mapC_throws {A B} (f : A -> completion B) (xs : list A) (x : A) :
  (forall y e, f y = Throw e -> e = TypeError) ->
  In x xs -> f x = Throw TypeError -> mapC f xs = Throw TypeError.
Proof.
  intros Honly. induction xs as [|y r IH]; intros Hin Hx; [contradiction|].
  cbn [mapC]. destruct (f y) as [b|e] eqn:Ey; cbn [andThen].
  - destruct Hin as [-> | Hin]; [congruence|].
    now rewrite (IH Hin Hx).
  - now rewrite (Honly _ _ Ey).
Qed.

Lemma mapC_only_TypeError {A B} (f : A -> completion B) (xs : list A) (e : exn) :
  (forall y e, f y = Throw e -> e = TypeError) ->
  mapC f xs = Throw e -> e = TypeError.
Proof.
  intros Honly. induction xs as [|y r IH]; cbn [mapC]; [discriminate|].
  destruct (f y) as [b|e'] eqn:Ey; cbn [andThen].
  - destruct (mapC f r) as [bs|e'']; cbn [andThen]; [discriminate|].
    intros [= <-]. now apply IH.
  - intros [= <-]. now apply Honly in Ey.
Qed.

Lemma rowLine_only_TypeError (sep : option str) (keys : list str) (obj : value) (e : exn) :
  rowLine V1.formatCellValue sep keys obj = Throw e -> e = TypeError.
Proof.
  unfold rowLine.
  destruct (mapC (V1.formatCellValue obj) keys) as [row|e'] eqn:E; cbn [andThen];
    [discriminate|].
  intros [= <-]. revert E. apply mapC_only_TypeError.
  intros y e0. apply formatCellValue_only_TypeError.
Qed.

(** The rows of a collection throw as soon as one cell does. *)
Lemma rowLines_throws (sep : option str) (keys : list str) (records : list value)
  (r : value) (key : str) (e : exn) :
  In r records -> In key keys -> getNestedObjectValue r key = Throw e ->
  rowLines V1.formatCellValue sep keys records = Throw TypeError.
Proof.
  intros Hr Hk He. unfold rowLines.
  apply mapC_throws with (x := r); [|assumption|].
  - intros y e0. apply rowLine_only_TypeError.
  - unfold rowLine.
    rewrite mapC_throws with (x := key); [reflexivity| |assumption|].
    + intros y e0. apply formatCellValue_only_TypeError.
    + now apply formatCellValue_throws with (e := e).
Qed.

(** X2: a path whose first segment names a field that the record lacks, or
    holds as [null] or [undefined], cannot be read further: the resolver
    throws a [TypeError], whatever follows the dot.  The segment is a plain
    one, and it is not the name of a member that every object inherits
    ([constructor], [toString], ...), of which the record has a value
    without holding the field. *)
Theorem path_through_missing_field_throws (props : list (str * value))
  (seg rest : str) :
  isPlain seg = true -> isInherited seg = false ->
  isNullish (ownProperty seg props) = true ->
  getNestedObjectValue (VObj props) (seg ++ DOT :: rest) = Throw TypeError.
Proof.
  intros Hp _ Hn. pose proof Hp as Hd. unfold isPlain in Hd.
  apply andb_true_iff in Hd as [Hd _].
  rewrite resolve_segment_then by assumption.
  rewrite resolveSegment_plain by assumption. cbn [andThen].
  now apply resolve_nullish.
Qed.

(** The theorem on [{c:2}] and the path [a.b]. *)
Lemma path_through_missing_field_throws_witness :
  getNestedObjectValue (VObj [(lit "c", VNum 2)]) (lit "a" ++ DOT :: lit "b")
  = Throw TypeError.
Proof.
  apply (@path_through_missing_field_throws [(lit "c", VNum 2)] (lit "a") (lit "b"));
    reflexivity.
Defined.

(** X3: a path through the element of an array at an index the array does
    not reach cannot be read further.  For a field whose name is not empty
    and made of word characters only, so that the segment [key[index]] is
    read as that field and that index, and whose array has no element at
    [index], the resolver throws a [TypeError]. *)
Theorem path_through_missing_element_throws (props : list (str * value))
  (key : str) (items : list value) (index : nat) (rest : str) :
  isWordName key = true -> key <> [] -> ownProperty key props = VArr items ->
  List.length items <= index ->
  getNestedObjectValue (VObj props)
    (key ++ lit "[" ++ decimal (N.of_nat index) ++ lit "]." ++ rest)
  = Throw TypeError.
Proof.
  intros Hw Hne Hown Hlen.
  rewrite indexed_path_shape.
  rewrite resolve_segment_then by now apply indexed_noDot.
  rewrite resolveSegment_indexed with (items := items) by assumption.
  apply nth_error_None in Hlen. rewrite Hlen. cbn [andThen].
  now apply resolve_nullish.
Qed.

(** The theorem on [{t:[{id:3}]}] and the path [t[1].id]. *)
Lemma path_through_missing_element_throws_witness :
  getNestedObjectValue (VObj [(lit "t", VArr [VObj [(lit "id", VNum 3)]])])
    (lit "t" ++ lit "[" ++ decimal (N.of_nat 1) ++ lit "]." ++ lit "id")
  = Throw TypeError.
Proof.
  apply (@path_through_missing_element_throws
           [(lit "t", VArr [VObj [(lit "id", VNum 3)]])] (lit "t")
           [VObj [(lit "id", VNum 3)]] 1 (lit "id"));
    [reflexivity | discriminate | reflexivity | apply le_n].
Defined.

(** X4: one cell that cannot be resolved fails the whole call.  When a key
    path of the key path set throws against some record, both listings
    throw a [TypeError]; nothing is returned, logged or downloaded. *)
Theorem one_failing_cell_fails_the_call (JSON_parse : str -> parsed) (this : service)
  (d : value) (records : list value) (filenameArg : str) (config : option Config)
  (keys : list str) (r : value) (key : str) (e : exn) :
  normalize JSON_parse d = Some (VArr records) ->
  extractUniqueKeys (VArr records) = Normal keys ->
  In r records -> In key keys -> getNestedObjectValue r key = Throw e ->
  outcome (V2.toCsv JSON_parse d filenameArg config this) = Throw TypeError
  /\ trace (V2.toCsv JSON_parse d filenameArg config this) = []
  /\ outcome (V1.toCsv JSON_parse d filenameArg config this) = Throw TypeError
  /\ trace (V1.toCsv JSON_parse d filenameArg config this) = [].
Proof.
  intros En Hkeys Hr Hk He.
  rewrite (@V2_toCsv_normalize _ _ _ filenameArg config this En).
  rewrite (@V1_toCsv_normalize _ _ _ filenameArg config this En).
  rewrite extractUniqueKeys_scan in Hkeys. injection Hkeys as <-.
  pose proof (V2_toCsv_records JSON_parse this records filenameArg config) as H2.
  cbv zeta in H2. rewrite rowLines_listings in H2.
  rewrite V1_toCsv_records.
  rewrite (@rowLines_throws (fieldSeparator (mergedOptions filenameArg config))
             _ _ _ _ _ Hr Hk He) in *.
  destruct H2 as [c' H2]. rewrite H2. repeat apply conj; reflexivity.
Qed.

(** The theorem on [[{a:{b:1}}, {c:2}]]. *)
Lemma one_failing_cell_fails_the_call_witness :
  outcome (V2.toCsv parseAtoms mixedNested [] None newService) = Throw TypeError
  /\ trace (V2.toCsv parseAtoms mixedNested [] None newService) = []
  /\ outcome (V1.toCsv parseAtoms mixedNested [] None newService) = Throw TypeError
  /\ trace (V1.toCsv parseAtoms mixedNested [] None newService) = [].
Proof.
  apply (@one_failing_cell_fails_the_call parseAtoms newService mixedNested
           [VObj [(lit "a", VObj [(lit "b", VNum 1)])]; VObj [(lit "c", VNum 2)]]
           [] None [lit "a.b"; lit "c"] (VObj [(lit "c", VNum 2)]) (lit "a.b") TypeError);
    try reflexivity.
  - right. now left.
  - now left.
Defined.

(** ** X5: flat records *)

Lemma flat_discovered (props : list (str * value)) :
  forallb (fun p => isPlain (fst p) && isLeaf (snd p)) props = true ->
  discovered (VObj props) [] = map fst props.
Proof.
  rewrite discovered_obj.
  induction props as [|[key v] ps IH]; intros H; [reflexivity|].
  cbn [forallb fst snd] in H. apply andb_true_iff in H as [Hkv Hps].
  apply andb_true_iff in Hkv as [_ Hv].
  cbn [discoveredProps map fst]. rewrite (IH Hps).
  destruct v; try discriminate; reflexivity.
Qed.

(** The key paths of a collection of flat records are field names. *)
Lemma flat_keys_are_names (records : list value) (key : str) :
  forallb isFlatRecord records = true ->
  In key (firstSeen [] (scan records)) ->
  isPlain key = true.
Proof.
  intros Hflat Hin. apply firstSeen_In in Hin as [Hin _].
  unfold scan in Hin. apply in_flat_map in Hin as [r [Hr Hk]].
  rewrite forallb_forall in Hflat. specialize (Hflat r Hr).
  destruct r as [| | | | | |props]; try discriminate.
  cbn [isFlatRecord] in Hflat. rewrite (flat_discovered _ Hflat) in Hk.
  apply in_map_iff in Hk as [[k v] [<- Hkv]].
  rewrite forallb_forall in Hflat. specialize (Hflat _ Hkv).
  now apply andb_true_iff in Hflat as [Hp _].
Qed.

Lemma resolve_plain (props : list (str * value)) (key : str) :
  isPlain key = true ->
  getNestedObjectValue (VObj props) key = Normal (ownProperty key props).
Proof.
  intros H. pose proof H as Hd. unfold isPlain in Hd.
  apply andb_true_iff in Hd as [Hd _].
  rewrite resolve_last_segment by assumption.
  now apply resolveSegment_plain.
Qed.

(** X5: on a collection of flat records with plain field names a call
    never throws, however the records differ in their fields: the second
    listing delivers a document, the first completes, and the cell of a
    record in the column of a key is the quoted text of what the record
    holds under that key, [undefined] when it holds nothing.  The last part
    is for a key that is not the name of a member every object inherits
    ([constructor], [toString], ...): under such a name a record that lacks
    the field still has a value. *)
Theorem flat_records_never_throw (JSON_parse : str -> parsed) (this : service)
  (d : value) (records : list value) (filenameArg : str) (config : option Config) :
  normalize JSON_parse d = Some (VArr records) ->
  forallb isFlatRecord records = true ->
  exists keys,
    extractUniqueKeys (VArr records) = Normal keys
    /\ (exists doc, delivered (V2.toCsv JSON_parse d filenameArg config this) = Some doc)
    /\ (exists r, outcome (V1.toCsv JSON_parse d filenameArg config this) = Normal r)
    /\ (forall props key,
          In (VObj props) records -> In key keys -> isInherited key = false ->
          V2.formatCellValue (VObj props) key
          = Normal (quoted (replaceQuotes (cellText (ownProperty key props))))).
Proof.
  intros En Hflat. exists (firstSeen [] (scan records)).
  rewrite (@V2_toCsv_normalize _ _ _ filenameArg config this En).
  rewrite (@V1_toCsv_normalize _ _ _ filenameArg config this En).
  set (o := mergedOptions filenameArg config).
  assert (Hres : forall obj key, In obj records -> In key (firstSeen [] (scan records)) ->
                   exists v, getNestedObjectValue obj key = Normal v).
  { intros obj key Hobj Hkey.
    pose proof (flat_keys_are_names records key Hflat Hkey) as Hp.
    rewrite forallb_forall in Hflat. specialize (Hflat obj Hobj).
    destruct obj as [| | | | | |props]; try discriminate.
    eexists. now apply resolve_plain. }
  destruct (@rowLines_Normal _ records (fieldSeparator o) Hres) as [lines Hlines].
  repeat apply conj.
  - apply extractUniqueKeys_scan.
  - rewrite V2_delivered. fold o. rewrite rowLines_listings, Hlines.
    eexists; reflexivity.
  - rewrite V1_toCsv_records. fold o. rewrite Hlines. cbv zeta.
    destruct (prefixText o ++ _); [eexists; reflexivity|].
    destruct (isSet (noDownload o)); eexists; reflexivity.
  - intros props key Hobj Hkey _.
    pose proof (flat_keys_are_names records key Hflat Hkey) as Hp.
    rewrite formatCellValue_listings.
    now apply formatCellValue_Normal, resolve_plain.
Qed.

(** The theorem on [[{a:1}, {b:2}]]. *)
Lemma flat_records_never_throw_witness :
  exists keys,
    extractUniqueKeys mixedRecords = Normal keys
    /\ (exists doc, delivered (V2.toCsv parseAtoms mixedRecords [] None newService) = Some doc)
    /\ (exists r, outcome (V1.toCsv parseAtoms mixedRecords [] None newService) = Normal r)
    /\ (forall props key,
          In (VObj props) [VObj [(lit "a", VNum 1)]; VObj [(lit "b", VNum 2)]] ->
          In key keys -> isInherited key = false ->
          V2.formatCellValue (VObj props) key
          = Normal (quoted (replaceQuotes (cellText (ownProperty key props))))).
Proof.
  apply (@flat_records_never_throw parseAtoms newService mixedRecords
           [VObj [(lit "a", VNum 1)]; VObj [(lit "b", VNum 2)]] [] None);
    reflexivity.
Defined.

(** ** X6, X7: the key path set under a prefix and under more records *)

Lemma discoveredChars_prefix (pfx q : str) (s : str) : forall n,
  discoveredChars (pfx ++ q) s n = map (app pfx) (discoveredChars q s n).
Proof.
  induction s as [|c r IH]; intros n; [reflexivity|].
  cbn [discoveredChars map]. now rewrite IH, app_assoc.
Qed.

Lemma discoveredItems_prefix (pfx q key : str) (items : list value) :
  Forall (fun x => forall pfx q, discovered x (pfx ++ q) = map (app pfx) (discovered x q))
         items ->
  forall n, discoveredItems (pfx ++ q) key items n
            = map (app pfx) (discoveredItems q key items n).
Proof.
  induction 1 as [|it its Hit _ IH]; intros n; [reflexivity|].
  cbn [discoveredItems]. rewrite map_app, <- IH, <- Hit.
  now rewrite <- !app_assoc.
Qed.

(** The prefix is put in front of every key, and nothing else changes. *)
Lemma discovered_prefix (obj : value) :
  forall pfx q, discovered obj (pfx ++ q) = map (app pfx) (discovered obj q).
Proof.
  enough (H : (forall pfx q, discovered obj (pfx ++ q) = map (app pfx) (discovered obj q))
              /\ match obj with
                 | VArr items =>
                     Forall (fun x => forall pfx q,
                               discovered x (pfx ++ q) = map (app pfx) (discovered x q))
                            items
                 | _ => True
                 end) by apply H.
  assert (Hprop : forall pfx q key v,
             (forall pfx q, discovered v (pfx ++ q) = map (app pfx) (discovered v q)) ->
             match v with
             | VArr items =>
                 Forall (fun x => forall pfx q,
                           discovered x (pfx ++ q) = map (app pfx) (discovered x q)) items
             | _ => True
             end ->
             discoveredProperty (pfx ++ q) key v
             = map (app pfx) (discoveredProperty q key v)).
  { intros pfx q key v Hv Hdeep.
    destruct v as [| | ? | ? | ? | items | ?]; cbn [discoveredProperty map];
      first [ now apply discoveredItems_prefix
            | rewrite <- Hv; now rewrite <- !app_assoc
            | now rewrite <- app_assoc ]. }
  induction obj as [| | b | z | s | items IH | props IH] using value_nested_ind;
    try (split; [reflexivity | exact I]).
  - split; [|exact I]. intros pfx q. rewrite !discovered_str.
    apply discoveredChars_prefix.
  - assert (Hshallow : Forall (fun x => forall pfx q,
                         discovered x (pfx ++ q) = map (app pfx) (discovered x q)) items).
    { eapply Forall_impl; [|exact IH]. intros a Ha. apply Ha. }
    split; [|exact Hshallow]. clear Hshallow.
    intros pfx q. rewrite !discovered_arr. generalize 0.
    induction IH as [|v es [Hv Hdeep] _ IHes]; intros n; [reflexivity|].
    cbn [discoveredElems]. rewrite map_app, <- IHes. f_equal.
    now apply Hprop.
  - split; [|exact I].
    intros pfx q. rewrite !discovered_obj.
    induction IH as [|[key v] ps [Hv Hdeep] _ IHps]; [reflexivity|].
    cbn [discoveredProps]. rewrite map_app, IHps. f_equal.
    now apply Hprop.
Qed.

Lemma firstSeen_map (f : str -> str) (seen ks : list str) :
  (forall a b, f a = f b -> a = b) ->
  firstSeen (map f seen) (map f ks) = map f (firstSeen seen ks).
Proof.
  intros Hinj. revert seen. induction ks as [|k r IH]; intros seen; [reflexivity|].
  cbn [map firstSeen].
  assert (E : existsb (str_eqb (f k)) (map f seen) = existsb (str_eqb k) seen).
  { destruct (existsb (str_eqb k) seen) eqn:Ek.
    - apply mem_In. apply mem_In in Ek. now apply in_map.
    - apply mem_false. apply mem_false in Ek. intros Hin.
      apply in_map_iff in Hin as [x [Hx Hin]]. apply Hinj in Hx. now subst. }
  rewrite E. destruct (existsb (str_eqb k) seen).
  - apply IH.
  - cbn [map]. f_equal. apply (IH (k :: seen)).
Qed.

Lemma extractUniqueKeysFrom_scan (records : list value) (pfx : str) :
  extractUniqueKeysFrom (VArr records) pfx
  = Normal (firstSeen [] (flat_map (fun r => discovered r pfx) records)).
Proof.
  unfold extractUniqueKeysFrom. f_equal.
  change (firstSeen [] (flat_map (fun r => discovered r pfx) records))
    with ([] ++ firstSeen [] (flat_map (fun r => discovered r pfx) records)).
  rewrite <- addAll_firstSeen. generalize (@nil str).
  induction records as [|r rs IH]; intros keys; [reflexivity|].
  cbn [fold_left flat_map]. rewrite IH, addAll_app.
  now rewrite extract_discovered.
Qed.

(** X6: [extractUniqueKeys(arr, keyPrefix)] gives the key paths of
    [extractUniqueKeys(arr)], in the same order, each with the prefix put in
    front. *)
Theorem key_prefix_is_prepended (records : list value) (keyPrefix : str) :
  exists keys,
    extractUniqueKeys (VArr records) = Normal keys
    /\ extractUniqueKeysFrom (VArr records) keyPrefix
       = Normal (map (app keyPrefix) keys).
Proof.
  exists (firstSeen [] (scan records)). split; [apply extractUniqueKeys_scan|].
  rewrite extractUniqueKeysFrom_scan. f_equal.
  assert (E : flat_map (fun r => discovered r keyPrefix) records
              = map (app keyPrefix) (scan records)).
  { unfold scan. induction records as [|r rs IH]; [reflexivity|].
    cbn [flat_map]. rewrite map_app, IH. f_equal.
    transitivity (discovered r (keyPrefix ++ []));
      [now rewrite app_nil_r | apply discovered_prefix]. }
  rewrite E. apply (firstSeen_map (app keyPrefix) [] (scan records)).
  intros a b. apply app_inv_head.
Qed.

Lemma firstSeen_app (seen a b : list str) :
  firstSeen seen (a ++ b) = firstSeen seen a ++ firstSeen (seen ++ firstSeen seen a) b.
Proof.
  pose proof (addAll_firstSeen (a ++ b) seen) as H.
  rewrite addAll_app, !addAll_firstSeen, <- app_assoc in H.
  now apply app_inv_head in H.
Qed.

Lemma scan_app (a b : list value) : scan (a ++ b) = scan a ++ scan b.
Proof. unfold scan. apply flat_map_app. Qed.

(** X7: records added at the end of a collection leave the columns of the
    collection where they are: the key path set of the longer collection
    starts with the key path set of the shorter one, in the same order, and
    goes on with exactly those key paths of the added records that are not
    already there. *)
Theorem more_records_only_add_columns (records added : list value) :
  exists keys keysAdded extra,
    extractUniqueKeys (VArr records) = Normal keys
    /\ extractUniqueKeys (VArr added) = Normal keysAdded
    /\ extractUniqueKeys (VArr (records ++ added)) = Normal (keys ++ extra)
    /\ (forall k, In k extra <-> In k keysAdded /\ ~ In k keys)
    /\ NoDup (keys ++ extra).
Proof.
  exists (firstSeen [] (scan records)), (firstSeen [] (scan added)),
         (firstSeen (firstSeen [] (scan records)) (scan added)).
  repeat apply conj; try apply extractUniqueKeys_scan.
  - rewrite extractUniqueKeys_scan, scan_app, firstSeen_app. reflexivity.
  - intros k. rewrite !firstSeen_In. cbn [In]. tauto.
  - pose proof (firstSeen_NoDup [] (scan records ++ scan added)) as H.
    rewrite firstSeen_app in H. exact H.
Qed.

(** ** X8: strings inside arrays *)

Lemma discoveredChars_In (pfx : str) (s : str) : forall n j c,
  nth_error s j = Some c ->
  In (pfx ++ decimal (N.of_nat (n + j))) (discoveredChars pfx s n).
Proof.
  induction s as [|x r IH]; intros n [|j] c H; try discriminate.
  - rewrite Nat.add_0_r. now left.
  - right. rewrite <- Nat.add_succ_comm. now apply IH with (c := c).
Qed.

Lemma decimal_wordName (n : N) : isWordName (decimal n) = true.
Proof.
  unfold isWordName. pose proof (decimal_digits n) as H. revert H.
  generalize (decimal n). intros ds.
  induction ds as [|c r IH]; [reflexivity|]. cbn [forallb]. intros H.
  apply andb_true_iff in H as [Hc Hr].
  rewrite isDigit_isWord by assumption. now apply IH.
Qed.

Lemma getProp_character (s : str) (j : nat) :
  getProp (VStr s) (decimal (N.of_nat j))
  = Normal (match nth_error s j with Some c => VStr [c] | None => VUndefined end).
Proof. unfold getProp. now rewrite arrayIndex_decimal, Nat2N.id. Qed.

(** X8: a string that is an element of an array is scanned character by
    character.  For the element [index] of the array held under [key], every
    position [j] of the string is a key path [key[index].j] of the key path
    set.  When the name [key] is not empty and made of word characters only,
    so that the segment [key[index]] is read as that field and that index,
    the resolver reads the one-character string at that position along the
    path. *)
Theorem string_element_has_a_column_per_character (records : list value)
  (props : list (str * value)) (key : str) (items : list value) (index : nat)
  (s : str) (j : nat) (c : codeunit) :
  In (VObj props) records ->
  holds props key (VArr items) ->
  nth_error items index = Some (VStr s) -> nth_error s j = Some c ->
  exists keys,
    extractUniqueKeys (VArr records) = Normal keys
    /\ In (key ++ lit "[" ++ decimal (N.of_nat index) ++ lit "]." ++ decimal (N.of_nat j)) keys
    /\ (isWordName key = true -> key <> [] ->
        getNestedObjectValue (VObj props)
          (key ++ lit "[" ++ decimal (N.of_nat index) ++ lit "]." ++ decimal (N.of_nat j))
        = Normal (VStr [c])).
Proof.
  intros Hr [Hin Hown] Hitem Hc.
  exists (firstSeen [] (scan records)). repeat apply conj.
  - apply extractUniqueKeys_scan.
  - apply firstSeen_In. split; [|intros []].
    unfold scan. apply in_flat_map. exists (VObj props). split; [assumption|].
    rewrite discovered_obj.
    apply (discoveredProps_incl [] _ _ _ Hin). cbn [discoveredProperty].
    apply (discoveredItems_incl [] key items 0 index Hitem).
    rewrite discovered_str. cbn [app].
    pose proof (discoveredChars_In
                  (key ++ lit "[" ++ decimal (N.of_nat index) ++ lit "].") s 0 j Hc) as H.
    cbn [Nat.add] in H. now rewrite <- !app_assoc in H.
  - intros Hw Hne. rewrite indexed_path_shape.
    rewrite resolve_segment_then by now apply indexed_noDot.
    rewrite resolveSegment_indexed with (items := items) by assumption.
    rewrite Hitem. cbn [andThen].
    rewrite resolve_last_segment by (apply wordName_noDot, decimal_wordName).
    unfold resolveSegment.
    pose proof (wordName_plain _ (decimal_wordName (N.of_nat j))) as Hp.
    unfold isPlain in Hp. apply andb_true_iff in Hp as [_ Hp].
    destruct (matchIndexed (decimal (N.of_nat j))); [discriminate|].
    now rewrite getProp_character, Hc.
Qed.

(** The theorem on [{tags:['ab']}]: the key path [tags[0].1] reads [b]. *)
Lemma string_element_has_a_column_per_character_witness :
  exists keys,
    extractUniqueKeys (VArr [stringTags]) = Normal keys
    /\ In (lit "tags" ++ lit "[" ++ decimal (N.of_nat 0) ++ lit "]." ++ decimal (N.of_nat 1))
          keys
    /\ getNestedObjectValue (VObj [(lit "tags", VArr [VStr (lit "ab")])])
         (lit "tags" ++ lit "[" ++ decimal (N.of_nat 0) ++ lit "]." ++ decimal (N.of_nat 1))
       = Normal (VStr [98%N]).
Proof.
  destruct (@string_element_has_a_column_per_character [stringTags]
              [(lit "tags", VArr [VStr (lit "ab")])] (lit "tags") [VStr (lit "ab")] 0
              (lit "ab") 1 98%N)
    as [keys [Hk [Hin Hres]]];
    [now left | split; [now left | reflexivity] | reflexivity | reflexivity |].
  exists keys. repeat apply conj; [exact Hk | exact Hin |].
  apply Hres; [reflexivity | discriminate].
Defined.

(** ** X9: [getNestedValues] *)

Lemma mapC_Normal_iff {A B} (f : A -> completion B) (xs : list A) (ys : list B) :
  mapC f xs = Normal ys <-> Forall2 (fun x y => f x = Normal y) xs ys.
Proof.
  split; [intros H; now apply mapC_Forall2|].
  induction 1 as [|x y r ys' Hx _ IH]; [reflexivity|].
  cbn [mapC]. now rewrite Hx, IH.
Qed.

(** X9: [getNestedValues] gives the values of a key path record by record,
    as many as there are records and in their order, exactly when the path
    resolves in every record; it throws a [TypeError] exactly when the path
    throws in some record. *)
Theorem getNestedValues_is_all_or_nothing (records : list value) (key : str) :
  (forall values,
     getNestedValues (VArr records) key = Normal values
     <-> Forall2 (fun r v => getNestedObjectValue r key = Normal v) records values)
  /\ (getNestedValues (VArr records) key = Throw TypeError
      <-> exists r, In r records /\ getNestedObjectValue r key = Throw TypeError)
  /\ (forall values,
        getNestedValues (VArr records) key = Normal values ->
        List.length values = List.length records).
Proof.
  unfold getNestedValues. split; [|split].
  - intros values. apply mapC_Normal_iff.
  - split.
    + induction records as [|r rs IH]; cbn [mapC]; [discriminate|].
      destruct (getNestedObjectValue r key) as [v|e] eqn:E; cbn [andThen].
      * destruct (mapC (fun obj => getNestedObjectValue obj key) rs) as [vs|e];
          cbn [andThen]; [discriminate|].
        intros [= ->]. destruct (IH eq_refl) as [x [Hx Hthrow]].
        exists x. split; [now right | assumption].
      * intros [= ->]. exists r. split; [now left | assumption].
    + intros [r [Hr Hthrow]].
      apply mapC_throws with (x := r); [|assumption|assumption].
      intros y e. apply resolve_throws.
  - intros values H. apply mapC_Forall2 in H. symmetry. apply (Forall2_length H).
Qed.

(** ** X10: the name of the download *)

Lemma replaceSpaces_no_space (s : str) : ~ In 32%N (replaceSpaces s).
Proof.
  unfold replaceSpaces. intros H. apply in_map_iff in H as [c [Hc _]].
  destruct (N.eqb c 32) eqn:E; [discriminate|].
  apply N.eqb_neq in E. congruence.
Qed.

(** X10: [downloadCsvFile] downloads the text of the [csv] field under the
    file name of the options with every space replaced by an underscore and
    [.csv] put at the end, whether or not the name ends in [.csv] already;
    the name holds no space, and the fields are left as they were. *)
Theorem download_is_named_after_the_options (d : value) (o : Config) (c : str)
  (name : str) :
  filename o = Some name ->
  downloadCsvFile {| data := d; options := Some o; csv := c |}
  = (Normal tt, {| data := d; options := Some o; csv := c |},
     [Download (replaceSpaces name ++ lit ".csv") (lit "text/csv;charset=utf8;") c])
  /\ ~ In 32%N (replaceSpaces name ++ lit ".csv")
  /\ List.length (replaceSpaces name ++ lit ".csv") = List.length name + 4.
Proof.
  intros H. repeat apply conj.
  - rewrite downloadCsvFile_run. unfold downloadName. now rewrite H.
  - intros Hin. apply in_app_or in Hin as [Hin | Hin].
    + now apply replaceSpaces_no_space in Hin.
    + cbn in Hin. repeat (destruct Hin as [Hin | Hin]; [discriminate|]). exact Hin.
  - rewrite length_app. unfold replaceSpaces. now rewrite length_map.
Qed.

(** The theorem on the default options: the download is [csv.csv.csv]. *)
Lemma download_is_named_after_the_options_witness :
  downloadCsvFile {| data := VNull; options := Some ConfigDefaults; csv := lit "x" |}
  = (Normal tt, {| data := VNull; options := Some ConfigDefaults; csv := lit "x" |},
     [Download (lit "csv.csv.csv") (lit "text/csv;charset=utf8;") (lit "x")]).
Proof.
  exact (proj1 (@download_is_named_after_the_options VNull ConfigDefaults (lit "x")
                  (lit "csv.csv") eq_refl)).
Defined.

(** ** X11, X12: how a call ends *)

Lemma rowLines_only_TypeError (sep : option str) (keys : list str)
  (records : list value) (e : exn) :
  rowLines V1.formatCellValue sep keys records = Throw e -> e = TypeError.
Proof.
  unfold rowLines. apply mapC_only_TypeError.
  intros y e0. apply rowLine_only_TypeError.
Qed.

Lemma normalize_cases (P : str -> parsed) (d : value) :
  normalize P d = None
  \/ normalize P d = Some VNull
  \/ (exists props, normalize P d = Some (VObj props))
  \/ (exists records, normalize P d = Some (VArr records)).
Proof.
  destruct (normalize P d) as [v|] eqn:E; [|now left].
  pose proof (normalize_typeofObject _ _ E) as Hv.
  destruct v; try discriminate; eauto.
Qed.

(** X11: a call of the second listing ends in one of five ways.  It throws
    an error whose message starts with [Invalid JSON: ]; or it throws a
    [TypeError]; or, on [null], it returns nothing; or, with [noDownload]
    set, it returns the document, which is the [csv] field and is not
    empty, and downloads nothing; or it returns nothing and downloads the
    document once, under the name made from the options.  It writes nothing
    to the console, and the error [Invalid data] is never thrown. *)
Theorem second_listing_ends_in_five_ways (JSON_parse : str -> parsed) (this : service)
  (d : value) (filenameArg : str) (config : option Config) :
  (exists message,
     outcome (V2.toCsv JSON_parse d filenameArg config this)
     = Throw (Error (lit "Invalid JSON: " ++ message))
     /\ trace (V2.toCsv JSON_parse d filenameArg config this) = []
     /\ normalize JSON_parse d = None)
  \/ (outcome (V2.toCsv JSON_parse d filenameArg config this) = Throw TypeError
      /\ trace (V2.toCsv JSON_parse d filenameArg config this) = [])
  \/ (outcome (V2.toCsv JSON_parse d filenameArg config this) = Normal None
      /\ trace (V2.toCsv JSON_parse d filenameArg config this) = []
      /\ normalize JSON_parse d = Some VNull)
  \/ (exists c doc,
        outcome (V2.toCsv JSON_parse d filenameArg config this) = Normal (Some (c :: doc))
        /\ trace (V2.toCsv JSON_parse d filenameArg config this) = []
        /\ csv (after (V2.toCsv JSON_parse d filenameArg config this)) = c :: doc
        /\ isSet (noDownload (mergedOptions filenameArg config)) = true)
  \/ (exists c doc,
        outcome (V2.toCsv JSON_parse d filenameArg config this) = Normal None
        /\ trace (V2.toCsv JSON_parse d filenameArg config this)
           = [Download (downloadName (mergedOptions filenameArg config)) mimeType (c :: doc)]
        /\ csv (after (V2.toCsv JSON_parse d filenameArg config this)) = c :: doc
        /\ isSet (noDownload (mergedOptions filenameArg config)) = false).
Proof.
  destruct (normalize_cases JSON_parse d) as [En | [En | [[props En] | [records En]]]].
  - left. destruct (@V2_toCsv_invalid _ _ filenameArg config this En) as [message H].
    exists message. rewrite H. repeat apply conj; try reflexivity. exact En.
  - right. right. left.
    rewrite (@V2_toCsv_normalize _ _ _ filenameArg config this En).
    repeat apply conj; try reflexivity. exact En.
  - right. left.
    rewrite (@V2_toCsv_normalize _ _ _ filenameArg config this En), V2_toCsv_object.
    split; reflexivity.
  - rewrite (@V2_toCsv_normalize _ _ _ filenameArg config this En).
    pose proof (V2_toCsv_records JSON_parse this records filenameArg config) as H.
    cbv zeta in H. rewrite rowLines_listings in H.
    set (o := mergedOptions filenameArg config) in *.
    destruct (rowLines V1.formatCellValue (fieldSeparator o)
                (firstSeen [] (scan records)) records) as [lines|e] eqn:El.
    + rewrite H.
      set (doc := prefixText o ++ _) in *.
      assert (Hdoc : doc <> []).
      { unfold doc. intros F. apply app_eq_nil in F as [_ F].
        apply app_eq_nil in F as [_ F]. discriminate F. }
      destruct doc as [|c doc']; [now elim Hdoc|].
      destruct (isSet (noDownload o)) eqn:End.
      * right. right. right. left. exists c, doc'. repeat apply conj; reflexivity.
      * right. right. right. right. exists c, doc'. repeat apply conj; reflexivity.
    + right. left. destruct H as [c' H]. rewrite H.
      apply rowLines_only_TypeError in El. subst e. split; reflexivity.
Qed.

Lemma V1_toCsv_invalid_trace P d fn cfg this :
  normalize P d = None ->
  exists t,
    V1.toCsv P d fn cfg this
    = (Normal None, {| data := VNull; options := options this; csv := [] |}, t)
    /\ (t = [] \/ exists message, t = [ConsoleLog [lit "Invalid JSON:"; message]]).
Proof.
  unfold normalize. destruct (typeofObject d) eqn:Ed; [discriminate|]. intros En.
  assert (H : exists t,
             (t = [] \/ exists message, t = [ConsoleLog [lit "Invalid JSON:"; message]])
             /\ forall s, V1.parseJson P d s = (Normal VNull, s, t)).
  { unfold V1.parseJson. destruct (P (toString d)) as [w|m].
    - destruct (isObjectNotNull w); [discriminate|]. exists []. split; [now left|reflexivity].
    - eexists. split; [right; eexists; reflexivity | reflexivity]. }
  destruct H as [t [Ht H]]. exists t. split; [|exact Ht].
  unfold V1.toCsv. rewrite (bind_silent _ _ _ eq_refl). rewrite Ed.
  unfold bind at 1. rewrite H.
  rewrite (bind_silent _ _ _ eq_refl). cbn [truthy negb].
  unfold ret. now rewrite app_nil_r.
Qed.

Lemma join_cons_nil (sep x : str) (xs : list str) :
  join sep (x :: xs) = [] -> sep <> [] -> x = [] /\ xs = [].
Proof.
  destruct xs as [|y ys]; cbn [join].
  - intros ->. now split.
  - intros H Hsep. apply app_eq_nil in H as [_ H].
    apply app_eq_nil in H as [H _]. contradiction.
Qed.

Lemma rowLines_length (format : value -> str -> completion str) (sep : option str)
  (keys : list str) (records : list value) (lines : list str) :
  rowLines format sep keys records = Normal lines ->
  List.length lines = List.length records.
Proof.
  unfold rowLines. intros H. apply mapC_Forall2 in H. symmetry.
  apply (Forall2_length H).
Qed.

(** X12: a call of the first listing ends in one of six ways.  It returns
    nothing for data that is no JSON object or array, after at most one
    line [Invalid JSON:] on the console; or it returns nothing, silently,
    on [null]; or it throws a [TypeError]; or it writes [Invalid data] to
    the console and returns nothing, which happens only for an empty array
    with no byte-order mark and no title; or, with [noDownload] set, it
    returns the document; or it downloads the document and returns nothing.
    It throws no other exception. *)
Theorem first_listing_ends_in_six_ways (JSON_parse : str -> parsed) (this : service)
  (d : value) (filenameArg : str) (config : option Config) :
  (outcome (V1.toCsv JSON_parse d filenameArg config this) = Normal None
   /\ (trace (V1.toCsv JSON_parse d filenameArg config this) = []
       \/ exists message,
            trace (V1.toCsv JSON_parse d filenameArg config this)
            = [ConsoleLog [lit "Invalid JSON:"; message]])
   /\ normalize JSON_parse d = None)
  \/ (outcome (V1.toCsv JSON_parse d filenameArg config this) = Normal None
      /\ trace (V1.toCsv JSON_parse d filenameArg config this) = []
      /\ normalize JSON_parse d = Some VNull)
  \/ (outcome (V1.toCsv JSON_parse d filenameArg config this) = Throw TypeError
      /\ trace (V1.toCsv JSON_parse d filenameArg config this) = [])
  \/ (outcome (V1.toCsv JSON_parse d filenameArg config this) = Normal None
      /\ trace (V1.toCsv JSON_parse d filenameArg config this)
         = [ConsoleLog [lit "Invalid data"]]
      /\ normalize JSON_parse d = Some (VArr [])
      /\ prefixText (mergedOptions filenameArg config) = [])
  \/ (exists c doc,
        outcome (V1.toCsv JSON_parse d filenameArg config this) = Normal (Some (c :: doc))
        /\ trace (V1.toCsv JSON_parse d filenameArg config this) = []
        /\ csv (after (V1.toCsv JSON_parse d filenameArg config this)) = c :: doc
        /\ isSet (noDownload (mergedOptions filenameArg config)) = true)
  \/ (exists c doc,
        outcome (V1.toCsv JSON_parse d filenameArg config this) = Normal None
        /\ trace (V1.toCsv JSON_parse d filenameArg config this)
           = [Download (downloadName (mergedOptions filenameArg config)) mimeType (c :: doc)]
        /\ csv (after (V1.toCsv JSON_parse d filenameArg config this)) = c :: doc
        /\ isSet (noDownload (mergedOptions filenameArg config)) = false).
Proof.
  destruct (normalize_cases JSON_parse d) as [En | [En | [[props En] | [records En]]]].
  - left. destruct (@V1_toCsv_invalid_trace _ _ filenameArg config this En) as [t [H Ht]].
    rewrite H. repeat apply conj; try reflexivity; assumption.
  - right. left.
    rewrite (@V1_toCsv_normalize _ _ _ filenameArg config this En).
    repeat apply conj; try reflexivity. exact En.
  - right. right. left.
    rewrite (@V1_toCsv_normalize _ _ _ filenameArg config this En), V1_toCsv_object.
    split; reflexivity.
  - rewrite (@V1_toCsv_normalize _ _ _ filenameArg config this En), V1_toCsv_records.
    set (o := mergedOptions filenameArg config) in *.
    destruct (rowLines V1.formatCellValue (fieldSeparator o)
                (firstSeen [] (scan records)) records) as [lines|e] eqn:El.
    + cbv zeta.
      destruct (prefixText o ++ join CsvConfigConsts.END_OF_LINE
                  (joinWith (fieldSeparator o) (firstSeen [] (scan records)) :: lines))
        as [|c doc'] eqn:Edoc.
      * right. right. right. left.
        apply app_eq_nil in Edoc as [Hp Hj].
        apply join_cons_nil in Hj as [_ Hl]; [|discriminate].
        subst lines. apply rowLines_length in El.
        destruct records; [|discriminate El].
        repeat apply conj; try reflexivity; assumption.
      * destruct (isSet (noDownload o)) eqn:End.
        -- right. right. right. right. left. exists c, doc'.
           repeat apply conj; reflexivity.
        -- right. right. right. right. right. exists c, doc'.
           repeat apply conj; reflexivity.
    + right. right. left. apply rowLines_only_TypeError in El. subst e.
      split; reflexivity.
Qed.

(** ** X13, X14, X15: empty input, the two listings, objects *)

Lemma terminated_join (line : str) (lines : list str) :
  terminated (line :: lines)
  = join CsvConfigConsts.END_OF_LINE (line :: lines) ++ CsvConfigConsts.END_OF_LINE.
Proof.
  revert line. induction lines as [|l ls IH]; intros line.
  - unfold terminated. cbn [flat_map join]. now rewrite app_nil_r.
  - change (terminated (line :: l :: ls))
      with ((line ++ CsvConfigConsts.END_OF_LINE) ++ terminated (l :: ls)).
    rewrite IH. cbn [join]. now rewrite <- !app_assoc.
Qed.

(** X13: on an empty array the second listing delivers the prefix followed
    by one end-of-line mark, the line of an empty header.  The first listing
    delivers the prefix alone when there is one (the byte-order mark, by
    default); with no byte-order mark and no title it has nothing to
    deliver, writes [Invalid data] to the console and returns nothing. *)
Theorem empty_collection_gives_an_empty_header (JSON_parse : str -> parsed)
  (this : service) (d : value) (filenameArg : str) (config : option Config) :
  normalize JSON_parse d = Some (VArr []) ->
  delivered (V2.toCsv JSON_parse d filenameArg config this)
  = Some (prefixText (mergedOptions filenameArg config) ++ CsvConfigConsts.END_OF_LINE)
  /\ (prefixText (mergedOptions filenameArg config) = [] ->
      outcome (V1.toCsv JSON_parse d filenameArg config this) = Normal None
      /\ trace (V1.toCsv JSON_parse d filenameArg config this)
         = [ConsoleLog [lit "Invalid data"]])
  /\ (forall c p,
        prefixText (mergedOptions filenameArg config) = c :: p ->
        delivered (V1.toCsv JSON_parse d filenameArg config this) = Some (c :: p)).
Proof.
  intros En.
  rewrite (@V2_toCsv_normalize _ _ _ filenameArg config this En).
  rewrite (@V1_toCsv_normalize _ _ _ filenameArg config this En).
  rewrite V2_delivered, V1_delivered, V1_toCsv_records.
  cbn [scan flat_map firstSeen rowLines mapC joinWith join terminated app].
  set (o := mergedOptions filenameArg config).
  destruct (fieldSeparator o); cbn [join app]; rewrite !app_nil_r;
    (repeat apply conj;
     [ reflexivity
     | intros ->; split; reflexivity
     | intros c p ->; reflexivity ]).
Qed.

(** The theorem on [[]] with the default configuration and with
    [{ useByteOrderMark: false }]. *)
Lemma empty_collection_gives_an_empty_header_witness :
  delivered (V2.toCsv parseAtoms (VArr []) [] None newService)
  = Some (CsvConfigConsts.ByteOrderMark ++ CsvConfigConsts.END_OF_LINE)
  /\ delivered (V1.toCsv parseAtoms (VArr []) [] None newService)
     = Some CsvConfigConsts.ByteOrderMark
  /\ trace (V1.toCsv parseAtoms (VArr []) [] (Some noMarkConfig) newService)
     = [ConsoleLog [lit "Invalid data"]].
Proof.
  repeat apply conj.
  - exact (proj1 (@empty_collection_gives_an_empty_header parseAtoms newService
                    (VArr []) [] None eq_refl)).
  - exact (proj2 (proj2 (@empty_collection_gives_an_empty_header parseAtoms newService
                           (VArr []) [] None eq_refl)) _ _ eq_refl).
  - exact (proj2 (proj1 (proj2 (@empty_collection_gives_an_empty_header parseAtoms
                                  newService (VArr []) [] (Some noMarkConfig) eq_refl))
                   eq_refl)).
Defined.

(** X14: the two listings deliver the same document up to the end-of-line
    mark after the last line.  What the second listing delivers is what the
    first delivers followed by one end-of-line mark; the first delivers
    nothing where that leaves it an empty text; and the one throws a
    [TypeError] exactly when the other does. *)
Theorem listings_differ_by_the_last_end_of_line (JSON_parse : str -> parsed)
  (this : service) (d : value) (filenameArg : str) (config : option Config) :
  (forall doc2,
     delivered (V2.toCsv JSON_parse d filenameArg config this) = Some doc2 ->
     exists doc1,
       doc2 = doc1 ++ CsvConfigConsts.END_OF_LINE
       /\ (delivered (V1.toCsv JSON_parse d filenameArg config this) = Some doc1
           \/ (doc1 = []
               /\ delivered (V1.toCsv JSON_parse d filenameArg config this) = None)))
  /\ (forall doc1,
        delivered (V1.toCsv JSON_parse d filenameArg config this) = Some doc1 ->
        delivered (V2.toCsv JSON_parse d filenameArg config this)
        = Some (doc1 ++ CsvConfigConsts.END_OF_LINE))
  /\ (outcome (V2.toCsv JSON_parse d filenameArg config this) = Throw TypeError
      <-> outcome (V1.toCsv JSON_parse d filenameArg config this) = Throw TypeError).
Proof.
  destruct (normalize_cases JSON_parse d) as [En | [En | [[props En] | [records En]]]].
  - destruct (@V2_toCsv_invalid _ _ filenameArg config this En) as [message H2].
    destruct (@V1_toCsv_invalid _ _ filenameArg config this En) as [t [H1 Ht]].
    rewrite H2, H1. unfold delivered, outcome, trace. cbn [fst snd]. rewrite Ht.
    split; [|split]; [discriminate | discriminate | split; discriminate].
  - rewrite (@V2_toCsv_normalize _ _ _ filenameArg config this En).
    rewrite (@V1_toCsv_normalize _ _ _ filenameArg config this En).
    split; [|split]; [discriminate | discriminate | split; discriminate].
  - rewrite (@V2_toCsv_normalize _ _ _ filenameArg config this En).
    rewrite (@V1_toCsv_normalize _ _ _ filenameArg config this En).
    rewrite V2_toCsv_object, V1_toCsv_object.
    split; [|split]; [discriminate | discriminate | split; reflexivity].
  - rewrite (@V2_toCsv_normalize _ _ _ filenameArg config this En).
    rewrite (@V1_toCsv_normalize _ _ _ filenameArg config this En).
    rewrite V2_delivered, V1_delivered.
    pose proof (V2_toCsv_records JSON_parse this records filenameArg config) as H2.
    cbv zeta in H2. rewrite V1_toCsv_records. rewrite rowLines_listings in *.
    set (o := mergedOptions filenameArg config) in *.
    set (keys := firstSeen [] (scan records)) in *.
    destruct (rowLines V1.formatCellValue (fieldSeparator o) keys records)
      as [lines|e] eqn:El.
    + assert (E : prefixText o ++ joinWith (fieldSeparator o) keys
                  ++ CsvConfigConsts.END_OF_LINE ++ terminated lines
                  = (prefixText o ++ join CsvConfigConsts.END_OF_LINE
                       (joinWith (fieldSeparator o) keys :: lines))
                    ++ CsvConfigConsts.END_OF_LINE).
      { pose proof (terminated_join (joinWith (fieldSeparator o) keys) lines) as T.
        unfold terminated in T at 1. cbn [flat_map] in T. fold (terminated lines) in T.
        rewrite <- app_assoc, <- T. now rewrite <- !app_assoc. }
      rewrite E, H2. cbv zeta.
      destruct (prefixText o ++ join CsvConfigConsts.END_OF_LINE
                  (joinWith (fieldSeparator o) keys :: lines)) as [|c doc'].
      * split; [|split].
        -- intros doc2 [= <-]. exists []. split; [reflexivity | right; now split].
        -- discriminate.
        -- destruct (isSet (noDownload o)); split; discriminate.
      * split; [|split].
        -- intros doc2 [= <-]. exists (c :: doc'). split; [reflexivity | now left].
        -- intros doc1 [= <-]. reflexivity.
        -- destruct (isSet (noDownload o)); split; discriminate.
    + destruct H2 as [c' H2]. rewrite H2.
      apply rowLines_only_TypeError in El. subst e.
      split; [|split]; [discriminate | discriminate | split; reflexivity].
Qed.

(** X15: a single record that is not wrapped in an array is not converted.
    Both listings write the prefix into the [csv] field and then throw a
    [TypeError]; nothing is returned, logged or downloaded. *)
Theorem unwrapped_record_is_rejected (JSON_parse : str -> parsed) (this : service)
  (d : value) (props : list (str * value)) (filenameArg : str)
  (config : option Config) :
  normalize JSON_parse d = Some (VObj props) ->
  V2.toCsv JSON_parse d filenameArg config this
  = (Throw TypeError,
     {| data := VObj props; options := Some (mergedOptions filenameArg config);
        csv := prefixText (mergedOptions filenameArg config) |}, [])
  /\ V1.toCsv JSON_parse d filenameArg config this
     = (Throw TypeError,
        {| data := VObj props; options := Some (mergedOptions filenameArg config);
           csv := prefixText (mergedOptions filenameArg config) |}, []).
Proof.
  intros En.
  rewrite (@V2_toCsv_normalize _ _ _ filenameArg config this En).
  rewrite (@V1_toCsv_normalize _ _ _ filenameArg config this En).
  now rewrite V2_toCsv_object, V1_toCsv_object.
Qed.

(** The theorem on [{a:1}]. *)
Lemma unwrapped_record_is_rejected_witness :
  outcome (V2.toCsv parseAtoms (VObj [(lit "a", VNum 1)]) [] None newService)
  = Throw TypeError
  /\ outcome (V1.toCsv parseAtoms (VObj [(lit "a", VNum 1)]) [] None newService)
     = Throw TypeError.
Proof.
  destruct (@unwrapped_record_is_rejected parseAtoms newService
              (VObj [(lit "a", VNum 1)]) [(lit "a", VNum 1)] [] None eq_refl)
    as [H2 H1].
  rewrite H2, H1. split; reflexivity.
Defined.

(** ** X16: a row reads back cell by cell *)

Lemma scanRow_open (sep : codeunit) (s : str) :
  scanRow sep false [] (DQUOTE :: s) = scanRow sep true [] s.
Proof. reflexivity. Qed.

Lemma scanRow_char (sep : codeunit) (cell : str) (c : codeunit) (r : str) :
  N.eqb c DQUOTE = false ->
  scanRow sep true cell (c :: r) = scanRow sep true (cell ++ [c]) r.
Proof. intros H. cbn [scanRow]. now rewrite H. Qed.

Lemma scanRow_escaped (sep : codeunit) (cell : str) (r : str) :
  scanRow sep true cell (DQUOTE :: DQUOTE :: r)
  = scanRow sep true (cell ++ [DQUOTE]) r.
Proof. reflexivity. Qed.

Lemma scanRow_close_sep (sep : codeunit) (cell : str) (more : str) :
  sep <> DQUOTE ->
  scanRow sep true cell (DQUOTE :: sep :: more)
  = option_map (cons cell) (scanRow sep false [] more).
Proof.
  intros H. apply N.eqb_neq in H.
  change (scanRow sep true cell (DQUOTE :: sep :: more))
    with (if N.eqb sep DQUOTE then scanRow sep true (cell ++ [DQUOTE]) more
          else if N.eqb sep sep
               then option_map (cons cell) (scanRow sep false [] more)
               else None).
  now rewrite H, N.eqb_refl.
Qed.

(** The escaped text of a cell up to its closing quote at the end of the
    row. *)
Lemma scanRow_last (sep : codeunit) (text : str) (cell : str) :
  scanRow sep true cell (replaceQuotes text ++ [DQUOTE]) = Some [cell ++ text].
Proof.
  revert cell. induction text as [|c r IH]; intros cell.
  - cbn [replaceQuotes app]. now rewrite app_nil_r.
  - cbn [replaceQuotes]. destruct (N.eqb c DQUOTE) eqn:Ec.
    + apply N.eqb_eq in Ec. subst c.
      change ((DQUOTE :: DQUOTE :: replaceQuotes r) ++ [DQUOTE])
        with (DQUOTE :: DQUOTE :: (replaceQuotes r ++ [DQUOTE])).
      rewrite scanRow_escaped, IH. now rewrite <- app_assoc.
    + change ((c :: replaceQuotes r) ++ [DQUOTE])
        with (c :: (replaceQuotes r ++ [DQUOTE])).
      rewrite scanRow_char by assumption. rewrite IH. now rewrite <- app_assoc.
Qed.

(** The escaped text of a cell up to its closing quote before the
    separator. *)
Lemma scanRow_next (sep : codeunit) (text : str) (cell : str) (more : str) :
  sep <> DQUOTE ->
  scanRow sep true cell (replaceQuotes text ++ DQUOTE :: sep :: more)
  = option_map (cons (cell ++ text)) (scanRow sep false [] more).
Proof.
  intros Hs. revert cell. induction text as [|c r IH]; intros cell.
  - cbn [replaceQuotes app]. rewrite app_nil_r. now apply scanRow_close_sep.
  - cbn [replaceQuotes]. destruct (N.eqb c DQUOTE) eqn:Ec.
    + apply N.eqb_eq in Ec. subst c.
      change ((DQUOTE :: DQUOTE :: replaceQuotes r) ++ DQUOTE :: sep :: more)
        with (DQUOTE :: DQUOTE :: (replaceQuotes r ++ DQUOTE :: sep :: more)).
      rewrite scanRow_escaped, IH. now rewrite <- app_assoc.
    + change ((c :: replaceQuotes r) ++ DQUOTE :: sep :: more)
        with (c :: (replaceQuotes r ++ DQUOTE :: sep :: more)).
      rewrite scanRow_char by assumption. rewrite IH. now rewrite <- app_assoc.
Qed.

(** Quoted, escaped cells joined by a one-character separator other than
    the quote read back as the texts they were made from. *)
Lemma readRow_join (sep : codeunit) (texts : list str) :
  sep <> DQUOTE ->
  readRow sep (join [sep] (map (fun t => quoted (replaceQuotes t)) texts))
  = Some texts.
Proof.
  intros Hs. destruct texts as [|t ts]; [reflexivity|].
  assert (H : scanRow sep false []
                (join [sep] (map (fun t => quoted (replaceQuotes t)) (t :: ts)))
              = Some (t :: ts)).
  { revert t. induction ts as [|t' ts IH]; intros t.
    - cbn [map join]. unfold quoted. rewrite scanRow_open. apply scanRow_last.
    - change (join [sep] (map (fun t => quoted (replaceQuotes t)) (t :: t' :: ts)))
        with (quoted (replaceQuotes t) ++ [sep]
              ++ join [sep] (map (fun t => quoted (replaceQuotes t)) (t' :: ts))).
      unfold quoted at 1.
      change ((DQUOTE :: replaceQuotes t ++ [DQUOTE]) ++ [sep]
              ++ join [sep] (map (fun t => quoted (replaceQuotes t)) (t' :: ts)))
        with (DQUOTE :: ((replaceQuotes t ++ [DQUOTE]) ++ sep
              :: join [sep] (map (fun t => quoted (replaceQuotes t)) (t' :: ts)))).
      rewrite <- app_assoc. cbn [app].
      rewrite scanRow_open. rewrite scanRow_next by assumption. rewrite IH. reflexivity. }
  unfold readRow.
  destruct (join [sep] (map (fun t => quoted (replaceQuotes t)) (t :: ts))) eqn:E.
  - cbn [scanRow] in H. discriminate H.
  - exact H.
Qed.

(** The cells of a row are the quoted, escaped texts of the values the key
    paths resolve to. *)
Lemma mapC_cells (obj : value) (keys : list str) (row : list str) :
  mapC (V1.formatCellValue obj) keys = Normal row ->
  exists values,
    Forall2 (fun key v => getNestedObjectValue obj key = Normal v) keys values
    /\ row = map (fun t => quoted (replaceQuotes t)) (map cellText values).
Proof.
  revert row. induction keys as [|k ks IH]; intros row H; cbn [mapC] in H.
  - injection H as <-. exists []. split; [constructor | reflexivity].
  - destruct (V1.formatCellValue obj k) as [c|e] eqn:Ec; [|discriminate H].
    cbn [andThen] in H.
    destruct (mapC (V1.formatCellValue obj) ks) as [cs|e] eqn:Ecs; [|discriminate H].
    cbn [andThen] in H. injection H as <-.
    destruct (IH cs eq_refl) as [vs [Hvs ->]].
    unfold V1.formatCellValue in Ec.
    destruct (getNestedObjectValue obj k) as [v|e] eqn:Ev; [|discriminate Ec].
    cbn [andThen] in Ec. injection Ec as <-.
    exists (v :: vs). split; [now constructor | reflexivity].
Qed.

(** X16: with a separator of one character other than the double quote, a
    data row of either listing reads back, cell by cell, as the texts of the
    values its key paths resolve to: a separator or a double quote inside a
    value does not shift the cells. *)
Theorem row_reads_back_cell_by_cell (sep : codeunit) (keys : list str)
  (obj : value) (line : str) :
  sep <> DQUOTE ->
  rowLine V1.formatCellValue (Some [sep]) keys obj = Normal line
  \/ rowLine V2.formatCellValue (Some [sep]) keys obj = Normal line ->
  exists values,
    Forall2 (fun key v => getNestedObjectValue obj key = Normal v) keys values
    /\ readRow sep line = Some (map cellText values).
Proof.
  intros Hs H.
  assert (H1 : rowLine V1.formatCellValue (Some [sep]) keys obj = Normal line).
  { destruct H as [H|H]; [exact H|].
    unfold rowLine in *. now rewrite mapC_listings in H. }
  unfold rowLine in H1.
  destruct (mapC (V1.formatCellValue obj) keys) as [row|e] eqn:Er; [|discriminate H1].
  cbn [andThen] in H1. injection H1 as <-.
  destruct (@mapC_cells _ _ _ Er) as [values [Hv ->]].
  exists values. split; [exact Hv|].
  unfold joinWith. now apply readRow_join.
Qed.

(** The theorem on [{ note: 'a;b', said: Qhi Q }] with the separator [;]. *)
Lemma row_reads_back_cell_by_cell_witness :
  exists values,
    Forall2 (fun key v => getNestedObjectValue trickyRecord key = Normal v)
      [lit "note"; lit "said"] values
    /\ readRow 59%N
         (quoted (lit "a;b") ++ lit ";" ++ quoted (replaceQuotes (quoted (lit "hi"))))
       = Some (map cellText values).
Proof.
  apply (@row_reads_back_cell_by_cell 59%N [lit "note"; lit "said"] trickyRecord).
  - discriminate.
  - right. reflexivity.
Defined.

(** ** X17: the title block *)

Lemma untitled_separator (filenameArg : str) (c : Config) :
  fieldSeparator (mergedOptions filenameArg (Some (untitled c)))
  = fieldSeparator (mergedOptions filenameArg (Some c)).
Proof. destruct filenameArg; reflexivity. Qed.

Lemma untitled_prefix (filenameArg : str) (c : Config) :
  prefixText (mergedOptions filenameArg (Some (untitled c))) = [].
Proof. destruct filenameArg; reflexivity. Qed.

Lemma titled_prefix (filenameArg : str) (c : Config) (t : str) :
  showTitle c = Some true -> title c = Some t ->
  prefixText (mergedOptions filenameArg (Some c))
  = (if isSet (orElse (useByteOrderMark c) (Some CsvConfigConsts.DEFAULT_USE_BOM))
     then CsvConfigConsts.ByteOrderMark else [])
    ++ t ++ [13; 10; 10]%N.
Proof.
  intros Hs Ht. destruct filenameArg; unfold mergedOptions, prefixText, spread;
    cbn [useByteOrderMark showTitle title withFilename ConfigDefaults];
    rewrite Hs, Ht; reflexivity.
Qed.

(** X17: with [showTitle] set, the document is the byte-order mark, unless
    it is switched off, then the title followed by a carriage return and
    two line feeds, then the very table that the same call delivers with
    mark and title switched off.  The first listing delivers nothing in
    place of an empty table. *)
Theorem title_block_precedes_the_table (JSON_parse : str -> parsed) (this : service)
  (d : value) (filenameArg : str) (c : Config) (t : str) :
  showTitle c = Some true -> title c = Some t ->
  (forall doc,
     delivered (V2.toCsv JSON_parse d filenameArg (Some c) this) = Some doc ->
     exists table,
       doc = (if isSet (orElse (useByteOrderMark c) (Some CsvConfigConsts.DEFAULT_USE_BOM))
              then CsvConfigConsts.ByteOrderMark else [])
             ++ t ++ [13; 10; 10]%N ++ table
       /\ delivered (V2.toCsv JSON_parse d filenameArg (Some (untitled c)) this)
          = Some table)
  /\ (forall doc,
        delivered (V1.toCsv JSON_parse d filenameArg (Some c) this) = Some doc ->
        exists table,
          doc = (if isSet (orElse (useByteOrderMark c)
                             (Some CsvConfigConsts.DEFAULT_USE_BOM))
                 then CsvConfigConsts.ByteOrderMark else [])
                ++ t ++ [13; 10; 10]%N ++ table
          /\ delivered (V1.toCsv JSON_parse d filenameArg (Some (untitled c)) this)
             = match table with [] => None | _ :: _ => Some table end).
Proof.
  intros Hs Ht. split; intros doc H.
  - apply V2_delivered_array in H. destruct H as [records [En H]].
    rewrite (@V2_toCsv_normalize _ _ _ filenameArg (Some (untitled c)) this En).
    rewrite V2_delivered in *. rewrite untitled_separator, untitled_prefix.
    rewrite (titled_prefix filenameArg c Hs Ht) in H.
    destruct (rowLines V2.formatCellValue _ _ records) as [lines|e]; [|discriminate H].
    injection H as <-. eexists. split; [|reflexivity].
    rewrite <- !app_assoc. reflexivity.
  - apply V1_delivered_array in H. destruct H as [records [En H]].
    rewrite (@V1_toCsv_normalize _ _ _ filenameArg (Some (untitled c)) this En).
    rewrite V1_delivered in *. rewrite untitled_separator, untitled_prefix.
    rewrite (titled_prefix filenameArg c Hs Ht) in H.
    destruct (rowLines V1.formatCellValue _ _ records) as [lines|e]; [|discriminate H].
    cbn [app].
    exists (join CsvConfigConsts.END_OF_LINE
              (joinWith (fieldSeparator (mergedOptions filenameArg (Some c)))
                 (firstSeen [] (scan records)) :: lines)).
    split.
    + destruct (_ ++ _) as [|c0 doc0] eqn:E in H; [discriminate H|].
      injection H as <-. rewrite <- E. rewrite <- !app_assoc. reflexivity.
    + destruct (join _ _); reflexivity.
Qed.

(** The theorem on [[{a:1,b:'x'}, {a:2,b:'y'}]] with the title [Report]. *)
Lemma title_block_precedes_the_table_witness :
  exists table,
    CsvConfigConsts.ByteOrderMark ++ lit "Report" ++ [13; 10; 10]%N
    ++ lit "a,b" ++ CsvConfigConsts.END_OF_LINE
    ++ quoted (lit "1") ++ lit "," ++ quoted (lit "x") ++ CsvConfigConsts.END_OF_LINE
    ++ quoted (lit "2") ++ lit "," ++ quoted (lit "y") ++ CsvConfigConsts.END_OF_LINE
    = CsvConfigConsts.ByteOrderMark ++ lit "Report" ++ [13; 10; 10]%N ++ table
    /\ delivered (V2.toCsv parseAtoms flatRecords [] (Some (untitled titledConfig))
                    newService)
       = Some table.
Proof.
  apply (proj1 (@title_block_precedes_the_table parseAtoms newService flatRecords []
                  titledConfig (lit "Report") eq_refl eq_refl)).
  reflexivity.
Defined.
